(** * AOC2025: a shallow embedding of the puzzle solvers and their properties

    The development follows the repository day by day.  Python integers are
    [Z], Python strings are [list ascii], dictionaries are [gmap]s, sets are
    [gset]s, and [while] loops carry an explicit fuel argument; a loop that
    runs out of fuel answers [None]. *)

From Stdlib Require Import ZArith List Ascii String Lia.
From Stdlib Require Import DecimalString DecimalPos DecimalFacts.
From stdpp Require Import gmap strings list fin_maps sorting.

(** ** Python primitives shared by the scripts *)

Module Py.

(** [str(n)] for an [int]: the decimal numeral, with a leading minus sign
    for negative numbers. *)
Definition str (n : Z) : list ascii :=
  list_ascii_of_string (NilZero.string_of_int (Z.to_int n)).

(** [s.lstrip(c)] for a one-character argument. *)
Fixpoint lstrip (c : ascii) (s : list ascii) : list ascii :=
  match s with
  | [] => []
  | x :: s' => if bool_decide (x = c) then lstrip c s' else s
  end.

(** [range(start, stop)]. *)
Definition range (start stop : Z) : list Z :=
  (λ i : nat, (start + Z.of_nat i)%Z) <$> seq 0 (Z.to_nat (stop - start)).

(** [s * k] on sequences. *)
Definition str_mul {A} (s : list A) (k : nat) : list A :=
  concat (replicate k s).

(** [sum(l)]. *)
Definition sum (l : list Z) : Z := foldr Z.add 0%Z l.

Definition is_digit (c : ascii) : Prop :=
  c ∈ ["0"; "1"; "2"; "3"; "4"; "5"; "6"; "7"; "8"; "9"]%char.

End Py.

(** ** The fragment of Python's [re] used by day 02 *)

Module Re.

(** The constructs of the pattern [(.+?)\1+$]; there is one group. *)
Inductive regex :=
| Any                         (* [.] *)
| Group (r : regex)           (* [( )], group 1 *)
| Backref                     (* [\1] *)
| LazyPlus (r : regex)        (* [+?] *)
| Plus (r : regex)            (* [+] *)
| Seq (r1 r2 : regex)
| End.                        (* [$] *)

(** A matching state: the rest of the subject and the text of group 1. *)
Definition state : Type := list ascii * option (list ascii).

(** [matches r st st']: from [st], [r] can match and leave [st'].  Lazy and
    greedy repetition differ in the order of the attempts only, not in the
    set of possible matches. *)
Inductive matches : regex → state → state → Prop :=
| matches_any c s cap :
    c ≠ "010"%char → matches Any (c :: s, cap) (s, cap)
| matches_group r g s cap cap' :
    matches r (g ++ s, cap) (s, cap') →
    matches (Group r) (g ++ s, cap) (s, Some g)
| matches_backref g s :
    matches Backref (g ++ s, Some g) (s, Some g)
| matches_lazy_one r st st' :
    matches r st st' → matches (LazyPlus r) st st'
| matches_lazy_more r st st' st'' :
    matches r st st' → matches (LazyPlus r) st' st'' →
    matches (LazyPlus r) st st''
| matches_plus_one r st st' :
    matches r st st' → matches (Plus r) st st'
| matches_plus_more r st st' st'' :
    matches r st st' → matches (Plus r) st' st'' →
    matches (Plus r) st st''
| matches_seq r1 r2 st st' st'' :
    matches r1 st st' → matches r2 st' st'' → matches (Seq r1 r2) st st''
| matches_end s cap :
    s = [] ∨ s = ["010"%char] → matches End (s, cap) (s, cap).

(** [re.fullmatch(r, s)] succeeds: the whole subject is consumed. *)
Definition fullmatch (r : regex) (s : list ascii) : Prop :=
  ∃ cap, matches r (s, None) ([], cap).

End Re.

(** ** Day 2, first solution: [src/day02/main.py] *)

Module Day02.
Import Py.

(** The body of the loop of [invalid_finder]: the test that decides whether
    [num] is appended. *)
Definition is_double (num : Z) : bool :=
  let str_num := lstrip "0" (str num) in
  let midpoint := length str_num / 2 in
  let first_half := take midpoint str_num in
  let second_half := drop midpoint str_num in
  bool_decide (first_half = second_half).

Definition invalid_finder (start end_ : Z) : list Z :=
  List.filter is_double (range start (end_ + 1)).

(** The pattern [r"(.+?)\1+$"]. *)
Definition pattern : Re.regex :=
  Re.Seq (Re.Group (Re.LazyPlus Re.Any)) (Re.Seq (Re.Plus Re.Backref) Re.End).

(** [\1+$] at the tail of a [fullmatch]: the captured group [g] is consumed
    one copy at a time, greedily; after the last copy [$] and the end of
    the subject are required.  Each copy consumes [length g] characters,
    so [fuel] bounds the number of copies. *)
Fixpoint backref_plus_end (fuel : nat) (g rest : list ascii) : bool :=
  match fuel with
  | 0 => false
  | S fuel' =>
      if bool_decide (take (length g) rest = g) then
        let rest' := drop (length g) rest in
        backref_plus_end fuel' g rest' || bool_decide (rest' = [])
      else false
  end.

(** [re.fullmatch(pattern, s)] as a truth value, by backtracking.  The lazy
    group [(.+?)] tries the prefixes of length 1, 2, ... in that order; [.]
    does not match a newline. *)
Definition fullmatch_repeat (s : list ascii) : bool :=
  existsb
    (λ d, forallb (λ c, negb (bool_decide (c = "010"%char))) (take d s)
          && backref_plus_end (length s) (take d s) (drop d s))
    (seq 1 (length s)).

(** The test of the loop of [pattern_finder]. *)
Definition is_pattern (num : Z) : bool :=
  let str_num := lstrip "0" (str num) in
  fullmatch_repeat str_num.

Definition pattern_finder (start end_ : Z) : list Z :=
  List.filter is_pattern (range start (end_ + 1)).

(** The two accumulations of [main], for parsed ranges. *)
Definition main (input : list (Z * Z)) : Z * Z :=
  let total_sum :=
    foldl (λ acc r, (acc + sum (invalid_finder r.1 r.2))%Z) 0%Z input in
  let p2_total_sum :=
    foldl (λ acc r, (acc + sum (pattern_finder r.1 r.2))%Z) 0%Z input in
  (total_sum, p2_total_sum).

End Day02.

(** ** Day 2, second solution: [src/day2/agent.py] *)

Module Day2Agent.
Import Py.

Definition is_invalid_part1 (product_id : Z) : bool :=
  let id_str := str product_id in
  let length_ := length id_str in
  if length_ <? 2 then false
  else if negb (length_ mod 2 =? 0) then false
  else
    let mid := length_ / 2 in
    let first_half := take mid id_str in
    let second_half := drop mid id_str in
    bool_decide (first_half = second_half).

(** The [for seq_length in range(1, length // 2 + 1)] loop of
    [is_invalid_part2]; [candidates] are the values still to be tried. *)
Fixpoint part2_loop (id_str : list ascii) (length_ : nat)
    (candidates : list nat) : bool :=
  match candidates with
  | [] => false
  | seq_length :: rest =>
      if negb (length_ mod seq_length =? 0) then
        part2_loop id_str length_ rest
      else
        let sequence := take seq_length id_str in
        let repetition_count := length_ / seq_length in
        if (2 <=? repetition_count)
           && bool_decide (str_mul sequence repetition_count = id_str)
        then true
        else part2_loop id_str length_ rest
  end.

Definition is_invalid_part2 (product_id : Z) : bool :=
  let id_str := str product_id in
  let length_ := length id_str in
  if length_ <? 2 then false
  else part2_loop id_str length_ (seq 1 (length_ / 2)).

Definition find_invalid_ids_in_range (start end_ : Z)
    (validator : Z → bool) : list Z :=
  List.filter validator (range start (end_ + 1)).

Definition calculate_invalid_sum (ranges : list (Z * Z))
    (validator : Z → bool) : Z :=
  foldl (λ total_sum r,
           (total_sum + sum (find_invalid_ids_in_range r.1 r.2 validator))%Z)
        0%Z ranges.

End Day2Agent.

(** ** Day 2: what the specification calls the two predicates *)

Module Day2Spec.
Import Py.

(** "exact double": even length [L], and the first [L/2] digits equal the
    last [L/2] digits. *)
Definition exact_double (s : list ascii) : Prop :=
  let L := length s in
  Nat.Even L ∧ take (L / 2) s = drop (L - L / 2) s.

(** "general repetition": some divisor [d] of the length, smaller than the
    length, such that the string is its first [d] characters repeated
    [L/d] times. *)
Definition general_repetition (s : list ascii) : Prop :=
  let L := length s in
  ∃ d : nat, (d | L) ∧ d < L ∧ s = str_mul (take d s) (L / d).

End Day2Spec.

(** ** Day 4: [src/day4/main.py] *)

Module Day4.

(** Excluding self / center square. *)
Definition square : list (Z * Z) :=
  [(-1, -1); (0, -1); (1, -1); (-1, 0); (1, 0); (-1, 1); (0, 1); (1, 1)]%Z.

(** [main] fills the module-level dictionary from the input lines. *)
Definition build_grid (input_lines : list (list ascii)) : gmap (Z * Z) ascii :=
  foldl (λ g yl,
           foldl (λ g' xc, <[(Z.of_nat yl.1, Z.of_nat xc.1) := xc.2]> g')
                 g (imap pair yl.2))
        ∅ (imap pair input_lines).

(** The inner [for dy, dx in square] loop of [roll_access], with its
    [break] once four occupied neighbours have been seen. *)
Fixpoint scan_square (grid_map : gmap (Z * Z) ascii) (y x : Z)
    (offsets : list (Z * Z)) (at_count : nat) : nat :=
  match offsets with
  | [] => at_count
  | (dy, dx) :: rest =>
      let ny := (y + dy)%Z in
      let nx := (x + dx)%Z in
      let at_count' :=
        if bool_decide (grid_map !! (ny, nx) = Some "@"%char)
        then at_count + 1 else at_count in
      if 4 <=? at_count' then at_count'
      else scan_square grid_map y x rest at_count'
  end.

(** [roll_access]: the dictionary of cells to clear, each mapped to ["."].
    The result does not depend on the order in which the items are
    visited, since every entry is decided on the unchanged [grid_map]. *)
Definition roll_access (grid_map : gmap (Z * Z) ascii) : gmap (Z * Z) ascii :=
  map_imap
    (λ key value,
       if bool_decide (value ≠ "@"%char) then None
       else
         let at_count := scan_square grid_map key.1 key.2 square 0 in
         if at_count <? 4 then Some "."%char else None)
    grid_map.

(** [grid_map.update(rolls)]. *)
Definition update (grid_map rolls : gmap (Z * Z) ascii) : gmap (Z * Z) ascii :=
  rolls ∪ grid_map.

(** The [while True] loop of [main]. *)
Fixpoint clearing_loop (fuel : nat) (grid_map : gmap (Z * Z) ascii)
    (total_rolls : nat) : option (nat * gmap (Z * Z) ascii) :=
  match fuel with
  | 0 => None
  | S fuel' =>
      let rolls := roll_access grid_map in
      if size rolls =? 0 then Some (total_rolls, grid_map)
      else clearing_loop fuel' (update grid_map rolls)
                         (total_rolls + size rolls)
  end.

(** The two numbers [main] prints. *)
Definition part1 (grid_map : gmap (Z * Z) ascii) : nat :=
  size (roll_access grid_map).

Definition part2 (fuel : nat) (grid_map : gmap (Z * Z) ascii) : option nat :=
  fst <$> clearing_loop fuel grid_map 0.

Definition main (fuel : nat) (input_lines : list (list ascii))
    : nat * option nat :=
  let grid_map := build_grid input_lines in
  (part1 grid_map, part2 fuel grid_map).

(** A small grid: a full 3 by 3 block with one more roll to its right. *)
Definition example_lines : list (list ascii) :=
  list_ascii_of_string <$> ["@@@."; "@@@@"; "@@@."]%string.

End Day4.

(** ** Day 4: the automaton as the specification words it *)

Module Day4Spec.

Definition occupied (g : gmap (Z * Z) ascii) (k : Z * Z) : Prop :=
  g !! k = Some "@"%char.

Global Instance occupied_dec g k : Decision (occupied g k).
Proof. unfold occupied. apply _. Defined.

(** The set of occupied cells. *)
Definition occupied_set (g : gmap (Z * Z) ascii) : gset (Z * Z) :=
  dom (filter (λ kv, kv.2 = "@"%char) g).

(** [k'] lies in the 8-neighbourhood of [k]: another cell, at most one row
    and one column away. *)
Definition adjacent (k k' : Z * Z) : Prop :=
  k' ≠ k ∧ (Z.abs (k'.1 - k.1) ≤ 1)%Z ∧ (Z.abs (k'.2 - k.2) ≤ 1)%Z.

Global Instance adjacent_dec k k' : Decision (adjacent k k').
Proof. unfold adjacent. apply _. Defined.

(** Number of occupied cells in the 8-neighbourhood of [k]. *)
Definition neighbours (g : gmap (Z * Z) ascii) (k : Z * Z) : nat :=
  size (filter (adjacent k) (occupied_set g)).

(** A cell is cleared in a round iff it is occupied and has fewer than four
    occupied neighbours. *)
Definition clearable (g : gmap (Z * Z) ascii) (k : Z * Z) : Prop :=
  occupied g k ∧ neighbours g k < 4.

Global Instance clearable_dec g k : Decision (clearable g k).
Proof. unfold clearable. apply _. Defined.

(** The cells a round clears, all judged on the grid [g] of its start. *)
Definition cleared (g : gmap (Z * Z) ascii) : gset (Z * Z) :=
  filter (clearable g) (dom g).

(** One round: every cleared cell becomes ["."], the others keep their
    value. *)
Definition round (g : gmap (Z * Z) ascii) : gmap (Z * Z) ascii :=
  map_imap (λ k v, Some (if decide (clearable g k) then "."%char else v)) g.

(** Cells cleared during the first [n] rounds. *)
Fixpoint cleared_in (n : nat) (g : gmap (Z * Z) ascii) : nat :=
  match n with
  | 0 => 0
  | S n' => size (cleared g) + cleared_in n' (round g)
  end.

End Day4Spec.

(** ** Day 7: [src/day7/main.py], part B *)

Module Day7.

(** The [dirs] table. *)
Definition dirs (d : ascii) : Z * Z :=
  if bool_decide (d = "d"%char) then (1, 0)%Z
  else if bool_decide (d = "r"%char) then (0, 1)%Z
  else if bool_decide (d = "l"%char) then (0, -1)%Z
  else (-1, 0)%Z.

Section Traverse.
Variable grid : gmap (Z * Z) ascii.
Variables grid_len row_len : Z.

(** [traverse] of [solve_2].  [lru_cache] only memoises a pure function;
    [prev_pos] is part of the cache key and is otherwise unused.  The
    recursion always moves one row down, [fuel] bounds its depth. *)
Fixpoint traverse (fuel : nat) (pos : Z * Z) (prev_pos : option (Z * Z))
    : option Z :=
  match fuel with
  | 0 => None
  | S fuel' =>
      let y := pos.1 in
      let x := pos.2 in
      if bool_decide (y + (dirs "d").1 > grid_len)%Z then Some 1%Z
      else
        let ny := (y + (dirs "d").1)%Z in
        let nx := (x + (dirs "d").2)%Z in
        let next := grid !! (ny, nx) in
        if bool_decide (next = Some "^"%char) then
          left_ ← (if bool_decide (0 ≤ nx + (dirs "l").2 ≤ row_len)%Z
                   then traverse fuel' (ny, nx + (dirs "l").2)%Z (Some pos)
                   else Some 0%Z);
          right_ ← (if bool_decide (0 ≤ nx + (dirs "r").2 ≤ row_len)%Z
                    then traverse fuel' (ny, nx + (dirs "r").2)%Z (Some pos)
                    else Some 0%Z);
          Some (0 + left_ + right_)%Z
        else if bool_decide (next = Some "."%char) then
          t ← traverse fuel' (ny, nx) (Some pos);
          Some (0 + t)%Z
        else Some 0%Z
  end.
End Traverse.

(** The column test that guards each branch at a splitter. *)
Definition in_bounds (row_len c : Z) : bool :=
  bool_decide (0 ≤ c ≤ row_len)%Z.

(** The number [traverse] returns from [pos]: the recursion descends one
    row per call, so a depth of one more than the rows left is enough. *)
Definition paths (grid : gmap (Z * Z) ascii) (grid_len row_len : Z)
    (pos : Z * Z) : Z :=
  default 0%Z
    (traverse grid grid_len row_len (S (Z.to_nat (grid_len - pos.1))) pos None).

(** The file-reading prologue of [solve_2], on the stripped lines. *)
Definition build_grid (lines : list (list ascii)) : gmap (Z * Z) ascii :=
  foldl (λ g yl,
           foldl (λ g' xc, <[(Z.of_nat yl.1, Z.of_nat xc.1) := xc.2]> g')
                 g (imap pair yl.2))
        ∅ (imap pair lines).

Definition find_start (lines : list (list ascii)) : option (Z * Z) :=
  foldl (λ start_pos yl,
           foldl (λ sp xc,
                    if bool_decide (xc.2 = "S"%char)
                    then Some (Z.of_nat yl.1, Z.of_nat xc.1) else sp)
                 start_pos (imap pair yl.2))
        None (imap pair lines).

(** [solve_2]; [None] stands for an unbound [start_pos] or exhausted fuel. *)
Definition solve_2 (fuel : nat) (lines : list (list ascii)) : option Z :=
  let grid_len := (Z.of_nat (length lines) - 1)%Z in
  let row_len := Z.of_nat (length (default [] (last lines))) in
  start_pos ← find_start lines;
  traverse (build_grid lines) grid_len row_len fuel start_pos None.

(** The grid of the end-to-end example: one splitter below the start. *)
Definition example_lines : list (list ascii) :=
  list_ascii_of_string <$> ["..S.."; "..^.."; "....."]%string.

End Day7.

(** ** Day 8: [src/day8/main.py] *)

Module Day8.

Definition point : Type := Z * Z * Z.

(** The [iter] argument of [p1]: an integer or [math.inf]. *)
Inductive bound := Finite (n : nat) | Infinity.

Definition reached (i : nat) (iter : bound) : bool :=
  match iter with
  | Finite n => n <=? i
  | Infinity => false
  end.

(** The relabelling loop [for node in connections: ...]. *)
Definition relabel (connections : gmap point nat) (old_group new_group : nat)
    : gmap point nat :=
  (λ g, if bool_decide (g = old_group) then new_group else g) <$> connections.

(** The test guarding [last_connection = (a, b)]; [total_coords] is [None]
    or an integer, and both [None] and [0] are false in a condition. *)
Definition all_in_one_group (total_coords : option nat)
    (connections : gmap point nat) : bool :=
  match total_coords with
  | None => false
  | Some t =>
      negb (t =? 0)
      && (size connections =? t)
      && (size (map_img connections : gset nat) =? 1)
  end.

(** The [for i, ((a, b), _) in enumerate(distances)] loop of [p1].  The
    result is the final [connections] together with [last_connection]. *)
Fixpoint p1_loop {D} (distances : list (point * point * D)) (i : nat)
    (iter : bound) (total_coords : option nat)
    (connections : gmap point nat) (group_id : nat)
    : gmap point nat * option (point * point) :=
  match distances with
  | [] => (connections, None)
  | (a, b, _) :: rest =>
      if reached i iter then (connections, None)
      else
        match connections !! a, connections !! b with
        | Some ga, Some gb =>
            (* both already connected: merge if needed, then [continue] *)
            let connections' :=
              if bool_decide (ga ≠ gb) then relabel connections gb ga
              else connections in
            p1_loop rest (S i) iter total_coords connections' group_id
        | o_a, o_b =>
            let '(connections', group_id') :=
              match o_a, o_b with
              | None, None =>
                  (<[b := group_id]> (<[a := group_id]> connections),
                   group_id + 1)
              | Some ga, _ => (<[b := ga]> connections, group_id)
              | None, Some gb => (<[a := gb]> connections, group_id)
              end in
            if all_in_one_group total_coords connections'
            then (connections', Some (a, b))
            else p1_loop rest (S i) iter total_coords connections' group_id'
        end
  end.

(** [groups[gid] = groups.get(gid, 0) + 1] for every value. *)
Definition group_sizes (connections : gmap point nat) : gmap nat nat :=
  map_fold (λ _ gid groups, <[gid := default 0 (groups !! gid) + 1]> groups)
           ∅ connections.

(** The order of [sorted(..., reverse=True)]. *)
Definition descending (x y : nat) : Prop := y ≤ x.

Global Instance descending_dec : RelDecision descending.
Proof. intros x y. unfold descending. apply _. Defined.

(** [math.prod(sorted(list(groups.values()), reverse=True)[:3])]. *)
Definition top3_product (groups : gmap nat nat) : nat :=
  foldr Nat.mul 1
        (take 3 (merge_sort descending (snd <$> map_to_list groups))).

Definition p1 {D} (distances : list (point * point * D))
    (iter : bound) (total_coords : option nat) : nat * option (point * point) :=
  let '(connections, last_connection) :=
    p1_loop distances 0 iter total_coords ∅ 1 in
  (top3_product (group_sizes connections), last_connection).

(** The end of [main], from the sorted distance list on: the product that
    is printed and the Part 2 number; the latter is [None] when
    [last_connection[0][0]] raises because [last_connection] is [None]. *)
Definition main {D} (sorted_distances : list (point * point * D))
    (coords : list point) : nat * option Z :=
  let '(result, last_connection) :=
    p1 sorted_distances Infinity (Some (length coords)) in
  (result,
   match last_connection with
   | Some (a, b) => Some (a.1.1 * b.1.1)%Z
   | None => None
   end).

(** Four points on a line, two close pairs far apart; their pairwise
    distances are the whole numbers 1, 1, 9, 10, 10 and 11. *)
Definition failing_coords : list point :=
  [(0, 0, 0); (1, 0, 0); (10, 0, 0); (11, 0, 0)]%Z.

(** The orders in which a sort by distance can leave the equal distances. *)
Definition failing_orders : list (list (point * point * Z)) :=
  let ab := ((0, 0, 0), (1, 0, 0), 1)%Z in
  let cd := ((10, 0, 0), (11, 0, 0), 1)%Z in
  let bc := ((1, 0, 0), (10, 0, 0), 9)%Z in
  let ac := ((0, 0, 0), (10, 0, 0), 10)%Z in
  let bd := ((1, 0, 0), (11, 0, 0), 10)%Z in
  let ad := ((0, 0, 0), (11, 0, 0), 11)%Z in
  [[ab; cd; bc; ac; bd; ad]; [cd; ab; bc; ac; bd; ad];
   [ab; cd; bc; bd; ac; ad]; [cd; ab; bc; bd; ac; ad]].

(** An isosceles triangle, with squared distances 2, 2 and 4: the two
    orders a sort by distance may leave the equal pair in. *)
Definition tie_first : list (point * point * Z) :=
  [((0, 0, 0), (1, 1, 0), 2); ((2, 0, 0), (1, 1, 0), 2);
   ((0, 0, 0), (2, 0, 0), 4)]%Z.

Definition tie_second : list (point * point * Z) :=
  [((2, 0, 0), (1, 1, 0), 2); ((0, 0, 0), (1, 1, 0), 2);
   ((0, 0, 0), (2, 0, 0), 4)]%Z.

(** Three points on a line: the last edge attaches a new point. *)
Definition chain_distances : list (point * point * Z) :=
  [((0, 0, 0), (1, 0, 0), 1); ((1, 0, 0), (3, 0, 0), 2);
   ((0, 0, 0), (3, 0, 0), 3)]%Z.

End Day8.

(** ** Day 8: the grouping as the specification words it *)

Module Day8Spec.
Import Day8.

(** One incremental union: the groups after the edge [(a, b)] is added. *)
Definition connect (st : gmap point nat * nat) (e : point * point)
    : gmap point nat * nat :=
  let '(c, gid) := st in
  let '(a, b) := e in
  match c !! a, c !! b with
  | Some ga, Some gb => (relabel c gb ga, gid)
  | Some ga, None => (<[b := ga]> c, gid)
  | None, Some gb => (<[a := gb]> c, gid)
  | None, None => (<[b := gid]> (<[a := gid]> c), gid + 1)
  end.

Definition groups_after (edges : list (point * point)) : gmap point nat :=
  (foldl connect (∅, 1) edges).1.

(** Every one of the [total] points belongs to a single group. *)
Definition single_group (total : nat) (c : gmap point nat) : Prop :=
  size c = total ∧ size (map_img c : gset nat) = 1.

Global Instance single_group_dec total c : Decision (single_group total c).
Proof. unfold single_group. apply _. Defined.

(** Process all edges and check at each index whether the group count has
    become 1: the edge at the first such index. *)
Definition first_unifying_edge (total : nat) (edges : list (point * point))
    : option (point * point) :=
  i ← List.find (λ i, bool_decide (single_group total (groups_after (take (S i) edges))))
                (seq 0 (length edges));
  edges !! i.

End Day8Spec.

(** ** Day 10: [src/day10/main.py], the light-toggle search *)

Module Day10.

(** List indexing with Python's rule for negative indices; [None] is an
    [IndexError]. *)
Definition py_index (len : nat) (idx : Z) : option nat :=
  if bool_decide (0 ≤ idx < Z.of_nat len)%Z then Some (Z.to_nat idx)
  else if bool_decide (- Z.of_nat len ≤ idx < 0)%Z
       then Some (Z.to_nat (Z.of_nat len + idx))
       else None.

(** The [for idx in button] loop of [press_button] on the copied list. *)
Fixpoint press_loop (next_light : list ascii) (button : list Z)
    : option (list ascii) :=
  match button with
  | [] => Some next_light
  | idx :: rest =>
      i ← py_index (length next_light) idx;
      c ← next_light !! i;
      press_loop
        (<[i := if bool_decide (c = "#"%char) then "."%char else "#"%char]>
           next_light)
        rest
  end.

Definition press_button (curr_light : list ascii) (button : list Z)
    : option (list ascii) :=
  press_loop curr_light button.

(** Queue entries [(curr_light, b, presses)] and the keys of [visited],
    [(tuple(curr_light), presses, tuple(b))]. *)
Definition node : Type := list ascii * list Z * nat.
Definition key : Type := list ascii * nat * list Z.

Inductive expansion :=
| Hit (presses : nat)         (* target produced: append, clear, break *)
| Enqueued (queue : list node)
| Raised.                     (* IndexError in [press_button] *)

(** The [for b in buttons] loop inside the [while]. *)
Fixpoint expand (light curr_light : list ascii) (presses : nat)
    (buttons : list (list Z)) (queue : list node) : expansion :=
  match buttons with
  | [] => Enqueued queue
  | b :: rest =>
      match press_button curr_light b with
      | None => Raised
      | Some next_light =>
          if bool_decide (next_light = light) then Hit (presses + 1)
          else expand light curr_light presses rest
                      (queue ++ [(next_light, b, presses + 1)])
      end
  end.

Inductive outcome :=
| Found (presses : nat)   (* a value was appended to [min_presses] *)
| Drained                 (* the queue became empty, nothing appended *)
| IndexError
| OutOfFuel.

(** The [while queue] loop. *)
Fixpoint search (fuel : nat) (light : list ascii) (buttons : list (list Z))
    (queue : list node) (visited : gset key) : outcome :=
  match fuel with
  | 0 => OutOfFuel
  | S fuel' =>
      match queue with
      | [] => Drained
      | (curr_light, b, presses) :: queue' =>
          if bool_decide ((curr_light, presses, b) ∈ visited) then
            search fuel' light buttons queue' visited
          else
            let visited' := visited ∪ {[(curr_light, presses, b)]} in
            match expand light curr_light presses buttons queue' with
            | Hit n => Found n
            | Raised => IndexError
            | Enqueued queue'' => search fuel' light buttons queue'' visited'
            end
      end
  end.

(** One iteration of [for light, buttons, _ in steps]. *)
Definition p1_step (fuel : nat) (light : list ascii) (buttons : list (list Z))
    : outcome :=
  let queue := (λ b, (replicate (length light) "."%char, b, 0)) <$> buttons in
  search fuel light buttons queue ∅.

(** [p1]: the sum of the appended values; [None] when a step raises or
    does not finish within [fuel]. *)
Fixpoint p1 (fuel : nat) (steps : list (list ascii * list (list Z)))
    : option nat :=
  match steps with
  | [] => Some 0
  | (light, buttons) :: rest =>
      match p1_step fuel light buttons with
      | Found n => (λ s, n + s) <$> p1 fuel rest
      | Drained => p1 fuel rest
      | IndexError | OutOfFuel => None
      end
  end.

(** The first machine of the puzzle text,
    [[.##.] (3) (1,3) (2) (2,3) (0,2) (0,1) {3,5,4,7}]. *)
Definition example_light : list ascii := ["."; "#"; "#"; "."]%char.

Definition example_buttons : list (list Z) :=
  [[3]; [1; 3]; [2]; [2; 3]; [0; 2]; [0; 1]]%Z.

End Day10.

(** ** Day 10: shortest press sequences *)

Module Day10Spec.
Import Day10.

(** Pressing the buttons of [bs] one after the other. *)
Fixpoint press_all (l : list ascii) (bs : list (list Z)) : option (list ascii) :=
  match bs with
  | [] => Some l
  | b :: bs' => l' ← press_button l b; press_all l' bs'
  end.

Definition all_off (light : list ascii) : list ascii :=
  replicate (length light) "."%char.

(** [bs] is a sequence of available buttons turning all-off into [light]. *)
Definition reaches (light : list ascii) (buttons : list (list Z))
    (bs : list (list Z)) : Prop :=
  Forall (λ b, b ∈ buttons) bs ∧ press_all (all_off light) bs = Some light.

(** [k] is the minimum number of presses for [light]. *)
Definition min_presses (light : list ascii) (buttons : list (list Z))
    (k : nat) : Prop :=
  (∃ bs, reaches light buttons bs ∧ length bs = k)
  ∧ ∀ bs, reaches light buttons bs → k ≤ length bs.

(** Every index of every button is a valid index into the light list. *)
Definition buttons_in_range (light : list ascii) (buttons : list (list Z))
    : Prop :=
  Forall (Forall (λ idx, is_Some (py_index (length light) idx))) buttons.

(** [m] further presses of available buttons turn [l] into [light]. *)
Definition completes (light : list ascii) (buttons : list (list Z))
    (l : list ascii) (m : nat) : Prop :=
  ∃ bs, Forall (λ b, b ∈ buttons) bs ∧ length bs = m
        ∧ press_all l bs = Some light.

(** [k] is the least positive number of presses that produces [light]. *)
Definition min_positive (light : list ascii) (buttons : list (list Z))
    (k : nat) : Prop :=
  1 ≤ k
  ∧ completes light buttons (all_off light) k
  ∧ ∀ m, 1 ≤ m → completes light buttons (all_off light) m → k ≤ m.

(** The entries the [for] loop appends for one dequeued node. *)
Definition children (curr_light : list ascii) (presses : nat)
    (buttons : list (list Z)) : list node :=
  omap (λ b, l ← press_button curr_light b; Some (l, b, presses + 1)) buttons.

(** The queue of the search: every entry records a pattern produced by
    exactly its number of presses, the press counts never decrease along the
    queue and exceed the head's by at most one, and no visited key has more
    presses than the head. *)
Record queue_inv (light : list ascii) (buttons : list (list Z))
    (queue : list node) (visited : gset key) : Prop := {
  inv_nodes :
    Forall (λ x : node,
              length x.1.1 = length light
              ∧ ∃ bs, Forall (λ b, b ∈ buttons) bs ∧ length bs = x.2
                      ∧ press_all (all_off light) bs = Some x.1.1)
           queue;
  inv_sorted : StronglySorted (λ x y : node, x.2 ≤ y.2) queue;
  inv_head :
    ∀ h rest, queue = h :: rest →
      Forall (λ x : node, x.2 ≤ S h.2) rest
      ∧ ∀ kv : key, kv ∈ visited → kv.1.2 ≤ h.2
}.

(** An unvisited entry at position [i], with [j] presses, that lies on a
    shortest way to the target. *)
Definition on_shortest_way (light : list ascii) (buttons : list (list Z))
    (k : nat) (queue : list node) (visited : gset key) (i j : nat) : Prop :=
  ∃ l b, queue !! i = Some (l, b, j) ∧ j < k ∧ ((l, j, b) ∉ visited)
         ∧ completes light buttons l (k - j).

End Day10Spec.

(** ** What each script prints *)

Module Output.
Import Py.

(** Values that reach a [print]: integers and [None]. *)
Inductive value := VInt (n : Z) | VNone.

Definition show (v : value) : list ascii :=
  match v with
  | VInt n => str n
  | VNone => list_ascii_of_string "None"
  end.

(** The runnable scripts of the repository. *)
Inductive script :=
| Day1Main | Day1Agent | Day02Main | Day2Agent | Day3Main | Day03Main
| Day4Main | Day05Main | Day6Main | Day7Main | Day8Main | Day09Main
| Day10Main.

(** The values a successful run has computed when it prints: the two
    answers, and for days 3 and 03 the result of every input line. *)
Record run := {
  part1 : value;
  part2 : value;
  per_line : list (list ascii * value)
}.

(** [print(f"<prefix>{v}")]. *)
Definition fprint (prefix : string) (v : value) : list ascii :=
  list_ascii_of_string prefix ++ show v.

(** [print("<label>", v)]: the arguments separated by one space. *)
Definition print_args (label : string) (v : value) : list ascii :=
  list_ascii_of_string label ++ " "%char :: show v.

Definition print_line (lr : list ascii * value) : list ascii :=
  list_ascii_of_string "Line: " ++ lr.1
    ++ list_ascii_of_string " -> " ++ show lr.2.

(** Standard output of a successful run, line by line. *)
Definition stdout (s : script) (r : run) : list (list ascii) :=
  match s with
  | Day1Main =>
      [fprint "Number of times landed on 0: " (part1 r);
       fprint "Number of times clicked to 0: " (part2 r)]
  | Day1Agent =>
      [fprint "Part 1 (Standard Method): " (part1 r);
       fprint "Part 2 (Click Method 0x434C49434B): " (part2 r)]
  | Day02Main =>
      [fprint "Total sum of invalid IDs: " (part1 r);
       fprint "Total sum of invalid IDs - Part 2: " (part2 r)]
  | Day3Main | Day03Main =>
      (print_line <$> per_line r)
        ++ [fprint "Part 1: " (part1 r); fprint "Part 2: " (part2 r)]
  | Day2Agent | Day4Main | Day05Main | Day6Main | Day7Main =>
      [fprint "Part 1: " (part1 r); fprint "Part 2: " (part2 r)]
  | Day8Main | Day09Main | Day10Main =>
      [print_args "Part 1:" (part1 r); print_args "Part 2:" (part2 r)]
  end.

(** Exactly two lines, [Part 1: <value>] and [Part 2: <value>]. *)
Definition two_part_lines (out : list (list ascii)) : Prop :=
  ∃ v1 v2 : list ascii,
    out = [list_ascii_of_string "Part 1: " ++ v1;
           list_ascii_of_string "Part 2: " ++ v2].

(** The scripts whose only output is the two labelled lines. *)
Definition labelled (s : script) : bool :=
  match s with
  | Day2Agent | Day4Main | Day05Main | Day6Main | Day7Main
  | Day8Main | Day09Main | Day10Main => true
  | _ => false
  end.

End Output.

(** ** Input grids *)

Module InputGrid.

(** The character at row [y], column [x] of the input lines. *)
Definition char_at (input_lines : list (list ascii)) (y x : Z) : option ascii :=
  if bool_decide (0 ≤ y ∧ 0 ≤ x)%Z
  then input_lines !! Z.to_nat y ≫= λ line, line !! Z.to_nat x
  else None.

End InputGrid.

(** ** Day 4: sets of rolls that a round leaves alone *)

Module Day4Stable.
Import Day4Spec.

(** Every roll of [X] has at least four neighbours inside [X]. *)
Definition stable (X : gset (Z * Z)) : Prop :=
  ∀ k, k ∈ X → 4 ≤ size (filter (adjacent k) X).

End Day4Stable.

(** ** Day 7: [src/day7/main.py], part A *)

Module Day7PartA.
Import Day7.

Section Traverse.
Variable grid : gmap (Z * Z) ascii.
Variables grid_len row_len : Z.

(** [traverse] of [solve_1].  The closure variables [cache] and
    [totals["split_count"]] are threaded through the calls; [fuel] bounds
    the depth of the recursion, which moves one row down per call. *)
Fixpoint traverse (fuel : nat) (pos : Z * Z) (cache : gset (Z * Z))
    (split_count : nat) : option (gset (Z * Z) * nat) :=
  match fuel with
  | 0 => None
  | S fuel' =>
      if bool_decide (pos ∈ cache) then Some (cache, split_count)
      else
        let cache := cache ∪ {[pos]} in
        let y := pos.1 in
        let x := pos.2 in
        if bool_decide (y + (dirs "d").1 > grid_len)%Z
        then Some (cache, split_count)
        else
          let ny := (y + (dirs "d").1)%Z in
          let nx := (x + (dirs "d").2)%Z in
          let next := grid !! (ny, nx) in
          if bool_decide (next = Some "^"%char) then
            let split_count := split_count + 1 in
            st ← (if bool_decide (0 ≤ nx + (dirs "l").2 ≤ row_len)%Z
                  then traverse fuel' (ny, nx + (dirs "l").2)%Z cache split_count
                  else Some (cache, split_count));
            if bool_decide (0 ≤ nx + (dirs "r").2 ≤ row_len)%Z
            then traverse fuel' (ny, nx + (dirs "r").2)%Z st.1 st.2
            else Some st
          else if bool_decide (next = Some "."%char) then
            traverse fuel' (ny, nx) cache split_count
          else Some (cache, split_count)
  end.

(** The beam moves from [pos] to [pos']: straight down over ["."], or to
    either side of a splitter below, where the column test allows it. *)
Definition beam_step (pos pos' : Z * Z) : Prop :=
  (pos.1 + 1 ≤ grid_len)%Z
  ∧ ((grid !! ((pos.1 + 1)%Z, pos.2) = Some "."%char
      ∧ pos' = ((pos.1 + 1)%Z, pos.2))
     ∨ (grid !! ((pos.1 + 1)%Z, pos.2) = Some "^"%char
        ∧ ((in_bounds row_len (pos.2 - 1) = true
            ∧ pos' = ((pos.1 + 1)%Z, (pos.2 - 1)%Z))
           ∨ (in_bounds row_len (pos.2 + 1) = true
              ∧ pos' = ((pos.1 + 1)%Z, (pos.2 + 1)%Z))))).

(** [pos] sits directly above a splitter. *)
Definition above_splitter (pos : Z * Z) : Prop :=
  (pos.1 + 1 ≤ grid_len)%Z
  ∧ grid !! ((pos.1 + 1)%Z, pos.2) = Some "^"%char.

Global Instance above_splitter_dec pos : Decision (above_splitter pos).
Proof. unfold above_splitter. apply _. Defined.

(** A way of the particle of part B from [pos] to the last row, as the list
    of the positions it moves to. *)
Inductive run : Z * Z → list (Z * Z) → Prop :=
| run_exit pos :
    (pos.1 + 1 > grid_len)%Z → run pos []
| run_step pos pos' p :
    beam_step pos pos' → run pos' p → run pos (pos' :: p).

End Traverse.

(** [solve_1] on the stripped lines of the file; [None] stands for an
    unbound [start_pos] or exhausted fuel. *)
Definition solve_1 (fuel : nat) (lines : list (list ascii)) : option nat :=
  let grid_len := (Z.of_nat (length lines) - 1)%Z in
  let row_len := Z.of_nat (length (default [] (last lines))) in
  start_pos ← find_start lines;
  snd <$> traverse (build_grid lines) grid_len row_len fuel start_pos ∅ 0.

End Day7PartA.

(** ** Day 8: the graph of the edges processed so far *)

Module Day8Graph.
Import Day8.

(** Two points are linked when a chain of the given edges, taken in either
    direction, leads from one to the other. *)
Definition linked (edges : list (point * point)) : relation point :=
  rtsc (λ a b, (a, b) ∈ edges).

(** Two points are told apart by the table [connections] unless they are
    the same point or carry the same group id. *)
Definition same_group (connections : gmap point nat) (a b : point) : Prop :=
  a = b ∨ ∃ g, connections !! a = Some g ∧ connections !! b = Some g.

(** The number of edges the loop of [p1] can process at most. *)
Definition edge_budget (iter : bound) (len : nat) : nat :=
  match iter with
  | Finite n => n `min` len
  | Infinity => len
  end.

End Day8Graph.

(** ** Day 10: what a press does to one light *)

Module Day10Cells.
Import Day10.

(** The toggle of [press_button]: ["#"] goes off, anything else goes on. *)
Definition flip (c : ascii) : ascii :=
  if bool_decide (c = "#"%char) then "."%char else "#"%char.

(** How many entries of [button] address position [j] of a list of
    length [len]. *)
Definition hits (len : nat) (button : list Z) (j : nat) : nat :=
  length (filter (λ idx, py_index len idx = Some j) button).

(** A light list as [read_input] and the search produce them. *)
Definition on_off (l : list ascii) : Prop :=
  Forall (λ c, c = "."%char ∨ c = "#"%char) l.

End Day10Cells.

(** ** Day 10: [voltage_too_high] *)

Module Day10Voltage.

(** [for cv, tv in zip(curr_voltage, target_voltage)]: the loop ends with
    the shorter list. *)
Fixpoint voltage_too_high (curr_voltage target_voltage : list Z) : bool :=
  match curr_voltage, target_voltage with
  | cv :: curr_voltage', tv :: target_voltage' =>
      if (tv <? cv)%Z then true
      else voltage_too_high curr_voltage' target_voltage'
  | _, _ => false
  end.

End Day10Voltage.

(** * Properties *)

(** ** Decimal numerals *)

Section StrFacts.
Import Py.

Lemma to_uint_normal (p : positive) :
  Decimal.nzhead (Pos.to_uint p) = Pos.to_uint p.
Proof.
  assert (Hn : Decimal.unorm (Pos.to_uint p) = Pos.to_uint p).
  { rewrite <- Unsigned.to_of, Unsigned.of_to. reflexivity. }
  rewrite <- Hn at 2. symmetry. apply unorm_nzhead.
  intros Hnil. apply unorm_0 in Hnil. rewrite Hn in Hnil.
  exact (Unsigned.to_uint_nonzero p Hnil).
Qed.

Lemma str_pos_head (n : Z) :
  (0 < n)%Z → ∃ c s, str n = c :: s ∧ c ≠ "0"%char.
Proof.
  intros Hn. destruct n as [|p|p]; try lia. clear Hn.
  unfold str. simpl.
  pose proof (to_uint_normal p) as Hnz.
  pose proof (Unsigned.to_uint_nonnil p) as Hnil.
  destruct (Pos.to_uint p) as [|u|u|u|u|u|u|u|u|u|u] eqn:E;
    try (simpl; eexists _, _; split; [reflexivity | discriminate]).
  - congruence.
  - exfalso. exact (nzhead_nonzero _ _ Hnz).
Qed.

Lemma uint_digits (u : Decimal.uint) :
  Forall is_digit (list_ascii_of_string (NilEmpty.string_of_uint u)).
Proof.
  induction u; simpl; constructor; auto; unfold is_digit; set_solver.
Qed.

Lemma str_pos_digits (n : Z) : (0 < n)%Z → Forall is_digit (str n).
Proof.
  intros Hn. destruct n as [|p|p]; try lia. unfold str. simpl.
  pose proof (uint_digits (Pos.to_uint p)) as H.
  destruct (Pos.to_uint p); simpl in *; auto.
  constructor; auto. unfold is_digit. set_solver.
Qed.

Lemma lstrip_id (c : ascii) (s : list ascii) :
  head s ≠ Some c → lstrip c s = s.
Proof.
  destruct s as [|x s]; simpl; auto. intros H.
  rewrite bool_decide_false; congruence.
Qed.

Lemma lstrip_str (n : Z) : (0 < n)%Z → lstrip "0" (str n) = str n.
Proof.
  intros Hn. destruct (str_pos_head n Hn) as (c & s & -> & Hc).
  apply lstrip_id. simpl. congruence.
Qed.

Lemma str_pos_length (n : Z) : (0 < n)%Z → 0 < length (str n).
Proof.
  intros Hn. destruct (str_pos_head n Hn) as (c & s & -> & _). simpl. lia.
Qed.

End StrFacts.

(** ** Day 2: digit patterns *)

Section Day2Facts.
Import Py Day2Spec.

Example str_1010 : str 1010 = ["1"; "0"; "1"; "0"]%char.
Proof. reflexivity. Qed.

Example str_negative : str (-12) = ["-"; "1"; "2"]%char.
Proof. reflexivity. Qed.

(** The range example of the specification, on both scripts. *)
Example invalid_finder_ranges :
  Day02.invalid_finder 11 22 = [11; 22]%Z
  ∧ Day02.invalid_finder 95 115 = [99]%Z
  ∧ Day02.invalid_finder 998 1012 = [1010]%Z
  ∧ Day02.main [(11, 22); (95, 115); (998, 1012)]%Z = (1142, 2252)%Z.
Proof. repeat split; vm_compute; reflexivity. Qed.

Example agent_ranges :
  Day2Agent.calculate_invalid_sum [(11, 22); (95, 115); (998, 1012)]%Z
    Day2Agent.is_invalid_part1 = 1142%Z
  ∧ Day2Agent.calculate_invalid_sum [(11, 22); (95, 115); (998, 1012)]%Z
      Day2Agent.is_invalid_part2 = 2252%Z.
Proof. split; vm_compute; reflexivity. Qed.

Example pattern_examples :
  Day02.is_pattern 123123123 = true
  ∧ Day02.is_pattern 111 = true
  ∧ Day02.is_pattern 101 = false
  ∧ Day2Agent.is_invalid_part2 123123123 = true
  ∧ Day2Agent.is_invalid_part2 111 = true
  ∧ Day2Agent.is_invalid_part2 101 = false.
Proof. repeat split; vm_compute; reflexivity. Qed.

(** Zero is where the two scripts part: stripping the zeros leaves the
    empty string, whose halves are equal. *)
Example zero_differs :
  Day02.is_double 0 = true ∧ Day2Agent.is_invalid_part1 0 = false.
Proof. split; reflexivity. Qed.

Lemma str_mul_S {A} (s : list A) (k : nat) :
  str_mul s (S k) = s ++ str_mul s k.
Proof. reflexivity. Qed.

Lemma length_str_mul {A} (s : list A) (k : nat) :
  length (str_mul s k) = k * length s.
Proof.
  induction k as [|k IH]; [reflexivity|].
  rewrite str_mul_S, length_app, IH. lia.
Qed.

(** Comparing the two halves cut at [L/2] is the exact-double test. *)
Lemma halves_exact_double (s : list ascii) :
  take (length s / 2) s = drop (length s / 2) s ↔ exact_double s.
Proof.
  unfold exact_double. cbv zeta. split.
  - intros H.
    assert (Hlen : length s / 2 = length s - length s / 2).
    { apply (f_equal length) in H.
      rewrite length_take, length_drop in H.
      pose proof (Nat.Div0.div_le_upper_bound (length s) 2 (length s)).
      lia. }
    split; [|by rewrite <- Hlen].
    exists (length s / 2). lia.
  - intros [[k Hk] H].
    assert (Hlen : length s - length s / 2 = length s / 2).
    { rewrite Hk, Nat.mul_comm, Nat.div_mul by lia. lia. }
    by rewrite Hlen in H.
Qed.

Lemma odd_not_exact_double (s : list ascii) :
  Nat.Odd (length s) → ¬ exact_double s.
Proof.
  intros Hodd [Heven _]. exact (Nat.Even_Odd_False _ Heven Hodd).
Qed.

Lemma is_double_spec (n : Z) :
  (0 < n)%Z → Day02.is_double n = true ↔ exact_double (str n).
Proof.
  intros Hn. unfold Day02.is_double. cbv zeta.
  rewrite (lstrip_str n Hn), bool_decide_eq_true.
  apply halves_exact_double.
Qed.

Lemma is_invalid_part1_spec (n : Z) :
  (0 < n)%Z → Day2Agent.is_invalid_part1 n = true ↔ exact_double (str n).
Proof.
  intros Hn. unfold Day2Agent.is_invalid_part1. cbv zeta.
  pose proof (str_pos_length n Hn) as Hpos.
  destruct (length (str n) <? 2) eqn:Hlt.
  { apply Nat.ltb_lt in Hlt. split; [discriminate|].
    intros [[k Hk] _]. lia. }
  destruct (length (str n) mod 2 =? 0) eqn:Hmod; simpl.
  - rewrite bool_decide_eq_true. apply halves_exact_double.
  - apply Nat.eqb_neq in Hmod. split; [discriminate|].
    intros [[k Hk] _]. rewrite Hk, Nat.mul_comm, Nat.Div0.mod_mul in Hmod.
    congruence.
Qed.

Lemma backref_sound (fuel : nat) (g rest : list ascii) :
  Day02.backref_plus_end fuel g rest = true →
  ∃ k, 1 ≤ k ∧ rest = str_mul g k.
Proof.
  revert rest. induction fuel as [|fuel IH]; intros rest; simpl; [discriminate|].
  case_bool_decide as Htake; [|discriminate].
  intros H. apply orb_true_iff in H as [H|H].
  - destruct (IH _ H) as (k & Hk & Hrest).
    exists (S k). split; [lia|].
    rewrite str_mul_S, <- Hrest, <- Htake at 1.
    by rewrite take_drop.
  - apply bool_decide_eq_true in H.
    exists 1. split; [lia|].
    rewrite <- (take_drop (length g) rest), H, Htake.
    unfold str_mul. simpl. reflexivity.
Qed.

Lemma backref_complete (k fuel : nat) (g : list ascii) :
  1 ≤ k ≤ fuel → Day02.backref_plus_end fuel g (str_mul g k) = true.
Proof.
  revert fuel. induction k as [|k IH]; intros fuel Hk; [lia|].
  destruct fuel as [|fuel]; [lia|]. simpl.
  rewrite str_mul_S, take_app_length, bool_decide_true by done.
  rewrite drop_app_length.
  destruct k as [|k].
  - apply orb_true_iff. right. by apply bool_decide_eq_true.
  - rewrite IH by lia. reflexivity.
Qed.

Lemma fullmatch_repeat_spec (s : list ascii) :
  Forall (λ c, c ≠ "010"%char) s →
  Day02.fullmatch_repeat s = true ↔ general_repetition s.
Proof.
  intros Hchars. unfold Day02.fullmatch_repeat, general_repetition. cbv zeta.
  rewrite existsb_exists. split.
  - intros (d & Hd & H). apply in_seq in Hd.
    apply andb_true_iff in H as [_ H].
    apply backref_sound in H as (k & Hk & Hdrop).
    assert (Hs : s = str_mul (take d s) (S k)).
    { rewrite str_mul_S, <- Hdrop. by rewrite take_drop. }
    assert (HL : length s = S k * d).
    { rewrite Hs at 1. rewrite length_str_mul, length_take.
      rewrite Nat.min_l by lia. reflexivity. }
    exists d. split; [by exists (S k)|]. split; [nia|].
    rewrite HL, Nat.div_mul by lia. exact Hs.
  - intros (d & [q Hq] & Hlt & Hs).
    assert (Hd : 1 ≤ d) by (destruct d; lia).
    rewrite Hq, Nat.div_mul in Hs by lia.
    destruct q as [|q]; [lia|].
    destruct q as [|q]; [lia|].
    exists d. split; [apply in_seq; lia|].
    apply andb_true_iff. split.
    + apply forallb_forall. intros c Hc.
      apply negb_true_iff, bool_decide_eq_false.
      rewrite Forall_forall in Hchars. apply Hchars.
      apply list_elem_of_In in Hc. by apply (subseteq_take d s).
    + assert (Hg : length (take d s) = d) by (rewrite length_take; lia).
      remember (take d s) as g eqn:Eg.
      assert (Hdrop : drop d s = str_mul g (S q)).
      { rewrite Hs, str_mul_S. rewrite <- Hg at 1. by rewrite drop_app_length. }
      rewrite Hdrop. apply backref_complete. nia.
Qed.

(** The backtracking matcher decides [re.fullmatch] of the pattern. *)
Lemma lazy_any_inv (st st' : Re.state) :
  Re.matches (Re.LazyPlus Re.Any) st st' →
  ∃ g, g ≠ [] ∧ Forall (λ c, c ≠ "010"%char) g
       ∧ st.1 = g ++ st'.1 ∧ st'.2 = st.2.
Proof.
  intros H. remember (Re.LazyPlus Re.Any) as r eqn:Hr.
  induction H as [| | |r st st' H _|r st st' st'' H _ _ IH| | | |];
    try discriminate Hr; injection Hr as ->.
  - inversion H as [c s cap Hc| | | | | | | |]; subst.
    exists [c]. split; [done|]. split; [by constructor|]. done.
  - destruct (IH eq_refl) as (g & _ & Hg & Hst & Hcap).
    inversion H as [c s cap Hc| | | | | | | |]; subst.
    cbn [fst snd] in *. exists (c :: g). split; [done|].
    split; [by constructor|]. split; [by rewrite Hst|done].
Qed.

Lemma lazy_any_intro (g rest : list ascii) (cap : option (list ascii)) :
  g ≠ [] → Forall (λ c, c ≠ "010"%char) g →
  Re.matches (Re.LazyPlus Re.Any) (g ++ rest, cap) (rest, cap).
Proof.
  induction g as [|c g IH]; intros Hne Hg; [done|].
  apply Forall_cons in Hg as [Hc Hg].
  destruct g as [|c' g].
  - apply Re.matches_lazy_one. by constructor.
  - eapply Re.matches_lazy_more; [by constructor|]. by apply IH.
Qed.

Lemma plus_backref_inv (st st' : Re.state) :
  Re.matches (Re.Plus Re.Backref) st st' →
  ∃ g k, 1 ≤ k ∧ st.2 = Some g ∧ st'.2 = Some g
         ∧ st.1 = str_mul g k ++ st'.1.
Proof.
  intros H. remember (Re.Plus Re.Backref) as r eqn:Hr.
  induction H as [| | | | |r st st' H _|r st st' st'' H _ _ IH| |];
    try discriminate Hr; injection Hr as ->.
  - inversion H as [| |g s| | | | | |]; subst.
    exists g, 1. cbn [fst snd]. split; [done|]. split; [done|].
    split; [done|]. unfold str_mul. simpl. by rewrite app_nil_r.
  - destruct (IH eq_refl) as (g' & k & Hk & Hcap & Hcap' & Hst).
    inversion H as [| |g s| | | | | |]; subst.
    cbn [fst snd] in *. injection Hcap as <-.
    exists g, (S k). split; [lia|]. split; [done|]. split; [done|].
    by rewrite str_mul_S, <- app_assoc, Hst.
Qed.

Lemma plus_backref_intro (g rest : list ascii) (k : nat) :
  1 ≤ k →
  Re.matches (Re.Plus Re.Backref) (str_mul g k ++ rest, Some g) (rest, Some g).
Proof.
  induction k as [|k IH]; intros Hk; [lia|].
  rewrite str_mul_S, <- app_assoc.
  destruct k as [|k].
  - apply Re.matches_plus_one. unfold str_mul. simpl. constructor.
  - eapply Re.matches_plus_more; [constructor|]. apply IH. lia.
Qed.

Lemma fullmatch_repeat_regex (s : list ascii) :
  Day02.fullmatch_repeat s = true ↔ Re.fullmatch Day02.pattern s.
Proof.
  unfold Day02.fullmatch_repeat, Re.fullmatch, Day02.pattern.
  rewrite existsb_exists. split.
  - intros (d & Hd & H). apply in_seq in Hd.
    apply andb_true_iff in H as [Hchars H].
    apply backref_sound in H as (k & Hk & Hdrop).
    set (g := take d s) in *.
    assert (Hg : g ≠ []).
    { intros Hnil. apply (f_equal length) in Hnil.
      unfold g in Hnil. rewrite length_take in Hnil. simpl in Hnil. lia. }
    exists (Some g). rewrite <- (take_drop d s). fold g.
    eapply Re.matches_seq.
    + eapply Re.matches_group. apply lazy_any_intro; [done|].
      apply Forall_forall. intros c Hc.
      rewrite forallb_forall in Hchars.
      apply list_elem_of_In, Hchars, negb_true_iff, bool_decide_eq_false in Hc.
      exact Hc.
    + eapply Re.matches_seq; [|apply Re.matches_end; by left].
      rewrite Hdrop. rewrite <- (app_nil_r (str_mul g k)).
      by apply plus_backref_intro.
  - intros (cap & H).
    inversion H as [| | | | | | |r1 r2 st st1 st2 Hgroup Htail|]; subst.
    inversion Hgroup as [|r g s1 cap0 cap1 Hlazy| | | | | | |]; subst.
    inversion Htail as [| | | | | | |r1 r2 st st2 st3 Hplus Hend|]; subst.
    inversion Hend as [| | | | | | | |s2 cap2 _]; subst.
    apply lazy_any_inv in Hlazy as (g0 & Hg0 & Hchars & Hst & _).
    cbn [fst snd] in Hst. apply app_inv_tail in Hst. subst g0.
    apply plus_backref_inv in Hplus as (g' & k & Hk & Hcap & _ & Hs1).
    cbn [fst snd] in Hcap, Hs1. injection Hcap as <-.
    rewrite app_nil_r in Hs1. subst s1.
    assert (Hlen : 1 ≤ length g) by (destruct g; [done|simpl; lia]).
    exists (length g). split.
    + apply in_seq. rewrite length_app. lia.
    + rewrite take_app_length, drop_app_length. apply andb_true_iff. split.
      * apply forallb_forall. intros c Hc.
        apply negb_true_iff, bool_decide_eq_false.
        rewrite Forall_forall in Hchars. by apply Hchars, list_elem_of_In.
      * apply backref_complete.
        rewrite length_app, length_str_mul. nia.
Qed.

Lemma part2_loop_spec (s : list ascii) (L : nat) (candidates : list nat) :
  Day2Agent.part2_loop s L candidates = true ↔
  ∃ d, d ∈ candidates ∧ L mod d = 0 ∧ 2 ≤ L / d
       ∧ str_mul (take d s) (L / d) = s.
Proof.
  induction candidates as [|c cs IH]; cbn [Day2Agent.part2_loop].
  { split; [discriminate|]. intros (d & Hd & _). by apply elem_of_nil in Hd. }
  destruct (L mod c =? 0) eqn:Hmod; cbn [negb].
  - apply Nat.eqb_eq in Hmod.
    destruct (2 <=? L / c) eqn:Hrep; cbn [andb].
    + apply Nat.leb_le in Hrep. case_bool_decide as Hmul.
      * split; [|done]. intros _. exists c. split; [left|]; auto.
      * rewrite IH. split.
        -- intros (d & Hd & H). exists d. split; [by right|done].
        -- intros (d & Hd & H). apply elem_of_cons in Hd as [->|Hd].
           ++ destruct H as (_ & _ & H). contradiction.
           ++ by exists d.
    + apply Nat.leb_gt in Hrep. rewrite IH. split.
      * intros (d & Hd & H). exists d. split; [by right|done].
      * intros (d & Hd & H). apply elem_of_cons in Hd as [->|Hd].
        -- lia.
        -- by exists d.
  - apply Nat.eqb_neq in Hmod. rewrite IH. split.
    + intros (d & Hd & H). exists d. split; [by right|done].
    + intros (d & Hd & H). apply elem_of_cons in Hd as [->|Hd].
      * lia.
      * by exists d.
Qed.

Lemma is_pattern_spec (n : Z) :
  (0 < n)%Z → Day02.is_pattern n = true ↔ general_repetition (str n).
Proof.
  intros Hn. unfold Day02.is_pattern. cbv zeta. rewrite (lstrip_str n Hn).
  apply fullmatch_repeat_spec.
  eapply Forall_impl; [apply (str_pos_digits n Hn)|].
  intros c Hc ->. unfold is_digit in Hc.
  repeat (apply elem_of_cons in Hc as [Hc|Hc]; [discriminate|]).
  by apply elem_of_nil in Hc.
Qed.

Lemma is_invalid_part2_spec (n : Z) :
  (0 < n)%Z → Day2Agent.is_invalid_part2 n = true ↔ general_repetition (str n).
Proof.
  intros Hn. unfold Day2Agent.is_invalid_part2, general_repetition. cbv zeta.
  pose proof (str_pos_length n Hn) as Hpos.
  set (s := str n) in *. set (L := length s) in *.
  destruct (L <? 2) eqn:Hlt.
  { apply Nat.ltb_lt in Hlt. split; [discriminate|].
    intros (d & [q Hq] & Hd & _). nia. }
  apply Nat.ltb_ge in Hlt. rewrite part2_loop_spec. split.
  - intros (d & Hd & Hmod & Hrep & Hs).
    apply elem_of_seq in Hd.
    pose proof (Nat.Div0.div_lt_upper_bound L 2 L).
    exists d. split; [|split; [|done]].
    + apply Nat.Lcm0.mod_divide. exact Hmod.
    + assert (L / 2 < L) by (apply Nat.div_lt; lia). lia.
  - intros (d & [q Hq] & Hd & Hs).
    assert (1 ≤ d) by (destruct d; lia).
    assert (2 ≤ q) by nia.
    exists d. split; [|split; [|split; [|done]]].
    + apply elem_of_seq. split; [lia|].
      assert (d ≤ L / 2); [|lia].
      apply Nat.div_le_lower_bound; nia.
    + rewrite Hq. apply Nat.Div0.mod_mul.
    + rewrite Hq, Nat.div_mul by lia. done.
Qed.

Lemma elem_of_range (n start stop : Z) :
  n ∈ range start stop ↔ (start ≤ n < stop)%Z.
Proof.
  unfold range. rewrite list_elem_of_fmap. split.
  - intros (i & -> & Hi). apply elem_of_seq in Hi. lia.
  - intros H. exists (Z.to_nat (n - start)). split; [lia|].
    apply elem_of_seq. lia.
Qed.

(** C3. For every positive integer [n], the exact-double test of
    [invalid_finder] and [is_invalid_part1] both hold exactly when the
    decimal representation of [n] has even length [L] and its first [L/2]
    digits equal its last [L/2] digits; numbers with an odd number of
    digits, and single-digit numbers, never match. *)
Theorem exact_double_iff (n : Z) :
  (0 < n)%Z →
  (Day02.is_double n = true ↔ exact_double (str n))
  ∧ (Day2Agent.is_invalid_part1 n = true ↔ exact_double (str n))
  ∧ (Nat.Odd (length (str n)) →
     Day02.is_double n = false ∧ Day2Agent.is_invalid_part1 n = false)
  ∧ ((n < 10)%Z →
     Day02.is_double n = false ∧ Day2Agent.is_invalid_part1 n = false).
Proof.
  intros Hn.
  pose proof (is_double_spec n Hn) as H1.
  pose proof (is_invalid_part1_spec n Hn) as H2.
  split; [exact H1|]. split; [exact H2|].
  assert (Hodd : Nat.Odd (length (str n)) →
                 Day02.is_double n = false
                 ∧ Day2Agent.is_invalid_part1 n = false).
  { intros Hodd. pose proof (odd_not_exact_double _ Hodd) as Hno.
    split; apply not_true_is_false; intros Ht; apply Hno; tauto. }
  split; [exact Hodd|].
  intros Hlt. apply Hodd.
  assert (Hcases : (n = 1 ∨ n = 2 ∨ n = 3 ∨ n = 4 ∨ n = 5 ∨ n = 6
                    ∨ n = 7 ∨ n = 8 ∨ n = 9)%Z) by lia.
  repeat (destruct Hcases as [->|Hcases]; [exists 0; reflexivity|]).
  subst n. exists 0. reflexivity.
Qed.

Lemma exact_double_iff_witness :
  (Day02.is_double 1010 = true ↔ exact_double (str 1010))
  ∧ (Day2Agent.is_invalid_part1 1010 = true ↔ exact_double (str 1010))
  ∧ (Nat.Odd (length (str 1010)) →
     Day02.is_double 1010 = false ∧ Day2Agent.is_invalid_part1 1010 = false)
  ∧ ((1010 < 10)%Z →
     Day02.is_double 1010 = false ∧ Day2Agent.is_invalid_part1 1010 = false).
Proof. apply (exact_double_iff 1010). lia. Defined.

(** C4. For every positive integer [n], the general-repetition test of
    [pattern_finder] (the regular expression, as the backtracking matcher
    and as the set of matches of the pattern) and of [is_invalid_part2]
    (the divisor loop) both hold exactly when some divisor [d] of
    [len(str(n))], smaller than it, makes [str(n)] equal to its first [d]
    characters repeated [len(str(n))/d] times. *)
Theorem general_repetition_iff (n : Z) :
  (0 < n)%Z →
  (Day02.is_pattern n = true ↔ general_repetition (str n))
  ∧ (Re.fullmatch Day02.pattern (lstrip "0" (str n))
     ↔ general_repetition (str n))
  ∧ (Day2Agent.is_invalid_part2 n = true ↔ general_repetition (str n)).
Proof.
  intros Hn. split; [|split].
  - apply is_pattern_spec, Hn.
  - rewrite <- fullmatch_repeat_regex. apply (is_pattern_spec n Hn).
  - apply is_invalid_part2_spec, Hn.
Qed.

Lemma general_repetition_iff_witness :
  (Day02.is_pattern 123123123 = true ↔ general_repetition (str 123123123))
  ∧ (Re.fullmatch Day02.pattern (lstrip "0" (str 123123123))
     ↔ general_repetition (str 123123123))
  ∧ (Day2Agent.is_invalid_part2 123123123 = true
     ↔ general_repetition (str 123123123)).
Proof. apply (general_repetition_iff 123123123). lia. Defined.

(** C10. For every positive integer [n] the two Day 2 implementations
    agree: [n] is in the output of [invalid_finder] exactly when
    [is_invalid_part1 n] holds and [n] lies in the scanned range, and
    likewise for [pattern_finder] and [is_invalid_part2]; so the scans of
    both scripts list the same positive numbers. *)
Theorem day2_implementations_agree (n start end_ : Z) :
  (0 < n)%Z →
  Day02.is_double n = Day2Agent.is_invalid_part1 n
  ∧ Day02.is_pattern n = Day2Agent.is_invalid_part2 n
  ∧ (n ∈ Day02.invalid_finder start end_
     ↔ (start ≤ n ≤ end_)%Z ∧ Day2Agent.is_invalid_part1 n = true)
  ∧ (n ∈ Day02.pattern_finder start end_
     ↔ (start ≤ n ≤ end_)%Z ∧ Day2Agent.is_invalid_part2 n = true)
  ∧ (n ∈ Day02.invalid_finder start end_
     ↔ n ∈ Day2Agent.find_invalid_ids_in_range start end_
             Day2Agent.is_invalid_part1)
  ∧ (n ∈ Day02.pattern_finder start end_
     ↔ n ∈ Day2Agent.find_invalid_ids_in_range start end_
             Day2Agent.is_invalid_part2).
Proof.
  intros Hn.
  assert (E1 : Day02.is_double n = Day2Agent.is_invalid_part1 n).
  { apply eq_true_iff_eq.
    rewrite (is_double_spec n Hn), (is_invalid_part1_spec n Hn). done. }
  assert (E2 : Day02.is_pattern n = Day2Agent.is_invalid_part2 n).
  { apply eq_true_iff_eq.
    rewrite (is_pattern_spec n Hn), (is_invalid_part2_spec n Hn). done. }
  assert (Hmem : ∀ f, n ∈ List.filter f (range start (end_ + 1))
                      ↔ (start ≤ n ≤ end_)%Z ∧ f n = true).
  { intros f. rewrite list_elem_of_In, filter_In, <- list_elem_of_In.
    rewrite elem_of_range. intuition lia. }
  unfold Day02.invalid_finder, Day02.pattern_finder,
    Day2Agent.find_invalid_ids_in_range.
  rewrite !Hmem, E1, E2. tauto.
Qed.

Lemma day2_implementations_agree_witness :
  Day02.is_double 99 = Day2Agent.is_invalid_part1 99
  ∧ Day02.is_pattern 99 = Day2Agent.is_invalid_part2 99
  ∧ (99%Z ∈ Day02.invalid_finder 95 115
     ↔ (95 ≤ 99 ≤ 115)%Z ∧ Day2Agent.is_invalid_part1 99 = true)
  ∧ (99%Z ∈ Day02.pattern_finder 95 115
     ↔ (95 ≤ 99 ≤ 115)%Z ∧ Day2Agent.is_invalid_part2 99 = true)
  ∧ (99%Z ∈ Day02.invalid_finder 95 115
     ↔ 99%Z ∈ Day2Agent.find_invalid_ids_in_range 95 115
             Day2Agent.is_invalid_part1)
  ∧ (99%Z ∈ Day02.pattern_finder 95 115
     ↔ 99%Z ∈ Day2Agent.find_invalid_ids_in_range 95 115
             Day2Agent.is_invalid_part2).
Proof. apply (day2_implementations_agree 99 95 115). lia. Defined.

End Day2Facts.

(** ** Day 4: the clearing automaton *)

Section Day4Facts.
Import Day4 Day4Spec.
Implicit Types (g : gmap (Z * Z) ascii) (k : Z * Z).

Example main_example : main 10 example_lines = (3, Some 10).
Proof. vm_compute. reflexivity. Qed.

(** The scan with its early exit computes the neighbour count capped at 4. *)
Lemma scan_square_capped g (y x : Z) (offsets : list (Z * Z)) (c : nat) :
  c ≤ 3 →
  scan_square g y x offsets c
  = min 4 (c + length (List.filter
               (λ d : Z * Z, bool_decide (occupied g ((y + d.1)%Z, (x + d.2)%Z)))
               offsets)).
Proof.
  revert c. induction offsets as [|[dy dx] rest IH]; intros c Hc.
  { cbn [scan_square List.filter length]. lia. }
  cbn [scan_square List.filter fst snd]. unfold occupied in *.
  destruct (bool_decide (g !! ((y + dy)%Z, (x + dx)%Z) = Some "@"%char));
    cbn [length].
  - destruct (4 <=? c + 1) eqn:Hbrk.
    + apply Nat.leb_le in Hbrk. lia.
    + apply Nat.leb_gt in Hbrk. rewrite IH by lia. lia.
  - destruct (4 <=? c) eqn:Hbrk.
    + apply Nat.leb_le in Hbrk. lia.
    + rewrite IH by lia. lia.
Qed.

Lemma elem_of_occupied_set g k : k ∈ occupied_set g ↔ occupied g k.
Proof.
  unfold occupied_set, occupied. rewrite elem_of_dom. unfold is_Some.
  setoid_rewrite map_lookup_filter_Some. simpl. split.
  - by intros (v & Hv & ->).
  - intros Hv. by exists "@"%char.
Qed.

Lemma filter_bool_decide {A} (P : A → Prop) `{!∀ x, Decision (P x)}
    (l : list A) :
  List.filter (λ x, bool_decide (P x)) l = filter P l.
Proof.
  induction l as [|x l IH]; [done|]. rewrite filter_cons. cbn [List.filter].
  rewrite IH. case_bool_decide; [by rewrite decide_True|by rewrite decide_False].
Qed.

(** The eight offsets of [square] are exactly the 8-neighbourhood. *)
Lemma square_adjacent k k' :
  adjacent k k' ↔ ∃ d, d ∈ square ∧ k' = ((k.1 + d.1)%Z, (k.2 + d.2)%Z).
Proof.
  destruct k as [y x], k' as [y' x']. unfold adjacent. cbn [fst snd]. split.
  - intros (Hne & Hy & Hx).
    assert (Hd : ∃ dy dx, (y' = y + dy ∧ x' = x + dx
                           ∧ (dy = -1 ∨ dy = 0 ∨ dy = 1)
                           ∧ (dx = -1 ∨ dx = 0 ∨ dx = 1))%Z).
    { exists (y' - y)%Z, (x' - x)%Z. lia. }
    destruct Hd as (dy & dx & -> & -> & Hdy & Hdx).
    exists (dy, dx). split; [|done]. unfold square.
    destruct Hdy as [Hdy|[Hdy|Hdy]], Hdx as [Hdx|[Hdx|Hdx]]; subst dy dx;
      try (exfalso; apply Hne; f_equal; lia);
      repeat first [apply list_elem_of_here | apply list_elem_of_further].
  - intros (d & Hd & [= -> ->]). unfold square in Hd.
    repeat (apply elem_of_cons in Hd as [->|Hd];
            [cbn [fst snd]; split; [intros [= ? ?]; lia|lia]|]).
    by apply elem_of_nil in Hd.
Qed.

Lemma square_count g k :
  length (List.filter
            (λ d : Z * Z, bool_decide (occupied g ((k.1 + d.1)%Z, (k.2 + d.2)%Z)))
            square)
  = neighbours g k.
Proof.
  rewrite (filter_bool_decide (λ d, occupied g ((k.1 + d.1)%Z, (k.2 + d.2)%Z))).
  set (shift := λ d : Z * Z, ((k.1 + d.1)%Z, (k.2 + d.2)%Z)).
  assert (Hinj : Inj (=) (=) shift).
  { intros [dy dx] [dy' dx'] [= ? ?]. f_equal; lia. }
  unfold neighbours.
  rewrite <- (length_fmap shift).
  rewrite <- (size_list_to_set (C := gset (Z * Z))).
  - f_equal. apply set_eq. intros k'.
    rewrite elem_of_list_to_set, list_elem_of_fmap, elem_of_filter,
      elem_of_occupied_set, square_adjacent.
    setoid_rewrite list_elem_of_filter. split.
    + intros (d & -> & Hocc & Hd). split; [|done]. by exists d.
    + intros [(d & Hd & ->) Hocc]. by exists d.
  - apply NoDup_fmap_2; [done|]. apply NoDup_filter.
    apply (bool_decide_unpack (NoDup square)). vm_compute. exact I.
Qed.

Lemma scan_square_lt g k :
  scan_square g k.1 k.2 square 0 < 4 ↔ neighbours g k < 4.
Proof.
  rewrite scan_square_capped by lia. rewrite square_count. lia.
Qed.

(** What [roll_access] holds for each key. *)
Lemma roll_access_lookup g k :
  roll_access g !! k
  = if decide (clearable g k) then Some "."%char else None.
Proof.
  unfold roll_access. rewrite map_lookup_imap.
  destruct (g !! k) as [v|] eqn:Hk; cbn [mbind option_bind].
  - case_bool_decide as Hv.
    + rewrite decide_False; [done|].
      intros [Hocc _]. unfold occupied in Hocc. congruence.
    + subst v.
      destruct (_ <? 4) eqn:Hlt.
      * apply Nat.ltb_lt, scan_square_lt in Hlt.
        rewrite decide_True; [done|]. split; done.
      * apply Nat.ltb_ge in Hlt.
        rewrite decide_False; [done|].
        intros [_ Hn]. apply scan_square_lt in Hn. lia.
  - rewrite decide_False; [done|].
    intros [Hocc _]. unfold occupied in Hocc. congruence.
Qed.

Lemma roll_access_Some g k v :
  roll_access g !! k = Some v ↔ v = "."%char ∧ clearable g k.
Proof.
  rewrite roll_access_lookup. case_decide as Hc.
  - split; [by intros [= <-]|by intros [-> _]].
  - split; [discriminate|by intros [_ ?]].
Qed.

Lemma dom_roll_access g : dom (roll_access g) = cleared g.
Proof.
  apply set_eq. intros k. unfold cleared.
  rewrite elem_of_filter, !elem_of_dom. unfold is_Some.
  setoid_rewrite roll_access_Some. split.
  - intros (v & _ & Hc). split; [done|]. destruct Hc as [Hocc _]. by eexists.
  - intros [Hc _]. by eexists.
Qed.

Lemma size_roll_access g : size (roll_access g) = size (cleared g).
Proof. by rewrite <- size_dom, dom_roll_access. Qed.

(** The grid after one round. *)
Lemma round_lookup g k :
  round g !! k = if decide (clearable g k) then Some "."%char else g !! k.
Proof.
  unfold round. rewrite map_lookup_imap.
  case_decide as Hc.
  - destruct Hc as [Hocc _]. unfold occupied in Hocc. by rewrite Hocc.
  - by destruct (g !! k).
Qed.

(** The dictionary update of [main] performs exactly one round. *)
Lemma update_round g : update g (roll_access g) = round g.
Proof.
  apply map_eq. intros k. rewrite round_lookup.
  unfold update. pose proof (roll_access_lookup g k) as Hr.
  case_decide.
  - by apply lookup_union_Some_l.
  - by rewrite lookup_union_r.
Qed.

Lemma elem_of_cleared g k : k ∈ cleared g ↔ clearable g k.
Proof.
  unfold cleared. rewrite elem_of_filter, elem_of_dom. split; [tauto|].
  intros Hc. split; [done|]. destruct Hc as [Hocc _]. by eexists.
Qed.

Lemma occupied_round g k :
  occupied (round g) k ↔ occupied g k ∧ ¬ clearable g k.
Proof.
  unfold occupied at 1. rewrite round_lookup.
  case_decide as Hc.
  - split; [discriminate|]. tauto.
  - unfold occupied. tauto.
Qed.

Lemma occupied_set_round g :
  occupied_set (round g) = occupied_set g ∖ cleared g.
Proof.
  apply set_eq. intros k.
  by rewrite elem_of_difference, !elem_of_occupied_set, occupied_round,
    elem_of_cleared.
Qed.

Lemma cleared_subseteq g : cleared g ⊆ occupied_set g.
Proof.
  intros k. rewrite elem_of_cleared, elem_of_occupied_set. by intros [Hocc _].
Qed.

Lemma occupied_set_round_subseteq g : occupied_set (round g) ⊆ occupied_set g.
Proof.
  rewrite occupied_set_round. intros k Hk.
  by apply elem_of_difference in Hk as [Hk _].
Qed.

(** The cells cleared in a round leave the occupied set, and nothing else
    does. *)
Lemma size_occupied_round g :
  size (occupied_set g) = size (occupied_set (round g)) + size (cleared g).
Proof.
  rewrite occupied_set_round.
  pose proof (cleared_subseteq g) as Hsub.
  rewrite <- size_union.
  - f_equal. apply set_eq. intros k.
    rewrite elem_of_union, elem_of_difference.
    destruct (decide (k ∈ cleared g)) as [Hk|Hk].
    + split; [by right|]. intros _. by apply Hsub.
    + split; [by left|]. by intros [[Ho _]|Hd].
  - apply elem_of_disjoint. intros k Hk Hd.
    by apply elem_of_difference in Hk as [_ Hk].
Qed.

Lemma size_cleared_0 g : size (cleared g) = 0 ↔ cleared g = ∅.
Proof. rewrite size_empty_iff. by unfold_leibniz. Qed.

Lemma round_fixed g : cleared g = ∅ → round g = g.
Proof.
  intros He. apply map_eq. intros k. rewrite round_lookup.
  rewrite decide_False; [done|]. rewrite <- elem_of_cleared, He.
  apply not_elem_of_empty.
Qed.

Lemma clearing_loop_S (fuel : nat) g (total : nat) :
  clearing_loop (S fuel) g total
  = if size (cleared g) =? 0 then Some (total, g)
    else clearing_loop fuel (round g) (total + size (cleared g)).
Proof. cbn [clearing_loop]. by rewrite size_roll_access, update_round. Qed.

Lemma iter_round_S (i : nat) g :
  Nat.iter (S i) round g = Nat.iter i round (round g).
Proof. induction i as [|i IH]; [done|]. simpl in *. by rewrite IH. Qed.

(** The loop, unrolled: after [r] productive rounds it stops. *)
Lemma clearing_loop_runs (r : nat) :
  ∀ g total,
    cleared (Nat.iter r round g) = ∅ →
    (∀ i, i < r → cleared (Nat.iter i round g) ≠ ∅) →
    ∀ extra,
      clearing_loop (S (r + extra)) g total
      = Some (total + cleared_in r g, Nat.iter r round g).
Proof.
  induction r as [|r IH]; intros g total Hstop Hrun extra.
  - rewrite clearing_loop_S. cbn [Nat.iter nat_rect cleared_in] in *.
    rewrite Hstop, size_empty. cbn [Nat.eqb]. f_equal. f_equal. lia.
  - rewrite clearing_loop_S. cbn [Nat.add].
    destruct (size (cleared g) =? 0) eqn:Hz.
    { apply Nat.eqb_eq, size_cleared_0 in Hz.
      exfalso. apply (Hrun 0); [lia|]. exact Hz. }
    rewrite (IH (round g)).
    + rewrite iter_round_S. cbn [cleared_in]. f_equal. f_equal. lia.
    + by rewrite <- iter_round_S.
    + intros i Hi. rewrite <- iter_round_S. apply Hrun. lia.
Qed.

(** A stopping round exists, within as many rounds as occupied cells. *)
Lemma fixed_point_reached (n : nat) :
  ∀ g, size (occupied_set g) ≤ n →
    ∃ r, r ≤ n
         ∧ cleared (Nat.iter r round g) = ∅
         ∧ ∀ i, i < r → cleared (Nat.iter i round g) ≠ ∅.
Proof.
  induction n as [|n IH]; intros g Hsize.
  - exists 0. split; [lia|]. split; [|intros i Hi; lia]. simpl.
    apply size_cleared_0.
    pose proof (size_occupied_round g). lia.
  - destruct (decide (cleared g = ∅)) as [He|Hne].
    { exists 0. split; [lia|]. split; [done|]. intros i Hi; lia. }
    assert (Hlt : size (occupied_set (round g)) ≤ n).
    { pose proof (size_occupied_round g) as Hs.
      assert (size (cleared g) ≠ 0) by (by rewrite size_cleared_0).
      lia. }
    destruct (IH (round g) Hlt) as (r & Hr & Hstop & Hrun).
    exists (S r). split; [lia|]. split.
    + by rewrite iter_round_S.
    + intros [|i] Hi; [done|]. rewrite iter_round_S. apply Hrun. lia.
Qed.

Lemma cleared_in_size (r : nat) :
  ∀ g, size (occupied_set g)
       = size (occupied_set (Nat.iter r round g)) + cleared_in r g.
Proof.
  induction r as [|r IH]; intros g.
  - simpl. lia.
  - rewrite iter_round_S. cbn [cleared_in].
    rewrite (size_occupied_round g), (IH (round g)). lia.
Qed.

(** C5. In every round exactly the occupied cells with fewer than four
    occupied neighbours are cleared, all judged on the grid as it is when
    the round starts and all replaced together after the scan; Part 1 is
    the number of cells cleared by the first round, and Part 2 is the sum
    over the rounds up to the first round that clears nothing. *)
Theorem clearing_rounds_correct g :
  (∀ k, roll_access g !! k
        = if decide (clearable g k) then Some "."%char else None)
  ∧ update g (roll_access g) = round g
  ∧ (∀ k, round g !! k
          = if decide (clearable g k) then Some "."%char else g !! k)
  ∧ part1 g = size (cleared g)
  ∧ ∃ r, (∀ extra, part2 (S (r + extra)) g = Some (cleared_in r g))
         ∧ cleared (Nat.iter r round g) = ∅
         ∧ (∀ i, i < r → cleared (Nat.iter i round g) ≠ ∅)
         ∧ cleared_in r g
           = size (occupied_set g) - size (occupied_set (Nat.iter r round g)).
Proof.
  split; [apply roll_access_lookup|].
  split; [apply update_round|].
  split; [apply round_lookup|].
  split; [apply size_roll_access|].
  destruct (fixed_point_reached _ g (Nat.le_refl _)) as (r & _ & Hstop & Hrun).
  exists r. split; [|split; [done|split; [done|]]].
  - intros extra. unfold part2.
    by rewrite (clearing_loop_runs r g 0 Hstop Hrun extra).
  - pose proof (cleared_in_size r g). lia.
Qed.

(** C6. The repeated-clearing loop terminates on every grid: the set of
    occupied cells never grows from one round to the next, it shrinks
    strictly in every round that clears something, and so within as many
    rounds as there are occupied cells a round clears nothing and the loop
    returns, on a grid that a further round leaves unchanged. *)
Theorem clearing_terminates g :
  (∃ r total, r ≤ size (occupied_set g)
     ∧ (∀ extra, clearing_loop (S (r + extra)) g 0
                 = Some (total, Nat.iter r round g))
     ∧ roll_access (Nat.iter r round g) = ∅
     ∧ update (Nat.iter r round g) (roll_access (Nat.iter r round g))
       = Nat.iter r round g)
  ∧ (∀ i, occupied_set (Nat.iter (S i) round g)
          ⊆ occupied_set (Nat.iter i round g))
  ∧ (∀ i, roll_access (Nat.iter i round g) ≠ ∅ →
          occupied_set (Nat.iter (S i) round g)
          ⊂ occupied_set (Nat.iter i round g)).
Proof.
  assert (Hempty : ∀ h, roll_access h = ∅ ↔ cleared h = ∅).
  { intros h. rewrite <- dom_roll_access. symmetry. apply dom_empty_iff_L. }
  split; [|split].
  - destruct (fixed_point_reached _ g (Nat.le_refl _)) as (r & Hr & Hstop & Hrun).
    exists r, (0 + cleared_in r g). split; [done|]. split; [|split].
    + intros extra. apply clearing_loop_runs; done.
    + by apply Hempty.
    + rewrite update_round. by apply round_fixed.
  - intros i. change (Nat.iter (S i) round g) with (round (Nat.iter i round g)).
    apply occupied_set_round_subseteq.
  - intros i Hne.
    change (Nat.iter (S i) round g) with (round (Nat.iter i round g)).
    set (h := Nat.iter i round g) in *.
    split; [apply occupied_set_round_subseteq|].
    intros Hsub. apply subseteq_size in Hsub.
    pose proof (size_occupied_round h) as Hs.
    assert (size (cleared h) ≠ 0).
    { rewrite size_cleared_0. by rewrite <- Hempty. }
    lia.
Qed.

End Day4Facts.

(** ** Day 7: counting the branching paths *)

Section Day7Facts.
Import Day7.
Variable grid : gmap (Z * Z) ascii.
Variables grid_len row_len : Z.

Local Abbreviation traverse := (Day7.traverse grid grid_len row_len).
Local Abbreviation paths := (Day7.paths grid grid_len row_len).

Local Abbreviation in_bounds := (Day7.in_bounds row_len).

Lemma traverse_S (fuel : nat) (y x : Z) (prev : option (Z * Z)) :
  traverse (S fuel) (y, x) prev
  = if bool_decide (y + 1 > grid_len)%Z then Some 1%Z
    else if bool_decide (grid !! ((y + 1)%Z, x) = Some "^"%char) then
      l ← (if in_bounds (x - 1) then traverse fuel (y + 1, x - 1)%Z (Some (y, x))
           else Some 0%Z);
      r ← (if in_bounds (x + 1) then traverse fuel (y + 1, x + 1)%Z (Some (y, x))
           else Some 0%Z);
      Some (l + r)%Z
    else if bool_decide (grid !! ((y + 1)%Z, x) = Some "."%char) then
      traverse fuel (y + 1, x)%Z (Some (y, x))
    else Some 0%Z.
Proof.
  cbn [Day7.traverse fst snd].
  change (dirs "d") with (1, 0)%Z.
  change (dirs "l") with (0, -1)%Z.
  change (dirs "r") with (0, 1)%Z.
  cbn [fst snd]. rewrite !Z.add_0_r. unfold Day7.in_bounds.
  change (x + -1)%Z with (x - 1)%Z.
  repeat case_bool_decide; try reflexivity.
  by destruct (traverse fuel _ _).
Qed.

(** [traverse] returns, and neither the depth allowance beyond the rows
    left nor [prev_pos] changes what it returns. *)
Lemma traverse_defined (n : nat) :
  ∀ y x, Z.to_nat (grid_len - y) ≤ n →
    ∃ v, ∀ fuel prev, n < fuel → traverse fuel (y, x) prev = Some v.
Proof.
  induction n as [|n IH]; intros y x Hn.
  - exists 1%Z. intros [|fuel] prev Hf; [lia|].
    rewrite traverse_S, bool_decide_true by lia. done.
  - destruct (decide (y + 1 > grid_len)%Z) as [Hout|Hin].
    { exists 1%Z. intros [|fuel] prev Hf; [lia|].
      rewrite traverse_S, bool_decide_true by lia. done. }
    assert (Hn' : Z.to_nat (grid_len - (y + 1)) ≤ n) by lia.
    destruct (IH (y + 1)%Z (x - 1)%Z Hn') as [vl Hl].
    destruct (IH (y + 1)%Z (x + 1)%Z Hn') as [vr Hr].
    destruct (IH (y + 1)%Z x Hn') as [vs Hs].
    eexists (if bool_decide (grid !! ((y + 1)%Z, x) = Some "^"%char) then
               ((if in_bounds (x - 1) then vl else 0)
                + (if in_bounds (x + 1) then vr else 0))%Z
             else if bool_decide (grid !! ((y + 1)%Z, x) = Some "."%char)
                  then vs else 0%Z).
    intros [|fuel] prev Hf; [lia|].
    rewrite traverse_S, bool_decide_false by lia.
    rewrite Hl, Hr, Hs by lia.
    repeat case_bool_decide; try done;
      destruct (in_bounds (x - 1)), (in_bounds (x + 1)); done.
Qed.

Lemma traverse_paths (fuel : nat) (pos prev : _) :
  Z.to_nat (grid_len - pos.1) < fuel → traverse fuel pos prev = Some (paths pos).
Proof.
  destruct pos as [y x]. cbn [fst]. intros Hf.
  destruct (traverse_defined _ y x (Nat.le_refl _)) as [v Hv].
  unfold Day7.paths. cbn [fst].
  rewrite (Hv (S _) None) by lia. rewrite Hv by lia. done.
Qed.

(** The recursion equation of the count. *)
Lemma paths_unfold (y x : Z) :
  paths (y, x)
  = if bool_decide (y + 1 > grid_len)%Z then 1%Z
    else if bool_decide (grid !! ((y + 1)%Z, x) = Some "^"%char) then
      ((if in_bounds (x - 1) then paths (y + 1, x - 1)%Z else 0)
       + (if in_bounds (x + 1) then paths (y + 1, x + 1)%Z else 0))%Z
    else if bool_decide (grid !! ((y + 1)%Z, x) = Some "."%char) then
      paths (y + 1, x)%Z
    else 0%Z.
Proof.
  set (F := S (Z.to_nat (grid_len - y))).
  assert (H : traverse (S F) (y, x) None = Some (paths (y, x))).
  { apply traverse_paths. cbn [fst]. lia. }
  rewrite traverse_S in H.
  case_bool_decide as Hout; [congruence|].
  rewrite !traverse_paths in H by (cbn [fst]; lia).
  repeat case_bool_decide;
    destruct (in_bounds (x - 1)), (in_bounds (x + 1));
    simpl in H; congruence.
Qed.

(** A straight run of ["."] cells down to the last row. *)
Lemma paths_straight (n : nat) :
  ∀ y x, Z.to_nat (grid_len - y) ≤ n →
    (∀ y', (y < y' ≤ grid_len)%Z → grid !! (y', x) = Some "."%char) →
    paths (y, x) = 1%Z.
Proof.
  induction n as [|n IH]; intros y x Hn Hrun; rewrite paths_unfold.
  - rewrite bool_decide_true by lia. done.
  - case_bool_decide as Hout; [done|].
    rewrite (Hrun (y + 1)%Z) by lia.
    rewrite bool_decide_false by discriminate.
    rewrite bool_decide_true by done.
    apply IH; [lia|]. intros y' Hy'. apply Hrun. lia.
Qed.

(** A straight run down to a splitter in row [s]. *)
Lemma paths_down_to (n : nat) :
  ∀ y s x, Z.to_nat (s - y) ≤ S n → (y < s ≤ grid_len)%Z →
    (∀ y', (y < y' < s)%Z → grid !! (y', x) = Some "."%char) →
    paths (y, x) = paths (s - 1, x)%Z.
Proof.
  induction n as [|n IH]; intros y s x Hn Hys Hrun.
  - by replace (s - 1)%Z with y by lia.
  - destruct (decide (y + 1 = s)%Z) as [<-|Hne].
    { by replace (y + 1 - 1)%Z with y by lia. }
    rewrite paths_unfold.
    rewrite bool_decide_false by lia.
    rewrite (Hrun (y + 1)%Z) by lia.
    rewrite bool_decide_false by discriminate.
    rewrite bool_decide_true by done.
    apply IH; [lia|lia|]. intros y' Hy'. apply Hrun. lia.
Qed.

(** C7, amended.  The Part B count of [solve_2]: [traverse] returns the
    count from every position; below a splitter the count is the sum of the
    counts of the left and the right branch, a branch counting only when
    its column passes the bounds test; a straight run of ["."] cells to the
    last row counts 1; and a run of ["."] cells down to a single splitter
    counts exactly 2, provided both side columns pass the bounds test and
    hold ["."] in every row below the splitter down to the last row. *)
Theorem path_count_laws :
  (∀ pos prev fuel,
     Z.to_nat (grid_len - pos.1) < fuel →
     traverse fuel pos prev = Some (paths pos))
  ∧ (∀ y x,
       (y + 1 ≤ grid_len)%Z →
       grid !! ((y + 1)%Z, x) = Some "^"%char →
       paths (y, x)
       = ((if in_bounds (x - 1) then paths (y + 1, x - 1)%Z else 0)
          + (if in_bounds (x + 1) then paths (y + 1, x + 1)%Z else 0))%Z)
  ∧ (∀ y x,
       (∀ y', (y < y' ≤ grid_len)%Z → grid !! (y', x) = Some "."%char) →
       paths (y, x) = 1%Z)
  ∧ (∀ y s x,
       (y < s ≤ grid_len)%Z →
       (∀ y', (y < y' < s)%Z → grid !! (y', x) = Some "."%char) →
       grid !! (s, x) = Some "^"%char →
       in_bounds (x - 1) = true →
       in_bounds (x + 1) = true →
       (∀ y', (s < y' ≤ grid_len)%Z →
              grid !! (y', (x - 1)%Z) = Some "."%char
              ∧ grid !! (y', (x + 1)%Z) = Some "."%char) →
       paths (y, x) = 2%Z).
Proof.
  assert (Hsplit : ∀ y x,
            (y + 1 ≤ grid_len)%Z →
            grid !! ((y + 1)%Z, x) = Some "^"%char →
            paths (y, x)
            = ((if in_bounds (x - 1) then paths (y + 1, x - 1)%Z else 0)
               + (if in_bounds (x + 1) then paths (y + 1, x + 1)%Z else 0))%Z).
  { intros y x Hy Hcell. rewrite paths_unfold.
    rewrite bool_decide_false by lia. by rewrite bool_decide_true. }
  split; [intros pos prev fuel; apply traverse_paths|].
  split; [exact Hsplit|].
  split.
  { intros y x Hrun. by apply (paths_straight _ y x (Nat.le_refl _)). }
  intros y s x Hys Hrun Hcell Hl Hr Hbelow.
  rewrite (paths_down_to (Z.to_nat (s - y)) y s x) by (done || lia).
  assert (E : (s - 1 + 1 = s)%Z) by lia.
  rewrite (Hsplit (s - 1)%Z x); [|lia|by rewrite E].
  rewrite E, Hl, Hr.
  rewrite !(paths_straight _ _ _ (Nat.le_refl _)); [done| |].
  - intros y' Hy'. apply Hbelow. lia.
  - intros y' Hy'. apply Hbelow. lia.
Qed.

End Day7Facts.

Lemma path_count_laws_witness :
  Day7.paths (Day7.build_grid Day7.example_lines) 2 5 (0, 2)%Z = 2%Z.
Proof.
  apply (proj2 (proj2 (proj2
           (path_count_laws (Day7.build_grid Day7.example_lines) 2 5)))
           0%Z 1%Z 2%Z).
  - lia.
  - intros y' Hy'. lia.
  - reflexivity.
  - reflexivity.
  - reflexivity.
  - intros y' Hy'. assert (y' = 2%Z) as -> by lia. split; reflexivity.
Defined.

Example solve_2_example : Day7.solve_2 3 Day7.example_lines = Some 2%Z.
Proof. vm_compute. reflexivity. Qed.

Example solve_2_edge_splitter :
  Day7.solve_2 3 (list_ascii_of_string <$> ["S."; "^."; ".."]%string) = Some 1%Z.
Proof. vm_compute. reflexivity. Qed.

(** [solve_2] on a grid whose start is in row 0, with enough depth. *)
Lemma solve_2_paths (lines : list (list ascii)) (x : Z) (fuel : nat) :
  Day7.find_start lines = Some (0%Z, x) →
  length lines ≤ fuel →
  Day7.solve_2 fuel lines
  = Some (Day7.paths (Day7.build_grid lines) (Z.of_nat (length lines) - 1)
            (Z.of_nat (length (default [] (last lines)))) (0%Z, x)).
Proof.
  intros Hstart Hfuel. unfold Day7.solve_2. cbv zeta.
  rewrite Hstart. cbn [mbind option_bind].
  apply traverse_paths. cbn [fst].
  destruct lines as [|line lines]; [discriminate|]. cbn [length] in *. lia.
Qed.

(** C7 as stated fails where a branch leaves the grid.  Each of the three
    grids has a single splitter, directly below the start, and nothing but
    ["."] cells below it.  With the splitter in column 0 the left branch
    fails the column test and the count is 1.  With the splitter in the
    last column the right branch passes the test, which admits the column
    [row_len] itself, but finds no cell there, and the count is 1.  With an
    empty last line [row_len] is 0, both branches fail the test and the
    count is 0.  No depth allowance makes any of them 2. *)
Lemma one_splitter_not_two_paths :
  let splitters (lines : list (list ascii)) :=
    (map_to_list (filter (λ kv : Z * Z * ascii, kv.2 = "^"%char)
                         (Day7.build_grid lines))).*1 in
  let edge := list_ascii_of_string <$> ["S."; "^."; ".."]%string in
  let last_column := list_ascii_of_string <$> [".S"; ".^"; ".."]%string in
  let blank_end :=
    list_ascii_of_string <$> ["..S.."; "..^.."; "....."; EmptyString] in
  (splitters edge = [(1, 0)%Z]
   ∧ Day7.solve_2 3 edge = Some 1%Z
   ∧ ∀ fuel, Day7.solve_2 fuel edge ≠ Some 2%Z)
  ∧ (splitters last_column = [(1, 1)%Z]
     ∧ Day7.solve_2 3 last_column = Some 1%Z
     ∧ ∀ fuel, Day7.solve_2 fuel last_column ≠ Some 2%Z)
  ∧ (splitters blank_end = [(1, 2)%Z]
     ∧ Day7.solve_2 4 blank_end = Some 0%Z
     ∧ ∀ fuel, Day7.solve_2 fuel blank_end ≠ Some 2%Z).
Proof.
  cbv zeta. split; [|split].
  - split; [by vm_compute|]. split; [by vm_compute|].
    intros [|[|[|fuel]]]; [by vm_compute..|].
    rewrite (solve_2_paths _ 0); [by vm_compute|by vm_compute|simpl; lia].
  - split; [by vm_compute|]. split; [by vm_compute|].
    intros [|[|[|fuel]]]; [by vm_compute..|].
    rewrite (solve_2_paths _ 1); [by vm_compute|by vm_compute|simpl; lia].
  - split; [by vm_compute|]. split; [by vm_compute|].
    intros [|[|[|[|fuel]]]]; [by vm_compute..|].
    rewrite (solve_2_paths _ 2); [by vm_compute|by vm_compute|simpl; lia].
Qed.

(** ** Day 8: the edge that unifies the groups *)

Section Day8Facts.
Import Day8 Day8Spec.

Lemma relabel_same (c : gmap point nat) (g : nat) : relabel c g g = c.
Proof.
  apply map_eq. intros p. unfold relabel. rewrite lookup_fmap.
  destruct (c !! p) as [g'|]; [|done]. simpl. by case_bool_decide; subst.
Qed.

(** One iteration of the loop of [p1], with [iter = math.inf] and a point
    count: the group table changes as by [connect]; the stopping test is
    made only when an endpoint was not connected before. *)
Lemma p1_loop_cons {D} (a b : point) (d : D) (rest : list (point * point * D))
    (i t : nat) (c : gmap point nat) (gid : nat) :
  p1_loop ((a, b, d) :: rest) i Infinity (Some t) c gid
  = let st := connect (c, gid) (a, b) in
    if bool_decide (is_Some (c !! a) ∧ is_Some (c !! b)) then
      p1_loop rest (S i) Infinity (Some t) st.1 st.2
    else if all_in_one_group (Some t) st.1 then (st.1, Some (a, b))
    else p1_loop rest (S i) Infinity (Some t) st.1 st.2.
Proof.
  cbn [p1_loop reached connect].
  destruct (c !! a) as [ga|] eqn:Ha, (c !! b) as [gb|] eqn:Hb; cbn zeta.
  - rewrite (bool_decide_true (is_Some (Some ga) ∧ is_Some (Some gb)));
      [|split; eauto].
    cbn [fst snd]. case_bool_decide as Hg; [done|].
    subst gb. by rewrite relabel_same.
  - rewrite (bool_decide_false (is_Some (Some ga) ∧ is_Some None));
      [done|]. by intros [_ [? ?]].
  - rewrite (bool_decide_false (is_Some None ∧ is_Some (Some gb)));
      [done|]. by intros [[? ?] _].
  - rewrite (bool_decide_false (is_Some None ∧ is_Some None));
      [done|]. by intros [[? ?] _].
Qed.

Lemma connect_size (c : gmap point nat) (gid : nat) (e : point * point) :
  size c ≤ size (connect (c, gid) e).1
  ∧ (¬ (is_Some (c !! e.1) ∧ is_Some (c !! e.2)) →
     size c < size (connect (c, gid) e).1).
Proof.
  destruct e as [a b]. cbn [connect fst snd].
  destruct (c !! a) as [ga|] eqn:Ha, (c !! b) as [gb|] eqn:Hb; cbn [fst].
  - unfold relabel. rewrite map_size_fmap. split; [lia|].
    intros H. destruct H. split; by eexists.
  - rewrite map_size_insert_None by done. split; intros; lia.
  - rewrite map_size_insert_None by done. split; intros; lia.
  - rewrite (map_size_insert b), (map_size_insert_None a) by done.
    destruct (<[a:=gid]> c !! b); unfold id; split; intros; lia.
Qed.

(** Once as many points are connected as there are coordinates, nothing is
    reported any more. *)
Lemma p1_loop_silent {D} (t : nat) (distances : list (point * point * D)) :
  ∀ i c gid,
    t ≤ size c →
    (p1_loop distances i Infinity (Some t) c gid).2 = None.
Proof.
  induction distances as [|[[a b] d] rest IH]; intros i c gid Hsize; [done|].
  rewrite p1_loop_cons. cbn zeta.
  destruct (connect_size c gid (a, b)) as [Hle Hlt]. cbn [fst snd] in Hlt.
  case_bool_decide as Hboth.
  - apply IH. lia.
  - specialize (Hlt Hboth).
    assert (Hno : all_in_one_group (Some t) (connect (c, gid) (a, b)).1 = false).
    { unfold all_in_one_group.
      replace (size (connect (c, gid) (a, b)).1 =? t) with false
        by (symmetry; apply Nat.eqb_neq; lia).
      by rewrite andb_false_r. }
    rewrite Hno. apply IH. lia.
Qed.

Lemma all_in_one_group_single (t : nat) (c : gmap point nat) :
  c ≠ ∅ → all_in_one_group (Some t) c = true ↔ single_group t c.
Proof.
  intros Hne. unfold all_in_one_group, single_group.
  rewrite !andb_true_iff, negb_true_iff, !Nat.eqb_eq, Nat.eqb_neq.
  apply map_size_non_empty_iff in Hne. split; [tauto|].
  intros [Hs Hi]. split; [split|]; [lia|done|done].
Qed.

Lemma connect_nonempty (c : gmap point nat) (gid : nat) (e : point * point) :
  ¬ (is_Some (c !! e.1) ∧ is_Some (c !! e.2)) → (connect (c, gid) e).1 ≠ ∅.
Proof.
  intros Hnew. apply map_size_non_empty_iff.
  pose proof (connect_size c gid e) as [_ Hlt]. specialize (Hlt Hnew). lia.
Qed.

Lemma find_first (P : nat → bool) (n i : nat) :
  i < n → P i = true → (∀ j, j < i → P j = false) →
  List.find P (seq 0 n) = Some i.
Proof.
  intros Hi HP Hbefore.
  assert (Hgen : ∀ m start, start ≤ i < start + m →
            (∀ j, start ≤ j < i → P j = false) →
            List.find P (seq start m) = Some i).
  { induction m as [|m IH]; intros start Hs Hb; [lia|]. cbn [seq List.find].
    destruct (decide (start = i)) as [->|Hne].
    - by rewrite HP.
    - rewrite Hb by lia. apply IH; [lia|]. intros j Hj. apply Hb. lia. }
  apply Hgen; [lia|]. intros j Hj. apply Hbefore. lia.
Qed.

(** Whenever [p1] reports an edge, it is the first edge after which all
    points share one group. *)
Lemma p1_loop_report_sound {D} (t : nat)
    (distances : list (point * point * D)) :
  ∀ pre i c gid c' e,
    foldl connect (∅, 1) pre = (c, gid) →
    (∀ j, j < length pre →
          ¬ single_group t (groups_after (take (S j) pre))) →
    p1_loop distances i Infinity (Some t) c gid = (c', Some e) →
    first_unifying_edge t (pre ++ (fst <$> distances)) = Some e.
Proof.
  induction distances as [|[[a b] d] rest IH];
    intros pre i c gid c' e Hpre Hnot Hloop; [discriminate|].
  rewrite p1_loop_cons in Hloop. cbn zeta in Hloop.
  set (st := connect (c, gid) (a, b)) in *.
  assert (Hpre' : foldl connect (∅, 1) (pre ++ [(a, b)]) = (st.1, st.2)).
  { rewrite foldl_snoc, Hpre. apply surjective_pairing. }
  assert (Heq : pre ++ (fst <$> (a, b, d) :: rest)
                = (pre ++ [(a, b)]) ++ (fst <$> rest)).
  { by rewrite <- app_assoc. }
  assert (Hold : ∀ j, j < length pre →
            take (S j) (pre ++ [(a, b)]) = take (S j) pre).
  { intros j Hj. apply take_app_le. lia. }
  assert (Hlast : groups_after (take (S (length pre)) (pre ++ [(a, b)])) = st.1).
  { rewrite take_ge by (rewrite length_app; simpl; lia).
    unfold groups_after. by rewrite Hpre'. }
  assert (Hext : ¬ single_group t st.1 →
            ∀ j, j < length (pre ++ [(a, b)]) →
                 ¬ single_group t (groups_after (take (S j) (pre ++ [(a, b)])))).
  { intros Hst j Hj. rewrite length_app in Hj. simpl in Hj.
    destruct (decide (j = length pre)) as [->|Hne].
    - by rewrite Hlast.
    - rewrite Hold by lia. apply Hnot. lia. }
  case_bool_decide as Hboth.
  - assert (Hst : ¬ single_group t st.1).
    { intros [Hsize _].
      pose proof (p1_loop_silent t rest (S i) st.1 st.2) as Hsilent.
      rewrite Hloop in Hsilent. specialize (Hsilent ltac:(lia)). discriminate. }
    rewrite Heq. apply (IH _ _ _ _ _ _ Hpre' (Hext Hst) Hloop).
  - pose proof (all_in_one_group_single t st.1
                  (connect_nonempty c gid (a, b) Hboth)) as Hiff.
    destruct (all_in_one_group (Some t) st.1) eqn:Hall.
    + injection Hloop as _ <-.
      unfold first_unifying_edge.
      rewrite (find_first _ _ (length pre)).
      * simpl. by apply list_lookup_middle.
      * rewrite length_app. simpl. lia.
      * apply bool_decide_eq_true.
        rewrite Heq, take_app_le by (rewrite length_app; simpl; lia).
        rewrite Hlast. by apply Hiff.
      * intros j Hj. apply bool_decide_eq_false.
        rewrite take_app_le by lia. by apply Hnot.
    + assert (Hst : ¬ single_group t st.1).
      { intros Hs. apply Hiff in Hs. discriminate. }
      rewrite Heq. apply (IH _ _ _ _ _ _ Hpre' (Hext Hst) Hloop).
Qed.

(** What holds on every input: an edge reported by [p1] is
    the edge found by processing all edges and testing the group count at
    each index. *)
Lemma p1_report_sound {D} (t : nat) (distances : list (point * point * D))
    (e : point * point) :
  (p1 distances Infinity (Some t)).2 = Some e →
  first_unifying_edge t (fst <$> distances) = Some e.
Proof.
  unfold p1.
  destruct (p1_loop distances 0 Infinity (Some t) ∅ 1) as [c' last] eqn:Hloop.
  cbn [snd]. intros ->.
  apply (p1_loop_report_sound t distances [] 0 ∅ 1 c' e); [done| |done].
  intros j Hj. simpl in Hj. lia.
Qed.

(** C2, at the failing input.  Four points, two close pairs: after the two
    short edges every point is connected and two groups remain; the third
    edge joins the groups, so it is the first edge after which all points
    share one group, but [p1] goes through its [continue] branch there and
    never records it, whichever way the sort orders the equal distances. *)
Theorem unifying_merge_not_reported :
  Forall
    (λ ds, p1 ds Infinity (Some (length failing_coords)) = (4, None)
           ∧ first_unifying_edge (length failing_coords) (fst <$> ds)
             = Some ((1, 0, 0), (10, 0, 0))%Z
           ∧ main ds failing_coords = (4, None))
    failing_orders.
Proof. repeat constructor; vm_compute; reflexivity. Qed.

(** The order among equal distances decides which edge is reported, and
    with it the Part 2 number; the product is the same. *)
Example tie_order_matters :
  p1 tie_first Infinity (Some 3) = (3, Some ((2, 0, 0), (1, 1, 0))%Z)
  ∧ p1 tie_second Infinity (Some 3) = (3, Some ((0, 0, 0), (1, 1, 0))%Z).
Proof. split; vm_compute; reflexivity. Qed.

(** When the last point joins an already merged group the edge is reported,
    and it is the one the reference computation finds. *)
Example chain_reported :
  p1 chain_distances Infinity (Some 3) = (3, Some ((1, 0, 0), (3, 0, 0))%Z)
  ∧ first_unifying_edge 3 (fst <$> chain_distances)
    = Some ((1, 0, 0), (3, 0, 0))%Z.
Proof. split; vm_compute; reflexivity. Qed.

End Day8Facts.

(** ** Output format *)

Section OutputFacts.
Import Output.

Lemma two_part_lines_inv (out : list (list ascii)) :
  two_part_lines out →
  ∃ l1 l2, out = [l1; l2] ∧ take 8 l1 = list_ascii_of_string "Part 1: ".
Proof. intros (v1 & v2 & ->). by eexists _, _. Qed.

(** C9 as stated fails: [src/day02/main.py] labels its two lines
    differently.  On the range example of the specification it prints the
    two lines below, which are not of the form [Part 1: ...], [Part 2: ...]. *)
Lemma day02_output_not_labelled :
  stdout Day02Main {| part1 := VInt 1142; part2 := VInt 2252; per_line := [] |}
  = list_ascii_of_string
      <$> ["Total sum of invalid IDs: 1142";
           "Total sum of invalid IDs - Part 2: 2252"]%string
  ∧ ¬ two_part_lines
        (stdout Day02Main
           {| part1 := VInt 1142; part2 := VInt 2252; per_line := [] |}).
Proof.
  split; [reflexivity|]. intros H.
  destruct (two_part_lines_inv _ H) as (l1 & l2 & Hout & Hl1).
  injection Hout as <- _. vm_compute in Hl1. discriminate.
Qed.

(** C9, amended.  The scripts of days 2 (agent), 4, 05, 6, 7, 8, 09 and 10
    print exactly two lines on a successful run, [Part 1: <value>] and
    [Part 2: <value>]. *)
Theorem labelled_scripts_print_two_parts (s : script) (r : run) :
  labelled s = true → two_part_lines (stdout s r).
Proof.
  intros Hs.
  destruct s; try discriminate Hs;
    exists (show (part1 r)), (show (part2 r)); reflexivity.
Qed.

Lemma labelled_scripts_print_two_parts_witness :
  two_part_lines
    (stdout Day4Main {| part1 := VInt 13; part2 := VInt 43; per_line := [] |}).
Proof. apply labelled_scripts_print_two_parts. reflexivity. Defined.

(** The remaining scripts: other labels, or one more line per input line. *)
Lemma other_scripts_differ (s : script) (r : run) :
  labelled s = false →
  per_line r ≠ [] ∨ s ≠ Day3Main ∧ s ≠ Day03Main →
  ¬ two_part_lines (stdout s r).
Proof.
  intros Hs Hlines Htwo.
  apply two_part_lines_inv in Htwo as (l1 & l2 & Hout & Hl1).
  destruct s; try discriminate Hs; cbn [stdout] in Hout.
  1-3: injection Hout as <- _; vm_compute in Hl1; discriminate.
  all: destruct Hlines as [Hne|[? ?]]; [|done];
    destruct (per_line r) as [|x [|y rest]]; [done| |];
    cbn in Hout; try discriminate Hout;
    injection Hout as <- _; vm_compute in Hl1; discriminate.
Qed.

End OutputFacts.

(** ** Day 10: the breadth-first search *)

Section Day10Facts.
Import Day10 Day10Spec.

Lemma py_index_lt (len : nat) (idx : Z) (i : nat) :
  py_index len idx = Some i → i < len.
Proof.
  unfold py_index. repeat case_bool_decide; intros [= <-]; lia.
Qed.

Lemma press_loop_defined (button : list Z) :
  ∀ l, Forall (λ idx, is_Some (py_index (length l) idx)) button →
       ∃ l', press_loop l button = Some l' ∧ length l' = length l.
Proof.
  induction button as [|idx rest IH]; intros l Hb.
  { exists l. done. }
  apply Forall_cons in Hb as [[i Hi] Hrest]. cbn [press_loop].
  rewrite Hi. cbn [mbind option_bind].
  destruct (lookup_lt_is_Some_2 l i (py_index_lt _ _ _ Hi)) as [c Hc].
  rewrite Hc. cbn [mbind option_bind].
  set (l1 := <[i := _]> l).
  assert (Hlen : length l1 = length l) by apply length_insert.
  destruct (IH l1) as (l' & Hl' & Hlen').
  { by rewrite Hlen. }
  exists l'. split; [done|congruence].
Qed.

Lemma press_button_defined (light : list ascii) (buttons : list (list Z))
    (l : list ascii) (b : list Z) :
  buttons_in_range light buttons → length l = length light → b ∈ buttons →
  ∃ l', press_button l b = Some l' ∧ length l' = length light.
Proof.
  intros Hrange Hlen Hb. unfold buttons_in_range in Hrange.
  rewrite Forall_forall in Hrange. specialize (Hrange b Hb).
  rewrite <- Hlen in Hrange.
  destruct (press_loop_defined b l Hrange) as (l' & Hl' & Hlen').
  exists l'. split; [done|congruence].
Qed.

Lemma children_cons (curr l' : list ascii) (p : nat) (b : list Z)
    (bs : list (list Z)) :
  press_button curr b = Some l' →
  children curr p (b :: bs) = (l', b, p + 1) :: children curr p bs.
Proof. intros H. unfold children. simpl. by rewrite H. Qed.

(** What the [for] loop over the buttons does to the queue. *)
Lemma expand_spec (light curr : list ascii) (p : nat) (bs : list (list Z)) :
  (∀ b, b ∈ bs → is_Some (press_button curr b)) →
  ∀ queue,
    match expand light curr p bs queue with
    | Hit n => n = p + 1 ∧ ∃ b, b ∈ bs ∧ press_button curr b = Some light
    | Enqueued queue' =>
        queue' = queue ++ children curr p bs
        ∧ ∀ b, b ∈ bs → press_button curr b ≠ Some light
    | Raised => False
    end.
Proof.
  induction bs as [|b bs IH]; intros Hdef queue.
  { cbn. split; [by rewrite app_nil_r|]. intros b Hb. by apply elem_of_nil in Hb. }
  cbn [expand].
  destruct (Hdef b) as [l' Hl']; [by left|]. rewrite Hl'.
  rewrite (children_cons _ _ _ _ _ Hl').
  case_bool_decide as Heq.
  - subst l'. split; [done|]. exists b. split; [by left|done].
  - specialize (IH (λ b' Hb', Hdef b' (list_elem_of_further _ _ _ Hb'))
                   (queue ++ [(l', b, p + 1)])).
    destruct (expand light curr p bs (queue ++ [(l', b, p + 1)]))
      as [n|queue'|].
    + destruct IH as [-> (b' & Hb' & Hp)]. split; [done|].
      exists b'. split; [by right|done].
    + destruct IH as [-> Hno]. split.
      * by rewrite <- app_assoc.
      * intros b' Hb'. apply elem_of_cons in Hb' as [->|Hb'].
        -- congruence.
        -- by apply Hno.
    + done.
Qed.

Lemma press_all_app (l : list ascii) (bs1 bs2 : list (list Z)) :
  press_all l (bs1 ++ bs2) = press_all l bs1 ≫= λ l', press_all l' bs2.
Proof.
  revert l. induction bs1 as [|b bs1 IH]; intros l; [done|].
  cbn [app press_all]. destruct (press_button l b); [apply IH|done].
Qed.

Lemma completes_S (light : list ascii) (buttons : list (list Z))
    (l : list ascii) (m : nat) :
  completes light buttons l (S m) →
  ∃ b l', b ∈ buttons ∧ press_button l b = Some l'
          ∧ completes light buttons l' m.
Proof.
  intros (bs & Hbs & Hlen & Hpress).
  destruct bs as [|b bs]; [discriminate|].
  apply Forall_cons in Hbs as [Hb Hbs]. cbn [press_all] in Hpress.
  destruct (press_button l b) as [l'|] eqn:Hl'; [|discriminate].
  exists b, l'. split; [done|]. split; [done|].
  exists bs. split; [done|]. split; [|done]. simpl in Hlen. lia.
Qed.

Lemma completes_0 (light : list ascii) (buttons : list (list Z))
    (l : list ascii) :
  completes light buttons l 0 → l = light.
Proof.
  intros (bs & _ & Hlen & Hpress).
  destruct bs; [|discriminate]. simpl in Hpress. congruence.
Qed.

Lemma elem_of_children (curr : list ascii) (p : nat) (buttons : list (list Z))
    (x : node) :
  x ∈ children curr p buttons ↔
  ∃ b, b ∈ buttons ∧ press_button curr b = Some x.1.1
       ∧ x.1.2 = b ∧ x.2 = p + 1.
Proof.
  unfold children. rewrite list_elem_of_omap. split.
  - intros (b & Hb & Hx). exists b. split; [done|].
    destruct (press_button curr b) as [l'|]; [|discriminate].
    simpl in Hx. injection Hx as <-. done.
  - intros (b & Hb & Hp & <- & Hx2). exists (x.1.2). split; [done|].
    rewrite Hp. simpl. destruct x as [[l b] q]. simpl in *. by subst.
Qed.

Section Search.
Variable light : list ascii.
Variable buttons : list (list Z).
Variable k : nat.
Hypothesis Hrange : buttons_in_range light buttons.
Hypothesis Hmin : min_positive light buttons k.

Local Abbreviation node_key := (λ x : node, (x.1.1, x.2, x.1.2) : key).

(** One iteration of the [while] loop on a queue that satisfies the
    invariant. *)
Lemma search_step (h : node) (rest : list node) (visited : gset key) :
  queue_inv light buttons (h :: rest) visited →
  (node_key h ∈ visited
   ∧ ∀ f, search (S f) light buttons (h :: rest) visited
          = search f light buttons rest visited)
  ∨ ((node_key h ∉ visited)
     ∧ (∃ b, b ∈ buttons ∧ press_button h.1.1 b = Some light)
     ∧ ∀ f, search (S f) light buttons (h :: rest) visited = Found (h.2 + 1))
  ∨ ((node_key h ∉ visited)
     ∧ (∀ b, b ∈ buttons → press_button h.1.1 b ≠ Some light)
     ∧ ∀ f, search (S f) light buttons (h :: rest) visited
            = search f light buttons (rest ++ children h.1.1 h.2 buttons)
                     (visited ∪ {[node_key h]})).
Proof.
  intros Hinv. destruct h as [[l0 b0] p0]. cbn [fst snd].
  destruct (decide ((l0, p0, b0) ∈ visited)) as [Hin|Hnin].
  { left. split; [done|]. intros f. cbn [search].
    by rewrite bool_decide_true. }
  right.
  assert (Hlen : length l0 = length light).
  { pose proof (inv_nodes _ _ _ _ Hinv) as Hn.
    apply Forall_cons in Hn as [[Hl _] _]. exact Hl. }
  assert (Hdef : ∀ b, b ∈ buttons → is_Some (press_button l0 b)).
  { intros b Hb.
    destruct (press_button_defined light buttons l0 b Hrange Hlen Hb)
      as (l' & Hl' & _). by exists l'. }
  pose proof (expand_spec light l0 p0 buttons Hdef rest) as Hex.
  destruct (expand light l0 p0 buttons rest) as [n|queue'|] eqn:He.
  - left. destruct Hex as [-> Hhit]. split; [done|]. split; [done|].
    intros f. cbn [search]. by rewrite bool_decide_false, He.
  - right. destruct Hex as [-> Hno]. split; [done|]. split; [done|].
    intros f. cbn [search]. by rewrite bool_decide_false, He.
  - done.
Qed.

Lemma head_le (h : node) (rest : list node) (visited : gset key) (x : node) :
  queue_inv light buttons (h :: rest) visited → x ∈ h :: rest → h.2 ≤ x.2.
Proof.
  intros Hinv Hx. pose proof (inv_sorted _ _ _ _ Hinv) as Hs.
  apply StronglySorted_cons in Hs as [Hall _].
  apply elem_of_cons in Hx as [->|Hx]; [done|].
  rewrite Forall_forall in Hall. by apply Hall.
Qed.

Lemma queue_inv_tail (h : node) (rest : list node) (visited : gset key) :
  queue_inv light buttons (h :: rest) visited →
  queue_inv light buttons rest visited.
Proof.
  intros Hinv. destruct (inv_head _ _ _ _ Hinv h rest eq_refl) as [Hup Hvis].
  pose proof (inv_sorted _ _ _ _ Hinv) as Hs.
  apply StronglySorted_cons in Hs as [Hlow Hs].
  split.
  - pose proof (inv_nodes _ _ _ _ Hinv) as Hn.
    by apply Forall_cons in Hn as [_ Hn].
  - exact Hs.
  - intros h' rest' ->.
    apply Forall_cons in Hlow as [Hh' _].
    apply Forall_cons in Hup as [_ Hup]. split.
    + eapply Forall_impl; [exact Hup|]. simpl. intros x Hx. lia.
    + intros kv Hkv. specialize (Hvis kv Hkv). lia.
Qed.

Lemma queue_inv_expand (h : node) (rest : list node) (visited : gset key) :
  queue_inv light buttons (h :: rest) visited →
  queue_inv light buttons (rest ++ children h.1.1 h.2 buttons)
            (visited ∪ {[node_key h]}).
Proof.
  intros Hinv. destruct (inv_head _ _ _ _ Hinv h rest eq_refl) as [Hup Hvis].
  pose proof (inv_sorted _ _ _ _ Hinv) as Hs.
  apply StronglySorted_cons in Hs as [Hlow Hs].
  pose proof (inv_nodes _ _ _ _ Hinv) as Hn.
  apply Forall_cons in Hn as [[Hlen (bs & Hbs & Hbslen & Hreach)] Hn].
  assert (Hvis' : ∀ kv : key, kv ∈ visited ∪ {[node_key h]} → kv.1.2 ≤ h.2).
  { intros kv Hkv. apply elem_of_union in Hkv as [Hkv|Hkv]; [by apply Hvis|].
    apply elem_of_singleton in Hkv. subst kv. done. }
  assert (Hch : ∀ x, x ∈ children h.1.1 h.2 buttons → x.2 = h.2 + 1).
  { intros x Hx. apply elem_of_children in Hx as (b & _ & _ & _ & Hx). done. }
  split.
  - apply Forall_app. split; [exact Hn|].
    apply Forall_forall. intros x Hx.
    apply elem_of_children in Hx as (b & Hb & Hpress & Hxb & Hx2).
    destruct (press_button_defined light buttons h.1.1 b Hrange Hlen Hb)
      as (l' & Hl' & Hlen').
    assert (l' = x.1.1) as -> by congruence.
    split; [done|]. exists (bs ++ [b]). split; [|split].
    + apply Forall_app. split; [done|]. by apply Forall_singleton.
    + rewrite length_app. simpl. lia.
    + rewrite press_all_app, Hreach. cbn [mbind option_bind press_all].
      by rewrite Hpress.
  - apply StronglySorted_app_2; [|exact Hs|].
    + intros x1 x2 Hx1 Hx2. rewrite (Hch x2 Hx2).
      rewrite Forall_forall in Hup. specialize (Hup x1 Hx1). lia.
    + generalize (children h.1.1 h.2 buttons) Hch. intros l.
      induction l as [|x l IH]; intros Hl; constructor.
      * apply IH. intros y Hy. apply Hl. by right.
      * apply Forall_forall. intros y Hy.
        rewrite (Hl x), (Hl y); [done|by right|by left].
  - intros h' rest' Heq. split.
    + destruct rest as [|r rest0]; cbn [app] in Heq.
      * apply Forall_forall. intros x Hx.
        assert (Hx' : x ∈ children h.1.1 h.2 buttons) by (rewrite Heq; by right).
        assert (Hh' : h' ∈ children h.1.1 h.2 buttons) by (rewrite Heq; by left).
        rewrite (Hch x Hx'), (Hch h' Hh'). lia.
      * injection Heq as -> <-.
        apply Forall_cons in Hlow as [Hh' _].
        apply Forall_cons in Hup as [_ Hup].
        apply Forall_app. split.
        -- eapply Forall_impl; [exact Hup|]. simpl. intros x Hx. lia.
        -- apply Forall_forall. intros x Hx. rewrite (Hch x Hx). lia.
    + intros kv Hkv. specialize (Hvis' kv Hkv).
      assert (h.2 ≤ h'.2); [|lia].
      destruct rest as [|r rest0]; cbn [app] in Heq.
      * assert (Hh' : h' ∈ children h.1.1 h.2 buttons) by (rewrite Heq; by left).
        rewrite (Hch h' Hh'). lia.
      * injection Heq as -> _. by apply Forall_cons in Hlow as [Hh' _].
Qed.

(** A hit found while an entry on a shortest way is still queued has the
    minimum number of presses. *)
Lemma hit_is_minimum (h : node) (rest : list node) (visited : gset key)
    (i j : nat) :
  queue_inv light buttons (h :: rest) visited →
  on_shortest_way light buttons k (h :: rest) visited i j →
  (∃ b, b ∈ buttons ∧ press_button h.1.1 b = Some light) →
  h.2 + 1 = k.
Proof.
  intros Hinv (l & b & Hq & Hj & _ & _) (b' & Hb' & Hpress).
  assert (Hle : h.2 ≤ j).
  { assert (Hx : (l, b, j) ∈ h :: rest) by (apply list_elem_of_lookup; eauto).
    apply (head_le _ _ _ _ Hinv Hx). }
  pose proof (inv_nodes _ _ _ _ Hinv) as Hn.
  apply Forall_cons in Hn as [[_ (bs & Hbs & Hbslen & Hreach)] _].
  destruct Hmin as (_ & _ & Hleast).
  assert (k ≤ h.2 + 1); [|lia].
  apply Hleast; [lia|]. exists (bs ++ [b']). split; [|split].
  - apply Forall_app. split; [done|]. by apply Forall_singleton.
  - rewrite length_app. simpl. lia.
  - rewrite press_all_app, Hreach. cbn [mbind option_bind press_all].
    by rewrite Hpress.
Qed.

(** Expanding the entry on a shortest way puts its successor on that way
    into the queue. *)
Lemma shortest_way_advances (h : node) (rest : list node) (visited : gset key) :
  queue_inv light buttons (h :: rest) visited →
  h.2 < k →
  completes light buttons h.1.1 (k - h.2) →
  (∀ b, b ∈ buttons → press_button h.1.1 b ≠ Some light) →
  ∃ i, on_shortest_way light buttons k
         (rest ++ children h.1.1 h.2 buttons)
         (visited ∪ {[node_key h]}) i (h.2 + 1).
Proof.
  intros Hinv Hlt Hc Hno.
  destruct (inv_head _ _ _ _ Hinv h rest eq_refl) as [_ Hvis].
  replace (k - h.2) with (S (k - (h.2 + 1))) in Hc by lia.
  apply completes_S in Hc as (b1 & l1 & Hb1 & Hpress & Hc).
  assert (Hlt' : h.2 + 1 < k).
  { destruct (decide (k - (h.2 + 1) = 0)) as [Hz|]; [|lia].
    rewrite Hz in Hc. apply completes_0 in Hc. subst l1.
    by destruct (Hno b1 Hb1). }
  assert (Hin : (l1, b1, h.2 + 1) ∈ rest ++ children h.1.1 h.2 buttons).
  { apply elem_of_app. right. apply elem_of_children. exists b1. done. }
  apply list_elem_of_lookup in Hin as [i Hi].
  exists i, l1, b1. split; [done|]. split; [done|]. split; [|done].
  intros Hkv. apply elem_of_union in Hkv as [Hkv|Hkv].
  - specialize (Hvis _ Hkv). simpl in Hvis. lia.
  - apply elem_of_singleton in Hkv. injection Hkv as _ Hp _. lia.
Qed.

(** One more iteration of the loop in front of a run that is known to find
    the minimum. *)
Local Ltac one_more_iteration fuel Hstep Hfuel :=
  exists (S fuel); intros ?; cbn [Nat.add]; rewrite Hstep; apply Hfuel.

(** The search returns the minimum as long as an unvisited entry on a
    shortest way is queued.  The measure is lexicographic: presses still
    needed from that entry, then its position in the queue. *)
Lemma search_finds (m : nat) :
  ∀ i queue visited j,
    k - j ≤ m →
    queue_inv light buttons queue visited →
    on_shortest_way light buttons k queue visited i j →
    ∃ fuel, ∀ extra,
      search (fuel + extra) light buttons queue visited = Found k.
Proof.
  induction m as [|m IHm].
  { intros i queue visited j Hm _ (l & b & _ & Hj & _). lia. }
  induction i as [i IHi] using lt_wf_ind.
  intros queue visited j Hm Hinv Hw.
  destruct queue as [|h rest].
  { destruct Hw as (l & b & Hq & _). discriminate. }
  destruct (search_step h rest visited Hinv)
    as [(Hin & Hstep)|[(Hnin & Hhit & Hstep)|(Hnin & Hno & Hstep)]].
  - (* the head was visited before: it is dropped *)
    destruct Hw as (l & b & Hq & Hj & Hnv & Hc).
    destruct i as [|i'].
    { simpl in Hq. injection Hq as ->. contradiction. }
    destruct (IHi i' (Nat.lt_succ_diag_r i') rest visited j Hm
                (queue_inv_tail _ _ _ Hinv)) as [fuel Hfuel].
    { exists l, b. done. }
    one_more_iteration fuel Hstep Hfuel.
  - (* a button produces the target *)
    exists 1. intros extra. cbn [Nat.add]. rewrite Hstep. f_equal.
    eapply hit_is_minimum; eauto.
  - (* the head is expanded *)
    destruct Hw as (l & b & Hq & Hj & Hnv & Hc).
    destruct (decide (node_key h = (l, j, b))) as [Hkey|Hkey].
    + injection Hkey as Hl Hp Hb.
      destruct (shortest_way_advances h rest visited Hinv) as [i' Hw'];
        [lia|by rewrite Hl, Hp|done|].
      destruct (IHm i' _ _ (h.2 + 1) ltac:(lia)
                  (queue_inv_expand _ _ _ Hinv) Hw') as [fuel Hfuel].
      one_more_iteration fuel Hstep Hfuel.
    + destruct i as [|i'].
      { simpl in Hq. injection Hq as ->. by destruct Hkey. }
      destruct (IHi i' (Nat.lt_succ_diag_r i')
                  (rest ++ children h.1.1 h.2 buttons)
                  (visited ∪ {[node_key h]}) j Hm
                  (queue_inv_expand _ _ _ Hinv)) as [fuel Hfuel].
      { exists l, b. split; [by apply lookup_app_l_Some|].
        split; [done|]. split; [|done].
        intros Hkv. apply elem_of_union in Hkv as [Hkv|Hkv]; [done|].
        apply elem_of_singleton in Hkv. by destruct Hkey. }
      one_more_iteration fuel Hstep Hfuel.
Qed.

Lemma initial_queue_inv :
  queue_inv light buttons ((λ b, (all_off light, b, 0)) <$> buttons) ∅.
Proof.
  split.
  - apply Forall_fmap, Forall_forall. intros b _. simpl. split.
    + unfold all_off. by rewrite length_replicate.
    + exists []. done.
  - generalize buttons. intros bs.
    induction bs as [|b bs IH]; [constructor|].
    constructor; [exact IH|].
    apply Forall_fmap, Forall_forall. intros b' _. simpl. lia.
  - intros h rest Heq. split; [|intros kv Hkv; by apply elem_of_empty in Hkv].
    assert (Hall : Forall (λ x : node, x.2 = 0)
                     ((λ b, (all_off light, b, 0)) <$> buttons)).
    { apply Forall_fmap, Forall_forall. intros b _. reflexivity. }
    rewrite Heq in Hall. apply Forall_cons in Hall as [_ Hall].
    eapply Forall_impl; [exact Hall|]. simpl. intros x ->. lia.
Qed.

(** The search of one step finds the least positive number of presses. *)
Lemma p1_step_min_positive :
  ∃ fuel, ∀ extra, p1_step (fuel + extra) light buttons = Found k.
Proof.
  unfold p1_step. fold (all_off light).
  apply (search_finds k 0 _ _ 0); [lia|apply initial_queue_inv|].
  destruct Hmin as (Hk & Hc & _).
  destruct Hc as (bs & Hbs & Hlen & Hpress).
  assert (Hhd : ∀ (l : list (list Z)) b, b ∈ l →
            ∃ b0, ((λ b, (all_off light, b, 0)) <$> l) !! 0
                  = Some (all_off light, b0, 0)).
  { intros [|b0 l] b Hb; [by apply elem_of_nil in Hb|by exists b0]. }
  destruct bs as [|b bs]; [simpl in Hlen; lia|].
  pose proof Hbs as Hbs'. apply Forall_cons in Hbs' as [Hb _].
  destruct (Hhd buttons b Hb) as [b0 Hb0].
  exists (all_off light), b0. split; [done|]. split; [lia|].
  split; [apply not_elem_of_empty|].
  exists (b :: bs). rewrite Nat.sub_0_r. done.
Qed.

End Search.

Lemma expand_hit (light curr : list ascii) (p : nat) (bs : list (list Z)) :
  ∀ queue n, expand light curr p bs queue = Hit n → n = p + 1.
Proof.
  induction bs as [|b bs IH]; intros queue n; cbn [expand]; [discriminate|].
  destruct (press_button curr b) as [l'|]; [|discriminate].
  case_bool_decide; [by intros [= <-]|apply IH].
Qed.

(** Whatever the search appends, it is at least one press. *)
Lemma search_found_positive (light : list ascii) (buttons : list (list Z))
    (fuel : nat) :
  ∀ queue visited n,
    search fuel light buttons queue visited = Found n → 1 ≤ n.
Proof.
  induction fuel as [|fuel IH]; intros queue visited n; cbn [search];
    [discriminate|].
  destruct queue as [|[[curr b] p] queue']; [discriminate|].
  case_bool_decide; [apply IH|].
  destruct (expand light curr p buttons queue') as [m|queue''|] eqn:He;
    [|apply IH|discriminate].
  intros [= <-]. apply expand_hit in He. lia.
Qed.

(** The sum that [p1] returns over several steps. *)
Lemma p1_sums (steps : list (list ascii * list (list Z))) (ks : list nat) :
  Forall2 (λ step k, buttons_in_range step.1 step.2
                     ∧ min_positive step.1 step.2 k) steps ks →
  ∃ fuel, ∀ extra, p1 (fuel + extra) steps = Some (foldr Nat.add 0 ks).
Proof.
  induction 1 as [|[light buttons] k steps ks [Hrange Hmin] _ [f2 Hf2]].
  { exists 0. done. }
  destruct (p1_step_min_positive light buttons k Hrange Hmin) as [f1 Hf1].
  exists (f1 + f2). intros extra. cbn [p1 foldr].
  replace (f1 + f2 + extra) with (f1 + (f2 + extra)) at 1 by lia.
  rewrite Hf1.
  replace (f1 + f2 + extra) with (f2 + (f1 + extra)) by lia.
  by rewrite Hf2.
Qed.

(** C1 as stated fails when the target is the all-off pattern.  For the
    step [[.] (0)] no press is needed, so the minimum is 0; the search, which
    compares only patterns it has just produced by a press, never answers 0
    and answers 2. *)
Lemma all_off_target_not_minimum :
  min_presses ["."%char] [[0%Z]] 0
  ∧ (∀ fuel, p1_step fuel ["."%char] [[0%Z]] ≠ Found 0)
  ∧ p1_step 2 ["."%char] [[0%Z]] = Found 2
  ∧ p1 2 [(["."%char], [[0%Z]])] = Some 2.
Proof.
  split; [|split; [|split]].
  - split.
    + exists []. split; [|done]. split; [constructor|reflexivity].
    + intros bs _. lia.
  - intros fuel Hfuel. apply search_found_positive in Hfuel. lia.
  - vm_compute. reflexivity.
  - vm_compute. reflexivity.
Qed.

(** C1, amended.  For every step whose buttons only name existing lights and
    whose target is not the all-off pattern, if [k] is the minimum number of
    presses that turns all-off into the target, the search of [p1] appends
    exactly [k] once it is given enough iterations, with the visited set
    keyed by (pattern, presses, button); [p1] on that step alone returns
    [k]. *)
Theorem bfs_minimum_presses (light : list ascii) (buttons : list (list Z))
    (k : nat) :
  buttons_in_range light buttons →
  light ≠ all_off light →
  min_presses light buttons k →
  ∃ fuel, ∀ extra,
    p1_step (fuel + extra) light buttons = Found k
    ∧ p1 (fuel + extra) [(light, buttons)] = Some k.
Proof.
  intros Hrange Hon [(bs & [Hbs Hpress] & Hlen) Hleast].
  assert (Hmin : min_positive light buttons k).
  { split; [|split].
    - destruct bs as [|b bs]; [|simpl in Hlen; lia].
      simpl in Hpress. congruence.
    - by exists bs.
    - intros m _ (bs' & Hbs' & Hlen' & Hpress'). rewrite <- Hlen'.
      apply Hleast. done. }
  destruct (p1_step_min_positive light buttons k Hrange Hmin) as [fuel Hfuel].
  exists fuel. intros extra. split; [apply Hfuel|].
  cbn [p1]. rewrite Hfuel. simpl. f_equal. lia.
Qed.

Lemma bfs_minimum_presses_witness :
  ∃ fuel, ∀ extra,
    p1_step (fuel + extra) example_light example_buttons = Found 2
    ∧ p1 (fuel + extra) [(example_light, example_buttons)] = Some 2.
Proof.
  apply bfs_minimum_presses.
  - unfold buttons_in_range, example_buttons, example_light.
    repeat (apply Forall_cons; split); try apply Forall_nil_2;
      vm_compute; eexists; reflexivity.
  - vm_compute. discriminate.
  - split.
    + exists [[0; 2]; [0; 1]]%Z. split; [|reflexivity]. split.
      * unfold example_buttons.
        repeat (apply Forall_cons; split); try apply Forall_nil_2; cbv beta;
          repeat first [apply list_elem_of_here | apply list_elem_of_further].
      * vm_compute. reflexivity.
    + intros bs [Hbs Hpress].
      destruct bs as [|b [|b' bs]]; [| |simpl; lia].
      * vm_compute in Hpress. discriminate.
      * apply Forall_cons in Hbs as [Hb _]. unfold example_buttons in Hb.
        repeat (apply elem_of_cons in Hb as [->|Hb];
                [vm_compute in Hpress; discriminate|]).
        by apply elem_of_nil in Hb.
Defined.

End Day10Facts.

(** * Further properties of the scripts *)

#[local] Set Warnings "-clear-no-such-hyp".

(** ** Day 4: the grid dictionary and the result of the loop *)

Section Day4More.
Import Day4 Day4Spec Day4Stable InputGrid.
Implicit Types (g : gmap (Z * Z) ascii) (k : Z * Z).

Lemma build_row_lookup (line : list ascii) (Y : Z) g (y x : Z) :
  foldl (λ g' (xc : nat * ascii), <[(Y, Z.of_nat xc.1) := xc.2]> g')
        g (imap pair line) !! (y, x)
  = if bool_decide (y = Y ∧ (0 ≤ x)%Z ∧ is_Some (line !! Z.to_nat x))
    then line !! Z.to_nat x else g !! (y, x).
Proof.
  induction line as [|c line IH] using rev_ind.
  { simpl. case_bool_decide as H; [|done].
    destruct H as (_ & _ & [? H]). by rewrite lookup_nil in H. }
  rewrite imap_app, foldl_app. cbn [imap foldl fst snd].
  rewrite Nat.add_0_r.
  destruct (decide ((y, x) = (Y, Z.of_nat (length line)))) as [[= -> ->]|Hne].
  - rewrite lookup_insert_eq, Nat2Z.id.
    rewrite bool_decide_true.
    + by rewrite list_lookup_middle.
    + split; [done|]. split; [lia|]. by rewrite list_lookup_middle.
  - rewrite lookup_insert_ne by done. rewrite IH.
    assert (Hx : y = Y → (0 ≤ x)%Z → Z.to_nat x ≠ length line).
    { intros -> Hx Heq. apply Hne. f_equal. lia. }
    destruct (decide (y = Y ∧ (0 ≤ x)%Z ∧ is_Some (line !! Z.to_nat x)))
      as [(Hy & Hx0 & Hs)|Hno].
    + rewrite !bool_decide_true.
      * rewrite lookup_app_l; [done|]. by apply lookup_lt_is_Some.
      * split; [done|]. split; [done|]. apply lookup_lt_is_Some.
        apply lookup_lt_is_Some in Hs. rewrite length_app. lia.
      * done.
    + rewrite !bool_decide_false; [done| |done].
      intros (Hy & Hx0 & Hs). apply Hno.
      split; [done|]. split; [done|].
      apply lookup_lt_is_Some. apply lookup_lt_is_Some in Hs.
      rewrite length_app in Hs. simpl in Hs. specialize (Hx Hy Hx0). lia.
Qed.

Lemma build_grid_char_at (input_lines : list (list ascii)) (y x : Z) :
  build_grid input_lines !! (y, x) = char_at input_lines y x.
Proof.
  unfold build_grid, char_at.
  induction input_lines as [|line lines IH] using rev_ind.
  { simpl. rewrite lookup_empty. by case_bool_decide. }
  rewrite imap_app, foldl_app. cbn [imap foldl fst snd].
  rewrite Nat.add_0_r, build_row_lookup, IH.
  destruct (decide (0 ≤ y ∧ 0 ≤ x)%Z) as [[Hy Hx]|Hneg].
  - rewrite (bool_decide_true (0 ≤ y ∧ 0 ≤ x)%Z) by done.
    destruct (decide (Z.to_nat y = length lines)) as [Hlast|Hother].
    + rewrite Hlast, list_lookup_middle by done. cbn [mbind option_bind].
      destruct (line !! Z.to_nat x) as [c|] eqn:Hl.
      * rewrite bool_decide_true; [done|].
        split; [lia|]. split; [done|]. by eexists.
      * rewrite bool_decide_false by (intros (_ & _ & [? ?]); done).
        by rewrite lookup_ge_None_2 by lia.
    + rewrite bool_decide_false by (intros (-> & _); lia).
      destruct (decide (Z.to_nat y < length lines)) as [Hlt|Hge].
      * by rewrite lookup_app_l.
      * rewrite !lookup_ge_None_2; [done| |lia].
        rewrite length_app. simpl. lia.
  - rewrite (bool_decide_false (0 ≤ y ∧ 0 ≤ x)%Z) by done.
    rewrite bool_decide_false; [done|]. intros (-> & Hx & _). lia.
Qed.

(** X1.  The dictionary that [main] builds maps [(y, x)] to the character
    in row [y], column [x] of the input, and has no other key. *)
Theorem build_grid_lookup (input_lines : list (list ascii)) (y x : Z) :
  build_grid input_lines !! (y, x) = char_at input_lines y x.
Proof. apply build_grid_char_at. Qed.

(** With more fuel than there are rolls the loop returns. *)
Lemma clearing_loop_result g :
  ∃ r, cleared (Nat.iter r round g) = ∅
       ∧ (∀ i, i < r → cleared (Nat.iter i round g) ≠ ∅)
       ∧ ∀ fuel, size (occupied_set g) < fuel →
           clearing_loop fuel g 0
           = Some (cleared_in r g, Nat.iter r round g).
Proof.
  destruct (fixed_point_reached _ g (Nat.le_refl _)) as (r & Hr & Hstop & Hrun).
  exists r. split; [done|]. split; [done|]. intros fuel Hfuel.
  replace fuel with (S (r + (fuel - S r))) by lia.
  by rewrite (clearing_loop_runs r g 0 Hstop Hrun).
Qed.

Lemma occupied_set_iter_subseteq (r : nat) g :
  occupied_set (Nat.iter r round g) ⊆ occupied_set g.
Proof.
  induction r as [|r IH]; [done|].
  change (Nat.iter (S r) round g) with (round (Nat.iter r round g)).
  etrans; [apply occupied_set_round_subseteq|exact IH].
Qed.

Lemma neighbours_mono (X Y : gset (Z * Z)) k :
  X ⊆ Y → size (filter (adjacent k) X) ≤ size (filter (adjacent k) Y).
Proof.
  intros Hsub. apply subseteq_size. intros k'.
  rewrite !elem_of_filter. intros [? ?]. split; [done|]. by apply Hsub.
Qed.

Lemma stable_survives_round (X : gset (Z * Z)) g :
  stable X → X ⊆ occupied_set g → X ⊆ occupied_set (round g).
Proof.
  intros Hst Hsub k Hk.
  apply elem_of_occupied_set, occupied_round. split.
  - by apply elem_of_occupied_set, Hsub.
  - intros [_ Hfew]. unfold neighbours in Hfew.
    pose proof (Hst k Hk). pose proof (neighbours_mono X _ k Hsub). lia.
Qed.

Lemma stable_survives (X : gset (Z * Z)) (r : nat) g :
  stable X → X ⊆ occupied_set g → X ⊆ occupied_set (Nat.iter r round g).
Proof.
  intros Hst Hsub. induction r as [|r IH]; [done|].
  change (Nat.iter (S r) round g) with (round (Nat.iter r round g)).
  by apply stable_survives_round.
Qed.

Lemma fixed_point_stable g : cleared g = ∅ → stable (occupied_set g).
Proof.
  intros He k Hk. apply elem_of_occupied_set in Hk.
  destruct (decide (neighbours g k < 4)) as [Hfew|Hmany].
  - assert (Hin : k ∈ cleared g) by (apply elem_of_cleared; by split).
    rewrite He in Hin. by apply elem_of_empty in Hin.
  - unfold neighbours in Hmany. lia.
Qed.

(** X2. The loop of [main] ends with the largest set of rolls in which every
    roll has at least four neighbouring rolls: what remains is such a set,
    it is part of the rolls of the input, and it contains every such set of
    input rolls. *)
Theorem clearing_loop_greatest_stable g :
  ∃ total g',
    (∀ fuel, size (occupied_set g) < fuel →
             clearing_loop fuel g 0 = Some (total, g'))
    ∧ occupied_set g' ⊆ occupied_set g
    ∧ stable (occupied_set g')
    ∧ ∀ X, X ⊆ occupied_set g → stable X → X ⊆ occupied_set g'.
Proof.
  destruct (clearing_loop_result g) as (r & Hstop & _ & Hloop).
  exists (cleared_in r g), (Nat.iter r round g).
  split; [exact Hloop|]. split; [apply occupied_set_iter_subseteq|].
  split; [by apply fixed_point_stable|].
  intros X Hsub Hst. by apply stable_survives.
Qed.

Lemma iter_round_lookup (r : nat) g k :
  Nat.iter r round g !! k
  = if decide (occupied g k ∧ ¬ occupied (Nat.iter r round g) k)
    then Some "."%char else g !! k.
Proof.
  induction r as [|r IH].
  { simpl. rewrite decide_False; [done|]. tauto. }
  change (Nat.iter (S r) round g) with (round (Nat.iter r round g)).
  set (h := Nat.iter r round g) in *.
  assert (Hmono : occupied h k → occupied g k).
  { rewrite <- !elem_of_occupied_set. apply occupied_set_iter_subseteq. }
  rewrite round_lookup. pose proof (occupied_round h k) as Hround.
  destruct (decide (clearable h k)) as [Hc|Hc].
  - rewrite decide_True; [done|]. pose proof Hc as [Hocc _]. tauto.
  - rewrite IH. destruct (decide (occupied h k)) as [Ho|Ho].
    + rewrite !decide_False; [done|tauto|tauto].
    + destruct (decide (occupied g k)) as [Hg|Hg].
      * rewrite !decide_True; [done|tauto|tauto].
      * rewrite !decide_False; [done|tauto|tauto].
Qed.

(** X3. The loop only ever turns rolls into ["."]: the final dictionary has
    the keys of the input, the rolls that are gone hold ["."], and every
    other cell holds what it held in the input. *)
Theorem clearing_loop_only_clears g :
  ∃ total g',
    (∀ fuel, size (occupied_set g) < fuel →
             clearing_loop fuel g 0 = Some (total, g'))
    ∧ dom g' = dom g
    ∧ ∀ k, g' !! k
           = if decide (k ∈ occupied_set g ∖ occupied_set g')
             then Some "."%char else g !! k.
Proof.
  destruct (clearing_loop_result g) as (r & _ & _ & Hloop).
  exists (cleared_in r g), (Nat.iter r round g). split; [exact Hloop|].
  assert (Hlook : ∀ k, Nat.iter r round g !! k
            = if decide (k ∈ occupied_set g ∖ occupied_set (Nat.iter r round g))
              then Some "."%char else g !! k).
  { intros k. rewrite iter_round_lookup.
    destruct (decide (occupied g k ∧ ¬ occupied (Nat.iter r round g) k))
      as [H|H].
    - rewrite decide_True; [done|].
      apply elem_of_difference. by rewrite !elem_of_occupied_set.
    - rewrite decide_False; [done|].
      rewrite elem_of_difference, !elem_of_occupied_set. exact H. }
  split; [|exact Hlook].
  apply set_eq. intros k. rewrite !elem_of_dom, Hlook.
  case_decide as Hk; [|done].
  apply elem_of_difference in Hk as [Hk _].
  apply elem_of_occupied_set in Hk. unfold occupied in Hk. rewrite Hk.
  split; intros _; by eexists.
Qed.

(** X4. Part 1 never exceeds Part 2, Part 2 never exceeds the number of rolls
    of the input and is the number of rolls that the loop removed, and one
    of the two is zero exactly when the other is. *)
Theorem part1_le_part2 g :
  ∃ total g',
    (∀ fuel, size (occupied_set g) < fuel →
             clearing_loop fuel g 0 = Some (total, g')
             ∧ part2 fuel g = Some total)
    ∧ part1 g ≤ total ≤ size (occupied_set g)
    ∧ total = size (occupied_set g) - size (occupied_set g')
    ∧ (total = 0 ↔ part1 g = 0).
Proof.
  destruct (clearing_loop_result g) as (r & Hstop & Hrun & Hloop).
  exists (cleared_in r g), (Nat.iter r round g). split; [|split; [|split]].
  - intros fuel Hfuel. unfold part2. by rewrite (Hloop fuel Hfuel).
  - pose proof (cleared_in_size r g) as Hsize.
    unfold part1. rewrite size_roll_access.
    split; [|lia]. destruct r as [|r]; cbn [cleared_in].
    + simpl in Hstop. rewrite Hstop, size_empty. lia.
    + lia.
  - pose proof (cleared_in_size r g). lia.
  - unfold part1. rewrite size_roll_access.
    destruct r as [|r]; cbn [cleared_in].
    + simpl in Hstop. by rewrite Hstop, size_empty.
    + assert (Hne : size (cleared g) ≠ 0).
      { rewrite size_cleared_0. apply (Hrun 0). lia. }
      lia.
Qed.

End Day4More.

(** ** Day 7: both parts *)

Section Day7More.
Import Day7 Day7PartA InputGrid.
Variable grid : gmap (Z * Z) ascii.
Variables grid_len row_len : Z.

Local Abbreviation paths := (Day7.paths grid grid_len row_len).
Local Abbreviation in_bounds := (Day7.in_bounds row_len).
Local Abbreviation beam_step := (Day7PartA.beam_step grid grid_len row_len).
Local Abbreviation run := (Day7PartA.run grid grid_len row_len).
Local Abbreviation above_splitter :=
  (Day7PartA.above_splitter grid grid_len).
Local Abbreviation traverse1 := (Day7PartA.traverse grid grid_len row_len).

Lemma paths_range_aux (n : nat) :
  ∀ y x, Z.to_nat (grid_len - y) ≤ n →
    (0 ≤ paths (y, x) ≤ 2 ^ Z.max 0 (grid_len - y))%Z.
Proof.
  induction n as [|n IH]; intros y x Hn; rewrite paths_unfold.
  - rewrite bool_decide_true by lia.
    replace (Z.max 0 (grid_len - y)) with 0%Z by lia. simpl. lia.
  - case_bool_decide as Hout.
    { replace (Z.max 0 (grid_len - y)) with 0%Z by lia. simpl. lia. }
    assert (Hpow : (2 ^ Z.max 0 (grid_len - y)
                    = 2 * 2 ^ Z.max 0 (grid_len - (y + 1)))%Z).
    { replace (Z.max 0 (grid_len - y))
        with (Z.succ (Z.max 0 (grid_len - (y + 1)))) by lia.
      apply Z.pow_succ_r. lia. }
    pose proof (IH (y + 1)%Z (x - 1)%Z ltac:(lia)) as Hl.
    pose proof (IH (y + 1)%Z (x + 1)%Z ltac:(lia)) as Hr.
    pose proof (IH (y + 1)%Z x ltac:(lia)) as Hd.
    assert (0 < 2 ^ Z.max 0 (grid_len - (y + 1)))%Z
      by (apply Z.pow_pos_nonneg; lia).
    repeat case_bool_decide;
      destruct (in_bounds (x - 1)), (in_bounds (x + 1)); lia.
Qed.

(** X5. The Part B count is never negative and never exceeds two to the
    number of rows below the position. *)
Theorem paths_bounds (pos : Z * Z) :
  (0 ≤ paths pos ≤ 2 ^ Z.max 0 (grid_len - pos.1))%Z.
Proof.
  destruct pos as [y x]. apply (paths_range_aux _ y x (Nat.le_refl _)).
Qed.

Lemma run_inv (pos : Z * Z) (p : list (Z * Z)) :
  run pos p ↔
  ((pos.1 + 1 > grid_len)%Z ∧ p = [])
  ∨ ∃ pos' p', beam_step pos pos' ∧ run pos' p' ∧ p = pos' :: p'.
Proof.
  split.
  - intros H. destruct H as [pos Hout|pos pos' p Hstep Hrun].
    + by left.
    + right. by exists pos', p.
  - intros [[Hout ->]|(pos' & p' & Hstep & Hrun & ->)].
    + by constructor.
    + by econstructor.
Qed.

Lemma runs_enumerated (n : nat) :
  ∀ y x, Z.to_nat (grid_len - y) ≤ n →
    ∃ l : list (list (Z * Z)),
      NoDup l ∧ (∀ p, p ∈ l ↔ run (y, x) p)
      ∧ paths (y, x) = Z.of_nat (length l).
Proof.
  induction n as [|n IH]; intros y x Hn.
  { exists [[]]. split; [apply NoDup_singleton|]. split.
    - intros p. rewrite list_elem_of_singleton, run_inv. cbn [fst snd].
      split; [intros ->; left; split; [lia|done]|].
      intros [[_ ->]|(pos' & p' & [Hin _] & _)]; [done|].
      cbn [fst] in Hin. lia.
    - rewrite paths_unfold, bool_decide_true by lia. done. }
  destruct (decide (y + 1 > grid_len)%Z) as [Hout|Hin].
  { exists [[]]. split; [apply NoDup_singleton|]. split.
    - intros p. rewrite list_elem_of_singleton, run_inv. cbn [fst snd].
      split; [intros ->; left; split; [lia|done]|].
      intros [[_ ->]|(pos' & p' & [Hin _] & _)]; [done|].
      cbn [fst] in Hin. lia.
    - rewrite paths_unfold, bool_decide_true by lia. done. }
  destruct (IH (y + 1)%Z (x - 1)%Z ltac:(lia)) as (ll & Hnl & Hml & Hcl).
  destruct (IH (y + 1)%Z (x + 1)%Z ltac:(lia)) as (lr & Hnr & Hmr & Hcr).
  destruct (IH (y + 1)%Z x ltac:(lia)) as (ld & Hnd & Hmd & Hcd).
  assert (Hcons : ∀ q : Z * Z, Inj (=) (=) (cons q)).
  { intros q p1 p2 [= ->]. done. }
  rewrite paths_unfold, bool_decide_false by lia.
  destruct (grid !! ((y + 1)%Z, x)) as [c|] eqn:Hcell.
  2: { exists []. split; [constructor|]. split.
       - intros p. rewrite elem_of_nil, run_inv. cbn [fst snd].
         split; [done|]. intros [[Hgt _]|(pos' & p' & [_ Hs] & _)]; [lia|].
         cbn [fst snd] in Hs. rewrite Hcell in Hs.
         destruct Hs as [[? _]|[? _]]; discriminate.
       - by rewrite !bool_decide_false by discriminate. }
  destruct (decide (c = "^"%char)) as [->|Hnot].
  - rewrite bool_decide_true by done.
    exists ((if in_bounds (x - 1) then cons ((y + 1)%Z, (x - 1)%Z) <$> ll else [])
            ++ (if in_bounds (x + 1) then cons ((y + 1)%Z, (x + 1)%Z) <$> lr
                else [])).
    split; [|split].
    + apply NoDup_app. split; [|split].
      * destruct (in_bounds (x - 1)); [by apply NoDup_fmap_2|constructor].
      * intros p Hp1 Hp2.
        destruct (in_bounds (x - 1)); [|by apply elem_of_nil in Hp1].
        destruct (in_bounds (x + 1)); [|by apply elem_of_nil in Hp2].
        apply list_elem_of_fmap in Hp1 as (p1 & -> & _).
        apply list_elem_of_fmap in Hp2 as (p2 & [= ?] & _). lia.
      * destruct (in_bounds (x + 1)); [by apply NoDup_fmap_2|constructor].
    + intros p. rewrite elem_of_app, run_inv. cbn [fst snd]. split.
      * intros [Hp|Hp]; right.
        -- destruct (in_bounds (x - 1)) eqn:Hb; [|by apply elem_of_nil in Hp].
           apply list_elem_of_fmap in Hp as (p' & -> & Hp').
           exists ((y + 1)%Z, (x - 1)%Z), p'. split; [|split; [by apply Hml|done]].
           split; [cbn; lia|]. right. cbn [fst snd]. split; [done|]. by left.
        -- destruct (in_bounds (x + 1)) eqn:Hb; [|by apply elem_of_nil in Hp].
           apply list_elem_of_fmap in Hp as (p' & -> & Hp').
           exists ((y + 1)%Z, (x + 1)%Z), p'. split; [|split; [by apply Hmr|done]].
           split; [cbn; lia|]. right. cbn [fst snd]. split; [done|]. by right.
      * intros [[Hgt _]|(pos' & p' & [_ Hs] & Hrun & ->)]; [lia|].
        cbn [fst snd] in Hs. rewrite Hcell in Hs.
        destruct Hs as [[? _]|[_ [[Hb ->]|[Hb ->]]]]; [discriminate| |].
        -- left. fold (in_bounds (x - 1)) in Hb. rewrite Hb.
           apply list_elem_of_fmap. exists p'. split; [done|]. by apply Hml.
        -- right. fold (in_bounds (x + 1)) in Hb. rewrite Hb.
           apply list_elem_of_fmap. exists p'. split; [done|]. by apply Hmr.
    + rewrite length_app, Nat2Z.inj_add.
      destruct (in_bounds (x - 1)), (in_bounds (x + 1));
        rewrite ?length_fmap; simpl; lia.
  - rewrite bool_decide_false by congruence.
    destruct (decide (c = "."%char)) as [->|Hnot'].
    + rewrite bool_decide_true by done.
      exists (cons ((y + 1)%Z, x) <$> ld). split; [by apply NoDup_fmap_2|].
      split; [|by rewrite length_fmap].
      intros p. rewrite list_elem_of_fmap, run_inv. cbn [fst snd]. split.
      * intros (p' & -> & Hp'). right.
        exists ((y + 1)%Z, x), p'. split; [|split; [by apply Hmd|done]].
        split; [cbn; lia|]. left. done.
      * intros [[Hgt _]|(pos' & p' & [_ Hs] & Hrun & ->)]; [lia|].
        cbn [fst snd] in Hs. rewrite Hcell in Hs.
        destruct Hs as [[_ ->]|[? _]]; [|discriminate].
        exists p'. split; [done|]. by apply Hmd.
    + rewrite bool_decide_false by congruence.
      exists []. split; [constructor|]. split; [|done].
      intros p. rewrite elem_of_nil, run_inv. cbn [fst snd].
      split; [done|]. intros [[Hgt _]|(pos' & p' & [_ Hs] & _)]; [lia|].
      cbn [fst snd] in Hs. rewrite Hcell in Hs.
      destruct Hs as [[? _]|[? _]]; congruence.
Qed.

(** X6. The Part B count is the number of distinct ways down: there is a
    duplicate-free list of exactly the ways from the position to the last
    row, and the count is its length. *)
Theorem paths_count_runs (pos : Z * Z) :
  ∃ l : list (list (Z * Z)),
    NoDup l ∧ (∀ p, p ∈ l ↔ run pos p) ∧ paths pos = Z.of_nat (length l).
Proof.
  destruct pos as [y x]. apply (runs_enumerated _ y x (Nat.le_refl _)).
Qed.

Lemma traverse1_S (fuel : nat) (y x : Z) (cache : gset (Z * Z)) (count : nat) :
  traverse1 (S fuel) (y, x) cache count
  = if bool_decide ((y, x) ∈ cache) then Some (cache, count)
    else
      let cache1 := cache ∪ {[(y, x)]} in
      if bool_decide (y + 1 > grid_len)%Z then Some (cache1, count)
      else if bool_decide (grid !! ((y + 1)%Z, x) = Some "^"%char) then
        st ← (if in_bounds (x - 1)
              then traverse1 fuel (y + 1, x - 1)%Z cache1 (count + 1)
              else Some (cache1, count + 1));
        if in_bounds (x + 1)
        then traverse1 fuel (y + 1, x + 1)%Z st.1 st.2
        else Some st
      else if bool_decide (grid !! ((y + 1)%Z, x) = Some "."%char) then
        traverse1 fuel (y + 1, x)%Z cache1 count
      else Some (cache1, count).
Proof.
  cbn [Day7PartA.traverse fst snd].
  change (dirs "d") with (1, 0)%Z.
  change (dirs "l") with (0, -1)%Z.
  change (dirs "r") with (0, 1)%Z.
  cbn [fst snd]. rewrite !Z.add_0_r. unfold Day7.in_bounds.
  change (x + -1)%Z with (x - 1)%Z. reflexivity.
Qed.

Lemma size_filter_difference (P : Z * Z → Prop) `{!∀ v, Decision (P v)}
    (A B C : gset (Z * Z)) :
  A ⊆ B → B ⊆ C →
  size (filter P (C ∖ A)) = size (filter P (B ∖ A)) + size (filter P (C ∖ B)).
Proof.
  intros HAB HBC. rewrite <- size_union.
  - f_equal. apply set_eq. intros v.
    rewrite elem_of_union, !elem_of_filter, !elem_of_difference.
    destruct (decide (v ∈ B)); set_solver.
  - apply elem_of_disjoint. intros v.
    rewrite !elem_of_filter, !elem_of_difference. tauto.
Qed.

Lemma size_filter_difference_self (P : Z * Z → Prop) `{!∀ v, Decision (P v)}
    (A : gset (Z * Z)) :
  size (filter P (A ∖ A)) = 0.
Proof.
  apply size_empty_iff. intros v.
  rewrite elem_of_filter, elem_of_difference. set_solver.
Qed.

(** What one call of [traverse] adds to the cache and to the counter. *)
Lemma traverse1_spec (n : nat) :
  ∀ y x cache count fuel,
    Z.to_nat (grid_len - y) ≤ n → n < fuel →
    ∃ cache' count',
      traverse1 fuel (y, x) cache count = Some (cache', count')
      ∧ cache ⊆ cache'
      ∧ (y, x) ∈ cache'
      ∧ (∀ v, v ∈ cache' → v ∉ cache → rtc beam_step (y, x) v)
      ∧ (∀ v w, v ∈ cache' → v ∉ cache → beam_step v w → w ∈ cache')
      ∧ count' = count + size (filter above_splitter (cache' ∖ cache)).
Proof.
  induction n as [n IH] using lt_wf_ind.
  intros y x cache count [|fuel] Hn Hfuel; [lia|].
  rewrite traverse1_S.
  case_bool_decide as Hseen.
  { exists cache, count. split; [done|]. split; [done|]. split; [done|].
    split; [done|]. split; [done|].
    rewrite size_filter_difference_self. lia. }
  cbn zeta. set (cache1 := cache ∪ {[(y, x)]}).
  assert (Hnew : cache1 ∖ cache = {[(y, x)]}) by set_solver.
  assert (Hsub1 : cache ⊆ cache1) by set_solver.
  assert (Hleaf : ¬ above_splitter (y, x) →
            (∀ w, ¬ beam_step (y, x) w) →
            ∃ cache' count',
              Some (cache1, count) = Some (cache', count')
              ∧ cache ⊆ cache'
              ∧ (y, x) ∈ cache'
              ∧ (∀ v, v ∈ cache' → v ∉ cache → rtc beam_step (y, x) v)
              ∧ (∀ v w, v ∈ cache' → v ∉ cache → beam_step v w → w ∈ cache')
              ∧ count' = count + size (filter above_splitter (cache' ∖ cache))).
  { intros Hno Hstuck. exists cache1, count.
    split; [done|]. split; [done|]. split; [set_solver|]. split; [|split].
    - intros v Hv Hv'. assert (v = (y, x)) as -> by set_solver. done.
    - intros v w Hv Hv' Hstep. assert (v = (y, x)) as -> by set_solver.
      by destruct (Hstuck w).
    - rewrite Hnew.
      replace (filter above_splitter ({[(y, x)]} : gset (Z * Z)))
        with (∅ : gset (Z * Z)); [rewrite size_empty; lia|].
      apply set_eq. intros v. rewrite elem_of_filter, elem_of_singleton.
      split; [set_solver|]. intros [Hv ->]. done. }
  case_bool_decide as Hout.
  { apply Hleaf.
    - intros [Hin _]. cbn [fst] in Hin. lia.
    - intros w [Hin _]. cbn [fst] in Hin. lia. }
  assert (Hrows : Z.to_nat (grid_len - (y + 1)) < n) by lia.
  assert (Hcall : ∀ x' c k,
            ∃ cache' count',
              traverse1 fuel (y + 1, x')%Z c k = Some (cache', count')
              ∧ c ⊆ cache'
              ∧ ((y + 1)%Z, x') ∈ cache'
              ∧ (∀ v, v ∈ cache' → v ∉ c → rtc beam_step ((y + 1)%Z, x') v)
              ∧ (∀ v w, v ∈ cache' → v ∉ c → beam_step v w → w ∈ cache')
              ∧ count' = k + size (filter above_splitter (cache' ∖ c))).
  { intros x' c k.
    apply (IH (Z.to_nat (grid_len - (y + 1))) Hrows); [done|lia]. }
  case_bool_decide as Hsplit.
  - (* a splitter below *)
    assert (Habove : above_splitter (y, x)) by (split; [cbn; lia|done]).
    assert (Hone : size (filter above_splitter (cache1 ∖ cache)) = 1).
    { rewrite Hnew.
      replace (filter above_splitter ({[(y, x)]} : gset (Z * Z)))
        with ({[(y, x)]} : gset (Z * Z)); [apply size_singleton|].
      apply set_eq. intros v. rewrite elem_of_filter, elem_of_singleton.
      split; [intros ->; done|tauto]. }
    assert (Hsteps : ∀ w, beam_step (y, x) w ↔
              (in_bounds (x - 1) = true ∧ w = ((y + 1)%Z, (x - 1)%Z))
              ∨ (in_bounds (x + 1) = true ∧ w = ((y + 1)%Z, (x + 1)%Z))).
    { intros w. unfold Day7PartA.beam_step. cbn [fst snd]. rewrite Hsplit.
      split; [intros [_ [[? _]|[_ H]]]; [discriminate|done]|].
      intros H. split; [lia|]. right. done. }
    (* left branch *)
    assert (Hleft : ∃ cache2 count2,
              (if in_bounds (x - 1)
               then traverse1 fuel (y + 1, x - 1)%Z cache1 (count + 1)
               else Some (cache1, count + 1)) = Some (cache2, count2)
              ∧ cache1 ⊆ cache2
              ∧ (in_bounds (x - 1) = true → ((y + 1)%Z, (x - 1)%Z) ∈ cache2)
              ∧ (∀ v, v ∈ cache2 → v ∉ cache1 → rtc beam_step (y, x) v)
              ∧ (∀ v w, v ∈ cache2 → v ∉ cache1 → beam_step v w → w ∈ cache2)
              ∧ count2 = count + 1
                         + size (filter above_splitter (cache2 ∖ cache1))).
    { destruct (in_bounds (x - 1)) eqn:Hb.
      - destruct (Hcall (x - 1)%Z cache1 (count + 1))
          as (c2 & k2 & Hrun & Hs & Hin & Hreach & Hclosed & Hk).
        exists c2, k2. split; [done|]. split; [done|]. split; [done|].
        split; [|done]. intros v Hv Hv'.
        eapply rtc_l; [|by apply Hreach]. apply Hsteps. by left.
      - exists cache1, (count + 1). split; [done|]. split; [done|].
        split; [done|]. split; [done|]. split; [done|].
        rewrite size_filter_difference_self. lia. }
    destruct Hleft as (cache2 & count2 & -> & Hs12 & Hl & Hreach2 & Hclosed2 & Hk2).
    cbn [mbind option_bind fst snd].
    assert (Hright : ∃ cache3 count3,
              (if in_bounds (x + 1)
               then traverse1 fuel (y + 1, x + 1)%Z cache2 count2
               else Some (cache2, count2)) = Some (cache3, count3)
              ∧ cache2 ⊆ cache3
              ∧ (in_bounds (x + 1) = true → ((y + 1)%Z, (x + 1)%Z) ∈ cache3)
              ∧ (∀ v, v ∈ cache3 → v ∉ cache2 → rtc beam_step (y, x) v)
              ∧ (∀ v w, v ∈ cache3 → v ∉ cache2 → beam_step v w → w ∈ cache3)
              ∧ count3 = count2
                         + size (filter above_splitter (cache3 ∖ cache2))).
    { destruct (in_bounds (x + 1)) eqn:Hb.
      - destruct (Hcall (x + 1)%Z cache2 count2)
          as (c3 & k3 & Hrun & Hs & Hin & Hreach & Hclosed & Hk).
        exists c3, k3. split; [done|]. split; [done|]. split; [done|].
        split; [|done]. intros v Hv Hv'.
        eapply rtc_l; [|by apply Hreach]. apply Hsteps. by right.
      - exists cache2, count2. split; [done|]. split; [done|].
        split; [done|]. split; [done|]. split; [done|].
        rewrite size_filter_difference_self. lia. }
    destruct Hright as (cache3 & count3 & -> & Hs23 & Hr & Hreach3 & Hclosed3 & Hk3).
    exists cache3, count3. split; [done|].
    split; [set_solver|]. split; [set_solver|]. split; [|split].
    + intros v Hv Hv'.
      destruct (decide (v ∈ cache2)) as [Hv2|Hv2]; [|by apply Hreach3].
      destruct (decide (v ∈ cache1)) as [Hv1|Hv1]; [|by apply Hreach2].
      assert (v = (y, x)) as -> by set_solver. done.
    + intros v w Hv Hv' Hstep.
      destruct (decide (v ∈ cache2)) as [Hv2|Hv2]; [|by eapply Hclosed3].
      destruct (decide (v ∈ cache1)) as [Hv1|Hv1].
      * assert (v = (y, x)) as -> by set_solver.
        apply Hsteps in Hstep as [[Hb ->]|[Hb ->]]; [|by apply Hr].
        apply Hs23. by apply Hl.
      * apply Hs23. by eapply Hclosed2.
    + rewrite (size_filter_difference _ cache cache1 cache3) by set_solver.
      rewrite (size_filter_difference _ cache1 cache2 cache3) by set_solver.
      lia.
  - case_bool_decide as Hdot.
    + (* straight down *)
      assert (Hsteps : ∀ w, beam_step (y, x) w ↔ w = ((y + 1)%Z, x)).
      { intros w. unfold Day7PartA.beam_step. cbn [fst snd]. rewrite Hdot.
        split; [intros [_ [[_ ?]|[? _]]]; [done|discriminate]|].
        intros ->. split; [lia|]. by left. }
      destruct (Hcall x cache1 count)
        as (cache2 & count2 & -> & Hs12 & Hin & Hreach & Hclosed & Hk).
      exists cache2, count2. split; [done|].
      split; [set_solver|]. split; [set_solver|]. split; [|split].
      * intros v Hv Hv'.
        destruct (decide (v ∈ cache1)) as [Hv1|Hv1].
        -- assert (v = (y, x)) as -> by set_solver. done.
        -- eapply rtc_l; [|by apply Hreach]. by apply Hsteps.
      * intros v w Hv Hv' Hstep.
        destruct (decide (v ∈ cache1)) as [Hv1|Hv1]; [|by eapply Hclosed].
        assert (v = (y, x)) as -> by set_solver.
        apply Hsteps in Hstep as ->. done.
      * rewrite (size_filter_difference _ cache cache1 cache2) by set_solver.
        assert (Hzero : size (filter above_splitter (cache1 ∖ cache)) = 0).
        { rewrite Hnew. apply size_empty_iff. intros v.
          rewrite elem_of_filter, elem_of_singleton.
          split; [|intros Hv; by apply elem_of_empty in Hv].
          intros [[_ Hv] ->]. cbn [fst snd] in Hv. congruence. }
        lia.
    + apply Hleaf.
      * intros [_ Hc]. cbn [fst snd] in Hc. done.
      * intros w [_ [[Hc _]|[Hc _]]]; cbn [fst snd] in Hc; done.
Qed.

(** X7. [traverse] of part A returns once its depth allowance exceeds the
    rows below the start; its cache is then exactly the set of positions the
    beam reaches, and its counter is the number of those positions that sit
    directly above a splitter, so that every splitter that is hit is
    counted once. *)
Theorem solve_1_counts_splitters (start : Z * Z) (extra : nat) :
  ∃ cache count,
    traverse1 (S (Z.to_nat (grid_len - start.1) + extra)) start ∅ 0
    = Some (cache, count)
    ∧ (∀ v, v ∈ cache ↔ rtc beam_step start v)
    ∧ count = size (filter above_splitter cache).
Proof.
  destruct start as [y x]. cbn [fst].
  destruct (traverse1_spec _ y x ∅ 0
              (S (Z.to_nat (grid_len - y) + extra)) (Nat.le_refl _))
    as (cache & count & Hrun & _ & Hstart & Hreach & Hclosed & Hcount);
    [lia|].
  exists cache, count. split; [done|]. split.
  - intros v. split.
    + intros Hv. apply Hreach; [done|]. apply not_elem_of_empty.
    + revert v. apply rtc_ind_r; [done|]. intros u w _ Hstep IH.
      eapply Hclosed; [exact IH|apply not_elem_of_empty|done].
  - rewrite Hcount. by rewrite difference_empty_L.
Qed.

End Day7More.

(** ** Day 7: reading the grid *)

Section Day7Input.
Import Day7 Day7PartA InputGrid.

Lemma day7_grid_char_at (lines : list (list ascii)) (y x : Z) :
  Day7.build_grid lines !! (y, x) = char_at lines y x.
Proof. exact (build_grid_char_at lines y x). Qed.

(** The scan of one line for ["S"]. *)
Lemma find_start_row (line : list ascii) (Y : Z) (sp0 : option (Z * Z)) :
  let r := foldl (λ sp (xc : nat * ascii),
                    if bool_decide (xc.2 = "S"%char)
                    then Some (Y, Z.of_nat xc.1) else sp)
                 sp0 (imap pair line) in
  (r = sp0 ∧ ∀ i, line !! i ≠ Some "S"%char)
  ∨ ∃ i, r = Some (Y, Z.of_nat i) ∧ line !! i = Some "S"%char
         ∧ ∀ j, line !! j = Some "S"%char → j ≤ i.
Proof.
  induction line as [|c line IH] using rev_ind.
  { left. split; [done|]. intros i. by rewrite lookup_nil. }
  cbn zeta in *. rewrite imap_app, foldl_app. cbn [imap foldl fst snd].
  rewrite Nat.add_0_r.
  case_bool_decide as Hc.
  - subst c. right. exists (length line). split; [done|].
    split; [by apply list_lookup_middle|].
    intros j Hj. apply lookup_lt_Some in Hj. rewrite length_app in Hj.
    simpl in Hj. lia.
  - destruct IH as [[Hr Hno]|(i & Hr & Hi & Hmax)].
    + left. split; [done|]. intros j Hj.
      destruct (decide (j < length line)) as [Hlt|Hge].
      * rewrite lookup_app_l in Hj by done. by apply (Hno j).
      * apply lookup_lt_Some in Hj as Hj'. rewrite length_app in Hj'.
        simpl in Hj'. assert (j = length line) as -> by lia.
        rewrite list_lookup_middle in Hj by done. congruence.
    + right. exists i. split; [done|]. split.
      * by apply lookup_app_l_Some.
      * intros j Hj.
        destruct (decide (j < length line)) as [Hlt|Hge].
        -- rewrite lookup_app_l in Hj by done. by apply Hmax.
        -- apply lookup_lt_Some in Hj as Hj'. rewrite length_app in Hj'.
           simpl in Hj'. assert (j = length line) as -> by lia.
           rewrite list_lookup_middle in Hj by done. congruence.
Qed.

Lemma char_at_Some (lines : list (list ascii)) (y x : Z) (c : ascii) :
  char_at lines y x = Some c ↔
  (0 ≤ y)%Z ∧ (0 ≤ x)%Z
  ∧ ∃ line, lines !! Z.to_nat y = Some line ∧ line !! Z.to_nat x = Some c.
Proof.
  unfold char_at. case_bool_decide as H.
  - destruct (lines !! Z.to_nat y) as [line|]; cbn [mbind option_bind].
    + split; [intros Hc; split; [tauto|split; [tauto|by exists line]]|].
      intros (_ & _ & line' & [= <-] & Hc). done.
    + split; [done|]. intros (_ & _ & line' & ? & _). done.
  - split; [done|]. intros (? & ? & _). tauto.
Qed.

(** X8. [start_pos] is the position of the last ["S"] of the file in
    reading order, the dictionary holds ["S"] there, and [start_pos] stays
    unbound exactly when the file has no ["S"]. *)
Theorem find_start_last (lines : list (list ascii)) :
  match find_start lines with
  | Some (y, x) =>
      Day7.build_grid lines !! (y, x) = Some "S"%char
      ∧ ∀ y' x', Day7.build_grid lines !! (y', x') = Some "S"%char →
                 (y' < y ∨ y' = y ∧ x' ≤ x)%Z
  | None => ∀ y x, Day7.build_grid lines !! (y, x) ≠ Some "S"%char
  end.
Proof.
  unfold find_start.
  induction lines as [|line lines IH] using rev_ind.
  { simpl. intros y x. rewrite day7_grid_char_at, char_at_Some.
    intros (_ & _ & l & Hl & _). by rewrite lookup_nil in Hl. }
  rewrite imap_app, foldl_app. cbn [imap foldl fst snd]. rewrite Nat.add_0_r.
  set (sp0 := foldl _ None (imap pair lines)) in *.
  assert (Hlast : ∀ y x c, char_at (lines ++ [line]) y x = Some c ↔
            char_at lines y x = Some c
            ∨ (y = Z.of_nat (length lines) ∧ (0 ≤ x)%Z
               ∧ line !! Z.to_nat x = Some c)).
  { intros y x c. rewrite !char_at_Some. split.
    - intros (Hy & Hx & l & Hl & Hc).
      destruct (decide (Z.to_nat y < length lines)) as [Hlt|Hge].
      + left. rewrite lookup_app_l in Hl by done.
        split; [done|]. split; [done|]. by exists l.
      + right. apply lookup_lt_Some in Hl as Hl'. rewrite length_app in Hl'.
        simpl in Hl'. assert (Hy' : Z.to_nat y = length lines) by lia.
        rewrite Hy', list_lookup_middle in Hl by done. injection Hl as <-.
        split; [lia|done].
    - intros [(Hy & Hx & l & Hl & Hc)|(-> & Hx & Hc)].
      + split; [done|]. split; [done|]. exists l.
        split; [by apply lookup_app_l_Some|done].
      + split; [lia|]. split; [done|]. exists line.
        split; [|done]. rewrite Nat2Z.id. by apply list_lookup_middle. }
  assert (Hold : ∀ y x c, char_at lines y x = Some c →
            (y < Z.of_nat (length lines))%Z).
  { intros y x c. rewrite char_at_Some. intros (Hy & _ & l & Hl & _).
    apply lookup_lt_Some in Hl. lia. }
  destruct (find_start_row line (Z.of_nat (length lines)) sp0)
    as [[-> Hno]|(i & -> & Hi & Hmax)].
  - (* no ["S"] in the last line *)
    destruct sp0 as [[y x]|].
    + destruct IH as [HS Hle]. rewrite day7_grid_char_at in HS. split.
      * rewrite day7_grid_char_at. apply Hlast. by left.
      * intros y' x'. rewrite day7_grid_char_at, Hlast.
        intros [H|(_ & _ & H)]; [|by destruct (Hno _ H)].
        apply Hle. by rewrite day7_grid_char_at.
    + intros y x. rewrite day7_grid_char_at, Hlast.
      intros [H|(_ & _ & H)]; [|by destruct (Hno _ H)].
      apply (IH y x). by rewrite day7_grid_char_at.
  - split.
    + rewrite day7_grid_char_at. apply Hlast. right.
      split; [done|]. split; [lia|]. by rewrite Nat2Z.id.
    + intros y' x'. rewrite day7_grid_char_at, Hlast.
      intros [H|(-> & Hx & H)].
      * left. by eapply Hold.
      * right. split; [done|]. specialize (Hmax _ H). lia.
Qed.

End Day7Input.

(** ** Day 8: the group table and the connected components *)

Section Day8More.
Import Day8 Day8Spec Day8Graph.

(** One iteration of the loop of [p1], for every [iter] and
    [total_coords]. *)
Lemma p1_loop_step {D} (a b : point) (d : D) (rest : list (point * point * D))
    (i : nat) (iter : bound) (tc : option nat) (c : gmap point nat)
    (gid : nat) :
  p1_loop ((a, b, d) :: rest) i iter tc c gid
  = if reached i iter then (c, None)
    else
      let st := connect (c, gid) (a, b) in
      if bool_decide (is_Some (c !! a) ∧ is_Some (c !! b)) then
        p1_loop rest (S i) iter tc st.1 st.2
      else if all_in_one_group tc st.1 then (st.1, Some (a, b))
      else p1_loop rest (S i) iter tc st.1 st.2.
Proof.
  cbn [p1_loop connect]. destruct (reached i iter); [done|].
  destruct (c !! a) as [ga|] eqn:Ha, (c !! b) as [gb|] eqn:Hb; cbn zeta.
  - rewrite (bool_decide_true (is_Some (Some ga) ∧ is_Some (Some gb)));
      [|split; eauto].
    cbn [fst snd]. case_bool_decide as Hg; [done|].
    subst gb. by rewrite relabel_same.
  - rewrite (bool_decide_false (is_Some (Some ga) ∧ is_Some None));
      [done|]. by intros [_ [? ?]].
  - rewrite (bool_decide_false (is_Some None ∧ is_Some (Some gb)));
      [done|]. by intros [[? ?] _].
  - rewrite (bool_decide_false (is_Some None ∧ is_Some None));
      [done|]. by intros [[? ?] _].
Qed.

(** The table [p1] ends with is the fold of [connect] over a prefix of the
    distance list; without a point count the prefix is as long as [iter]
    allows. *)
Lemma p1_loop_prefix {D} (distances : list (point * point * D))
    (iter : bound) (tc : option nat) :
  ∀ i c gid, ∃ m,
    m ≤ length distances
    ∧ (p1_loop distances i iter tc c gid).1
      = (foldl connect (c, gid) (fst <$> take m distances)).1
    ∧ (tc = None →
       m = match iter with
           | Finite n => (n - i) `min` length distances
           | Infinity => length distances
           end).
Proof.
  induction distances as [|[[a b] d] rest IH]; intros i c gid.
  { exists 0. split; [done|]. split; [done|].
    intros _. destruct iter; simpl; lia. }
  rewrite p1_loop_step. destruct (reached i iter) eqn:Hr.
  { exists 0. split; [simpl; lia|]. split; [done|].
    intros _. destruct iter as [n|]; [|done].
    apply Nat.leb_le in Hr. simpl. lia. }
  cbn zeta. set (st := connect (c, gid) (a, b)).
  assert (Hrec : ∃ m, m ≤ length ((a, b, d) :: rest)
            ∧ (p1_loop rest (S i) iter tc st.1 st.2).1
              = (foldl connect (c, gid)
                   (fst <$> take m ((a, b, d) :: rest))).1
            ∧ (tc = None →
               m = match iter with
                   | Finite n => (n - i) `min` length ((a, b, d) :: rest)
                   | Infinity => length ((a, b, d) :: rest)
                   end)).
  { destruct (IH (S i) st.1 st.2) as (m & Hm & Heq & Hnone).
    exists (S m). split; [simpl; lia|]. split.
    - rewrite Heq. cbn [take fmap list_fmap foldl fst]. fold st.
      by rewrite <- surjective_pairing.
    - intros Htc. specialize (Hnone Htc). destruct iter as [n|].
      + apply Nat.leb_gt in Hr. simpl. lia.
      + simpl. lia. }
  case_bool_decide; [done|].
  destruct (all_in_one_group tc st.1) eqn:Hall; [|done].
  exists 1. split; [simpl; lia|]. split; [done|].
  intros ->. discriminate.
Qed.

Lemma linked_mono (es es' : list (point * point)) (p q : point) :
  es ⊆ es' → linked es p q → linked es' p q.
Proof.
  intros Hsub. unfold linked.
  apply (rtsc_congruence id). intros x y. apply Hsub.
Qed.

Lemma linked_edge (es : list (point * point)) (a b : point) :
  (a, b) ∈ es → linked es a b.
Proof. intros Hin. by apply rtsc_lr. Qed.

(** Adding one edge joins the two classes of its endpoints and nothing
    else. *)
Lemma linked_snoc (es : list (point * point)) (a b p q : point) :
  linked (es ++ [(a, b)]) p q
  ↔ linked es p q
    ∨ (linked es p a ∧ linked es b q)
    ∨ (linked es p b ∧ linked es a q).
Proof.
  assert (Hsub : es ⊆ es ++ [(a, b)]).
  { intros e He. apply elem_of_app. by left. }
  assert (Hab : linked (es ++ [(a, b)]) a b).
  { apply linked_edge, elem_of_app. right. by apply list_elem_of_singleton. }
  split.
  - unfold linked at 1, rtsc. intros Hrtc.
    induction Hrtc as [p|p p' q Hstep _ IH]; [left; reflexivity|].
    assert (Hs : linked es p p' ∨ (p = a ∧ p' = b) ∨ (p = b ∧ p' = a)).
    { destruct Hstep as [Hin|Hin]; apply elem_of_app in Hin as [Hin|Hin].
      - left. by apply rtsc_lr.
      - apply list_elem_of_singleton in Hin. injection Hin as -> ->. tauto.
      - left. by apply rtsc_rl.
      - apply list_elem_of_singleton in Hin. injection Hin as -> ->. tauto. }
    destruct Hs as [Hs|[[-> ->]|[-> ->]]].
    + destruct IH as [IH|[[IH1 IH2]|[IH1 IH2]]].
      * left. by etrans.
      * right; left. split; [by etrans|done].
      * right; right. split; [by etrans|done].
    + destruct IH as [IH|[[IH1 IH2]|[IH1 IH2]]].
      * right; left. split; [reflexivity|done].
      * left. etrans; [symmetry; exact IH1|exact IH2].
      * by left.
    + destruct IH as [IH|[[IH1 IH2]|[IH1 IH2]]].
      * right; right. split; [reflexivity|done].
      * by left.
      * left. etrans; [symmetry; exact IH1|exact IH2].
  - intros [H|[[H1 H2]|[H1 H2]]].
    + by apply (linked_mono es).
    + etrans; [apply (linked_mono es _ _ _ Hsub H1)|].
      etrans; [exact Hab|]. by apply (linked_mono es).
    + etrans; [apply (linked_mono es _ _ _ Hsub H1)|].
      etrans; [symmetry; exact Hab|]. by apply (linked_mono es).
Qed.

Lemma linked_nil (p q : point) : linked [] p q ↔ p = q.
Proof.
  split; [|intros ->; reflexivity].
  unfold linked, rtsc. intros Hrtc.
  destruct Hrtc as [|p p' q [Hin|Hin] _]; [done| |];
    by apply elem_of_nil in Hin.
Qed.

Lemma lookup_relabel (c : gmap point nat) (old new : nat) (x : point) :
  relabel c old new !! x
  = (λ g, if bool_decide (g = old) then new else g) <$> c !! x.
Proof. unfold relabel. by rewrite lookup_fmap. Qed.

(** Group ids stay below the counter. *)
Lemma connect_fresh (c : gmap point nat) (gid : nat) (e : point * point) :
  (∀ x g, c !! x = Some g → g < gid) →
  ∀ x g, (connect (c, gid) e).1 !! x = Some g → g < (connect (c, gid) e).2.
Proof.
  intros Hfresh x g. destruct e as [a b]. cbn [connect].
  destruct (c !! a) as [ga|] eqn:Ha, (c !! b) as [gb|] eqn:Hb; cbn [fst snd].
  - rewrite lookup_relabel. destruct (c !! x) as [gx|] eqn:Hx; [|done].
    simpl. intros [= <-]. case_bool_decide; eauto.
  - intros [[-> <-]|[_ Hx]]%lookup_insert_Some; eauto.
  - intros [[-> <-]|[_ Hx]]%lookup_insert_Some; eauto.
  - intros [[-> <-]|[_ [[-> <-]|[_ Hx]]%lookup_insert_Some]]%lookup_insert_Some;
      [lia|lia|]. apply Hfresh in Hx. lia.
Qed.

(** The points in the table are the endpoints seen so far. *)
Lemma connect_dom (c : gmap point nat) (gid : nat) (a b x : point) :
  is_Some ((connect (c, gid) (a, b)).1 !! x)
  ↔ is_Some (c !! x) ∨ x = a ∨ x = b.
Proof.
  cbn [connect].
  destruct (c !! a) as [ga|] eqn:Ha, (c !! b) as [gb|] eqn:Hb; cbn [fst].
  - rewrite lookup_relabel, fmap_is_Some. split; [tauto|].
    intros [?|[->| ->]]; [done|by eexists|by eexists].
  - rewrite lookup_insert_is_Some.
    destruct (decide (b = x)) as [Heq|Hne]; [naive_solver|].
    split; [tauto|].
    intros [?|[Hx|Hx]]; [tauto| |by destruct Hne].
    right. split; [done|]. rewrite Hx, Ha. by eexists.
  - rewrite lookup_insert_is_Some.
    destruct (decide (a = x)) as [Heq|Hne]; [naive_solver|].
    split; [tauto|].
    intros [?|[Hx|Hx]]; [tauto|by destruct Hne|].
    right. split; [done|]. rewrite Hx, Hb. by eexists.
  - rewrite !lookup_insert_is_Some.
    destruct (decide (b = x)); [naive_solver|].
    destruct (decide (a = x)); [naive_solver|].
    split; [tauto|]. intros [?|[Hx|Hx]]; [tauto|by subst|by subst].
Qed.

(** What one step of the loop does to the partition the table stands for:
    the classes of the two endpoints are joined. *)
Lemma connect_same (c : gmap point nat) (gid : nat) (a b p q : point) :
  (∀ x g, c !! x = Some g → g < gid) →
  same_group (connect (c, gid) (a, b)).1 p q
  ↔ same_group c p q
    ∨ (same_group c p a ∧ same_group c b q)
    ∨ (same_group c p b ∧ same_group c a q).
Proof.
  intros Hfresh. unfold same_group. cbn [connect].
  destruct (c !! a) as [ga|] eqn:Ha, (c !! b) as [gb|] eqn:Hb; cbn [fst].
  - rewrite !lookup_relabel.
    destruct (c !! p) as [gp|] eqn:Hp, (c !! q) as [gq|] eqn:Hq; simpl.
    + repeat case_bool_decide; naive_solver.
    + naive_solver.
    + naive_solver.
    + naive_solver.
  - destruct (decide (p = b)) as [Hpb|Hpb], (decide (q = b)) as [Hqb|Hqb];
      simplify_map_eq; naive_solver.
  - destruct (decide (p = a)) as [Hpa|Hpa], (decide (q = a)) as [Hqa|Hqa];
      simplify_map_eq; naive_solver.
  - assert (Hlt : ∀ x, c !! x = Some gid → False).
    { intros x Hx. apply Hfresh in Hx. lia. }
    destruct (decide (p = b)) as [Hpb|Hpb], (decide (q = b)) as [Hqb|Hqb],
      (decide (p = a)) as [Hpa|Hpa], (decide (q = a)) as [Hqa|Hqa];
      simplify_map_eq; naive_solver.
Qed.

Lemma foldl_connect_inv (es : list (point * point)) :
  let st := foldl connect (∅, 1) es in
  (∀ x g, st.1 !! x = Some g → g < st.2)
  ∧ (∀ p q, same_group st.1 p q ↔ linked es p q)
  ∧ (∀ x, is_Some (st.1 !! x) ↔ ∃ e, e ∈ es ∧ (x = e.1 ∨ x = e.2)).
Proof.
  induction es as [|[a b] es IH] using rev_ind; cbn zeta.
  { cbn [foldl fst snd]. split; [|split].
    - intros x g. by rewrite lookup_empty.
    - intros p q. rewrite linked_nil. unfold same_group.
      split; [|by left]. intros [?|(g & Hg & _)]; [done|].
      by rewrite lookup_empty in Hg.
    - intros x. rewrite lookup_empty. split; [by intros [? ?]|].
      intros (e & He & _). by apply elem_of_nil in He. }
  rewrite foldl_snoc. cbn zeta in IH.
  destruct (foldl connect (∅, 1) es) as [c gid]. cbn [fst snd] in IH.
  destruct IH as (Hfresh & Hsame & Hdom). split; [|split].
  - by apply connect_fresh.
  - intros p q. rewrite connect_same, linked_snoc, !Hsame by done. done.
  - intros x. rewrite connect_dom, Hdom. split.
    + intros [(e & He & Hx)|Hx].
      * exists e. split; [|done]. apply elem_of_app. by left.
      * exists (a, b). split; [|done].
        apply elem_of_app. right. by apply list_elem_of_singleton.
    + intros (e & [He| ->%list_elem_of_singleton]%elem_of_app & Hx).
      * left. by exists e.
      * by right.
Qed.

(** X9.  The group table of [p1] stands for the connected components of
    the edges it has processed.  For every distance list, [iter] and
    [total_coords] there is a number [m] of processed edges, all that
    [iter] allows when [total_coords] is [None], such that the points in
    the final [connections] are the endpoints of the first [m] edges, and
    two of them carry the same group id exactly when a chain of those
    edges links them. *)
Theorem p1_groups_are_components {D} (distances : list (point * point * D))
    (iter : bound) (total_coords : option nat) :
  ∃ m,
    m ≤ length distances
    ∧ (total_coords = None → m = edge_budget iter (length distances))
    ∧ let connections := (p1_loop distances 0 iter total_coords ∅ 1).1 in
      let edges := fst <$> take m distances in
      (∀ a, is_Some (connections !! a)
            ↔ ∃ e, e ∈ edges ∧ (a = e.1 ∨ a = e.2))
      ∧ (∀ a b ga gb,
           connections !! a = Some ga → connections !! b = Some gb →
           (ga = gb ↔ linked edges a b)).
Proof.
  destruct (p1_loop_prefix distances iter total_coords 0 ∅ 1)
    as (m & Hm & Heq & Hnone).
  exists m. split; [done|]. split.
  { intros Htc. rewrite (Hnone Htc). unfold edge_budget.
    destruct iter; [|done]. by rewrite Nat.sub_0_r. }
  cbn zeta. rewrite Heq.
  destruct (foldl_connect_inv (fst <$> take m distances))
    as (_ & Hsame & Hdom).
  split; [exact Hdom|].
  intros a b ga gb Ha Hb. rewrite <- Hsame. unfold same_group. split.
  - intros ->. right. by exists gb.
  - intros [->|(g & Hga & Hgb)]; congruence.
Qed.

Lemma group_sizes_lookup (c : gmap point nat) (g : nat) :
  group_sizes c !! g
  = if decide (size (filter (λ kv, kv.2 = g) c) = 0) then None
    else Some (size (filter (λ kv, kv.2 = g) c)).
Proof.
  unfold group_sizes. revert g.
  pose (P := λ (r : gmap nat nat) (m : gmap point nat),
    ∀ g, r !! g = if decide (size (filter (λ kv, kv.2 = g) m) = 0) then None
                  else Some (size (filter (λ kv, kv.2 = g) m))).
  apply (map_fold_weak_ind P); unfold P; clear P.
  { intros g. by rewrite map_filter_empty, map_size_empty, lookup_empty. }
  intros p x m r Hp IH g.
  destruct (decide (g = x)) as [->|Hne].
  - rewrite lookup_insert_eq, map_filter_insert_True by done.
    rewrite map_size_insert_None
      by (apply map_lookup_filter_None; by left).
    rewrite IH. destruct (decide (S _ = 0)) as [|_]; [lia|].
    f_equal. destruct (decide (_ = 0)) as [->|]; simpl; lia.
  - rewrite lookup_insert_ne by done.
    rewrite map_filter_insert_not'; [apply IH|simpl; congruence|].
    intros y Hy. by rewrite Hp in Hy.
Qed.

(** X10.  The dictionary [groups] built at the end of [p1] has one entry
    for every group id in use, and the entry is the number of points that
    carry the id. *)
Theorem group_sizes_counts (connections : gmap point nat) (g : nat) :
  (is_Some (group_sizes connections !! g)
   ↔ ∃ p, connections !! p = Some g)
  ∧ default 0 (group_sizes connections !! g)
    = size (filter (λ kv, kv.2 = g) connections).
Proof.
  rewrite group_sizes_lookup.
  destruct (decide (size (filter (λ kv, kv.2 = g) connections) = 0))
    as [Hz|Hnz].
  - split; [|by rewrite Hz]. split; [by intros [? ?]|].
    intros (p & Hp). apply map_size_empty_iff in Hz.
    assert (Hin : filter (λ kv, kv.2 = g) connections !! p = Some g).
    { by apply map_lookup_filter_Some. }
    by rewrite Hz, lookup_empty in Hin.
  - split; [|done]. split; [|by eexists]. intros _.
    apply map_size_non_empty_iff, map_choose in Hnz as (p & g' & Hp).
    apply map_lookup_filter_Some in Hp as [Hp Hg]. simpl in Hg. subst g'.
    by exists p.
Qed.

Lemma p1_loop_reported {D} (t : nat) (iter : bound)
    (distances : list (point * point * D)) :
  ∀ i c gid c' e,
    p1_loop distances i iter (Some t) c gid = (c', Some e) →
    all_in_one_group (Some t) c' = true.
Proof.
  induction distances as [|[[a b] d] rest IH]; intros i c gid c' e Hloop;
    [discriminate|].
  rewrite p1_loop_step in Hloop. destruct (reached i iter); [discriminate|].
  cbn zeta in Hloop. case_bool_decide; [by eapply IH|].
  destruct (all_in_one_group (Some t) (connect (c, gid) (a, b)).1) eqn:Hall;
    [|by eapply IH].
  by injection Hloop as <- _.
Qed.

Lemma top3_product_single_group (t : nat) (c : gmap point nat) :
  all_in_one_group (Some t) c = true → top3_product (group_sizes c) = t.
Proof.
  unfold all_in_one_group.
  rewrite !andb_true_iff, negb_true_iff, !Nat.eqb_eq, Nat.eqb_neq.
  intros [[Ht Hsize] Himg].
  apply size_1_elem_of in Himg as [g Himg].
  assert (Hall : ∀ p g', c !! p = Some g' → g' = g).
  { intros p g' Hp.
    assert (Hin : g' ∈ (map_img c : gset nat)).
    { apply elem_of_map_img. by exists p. }
    rewrite Himg in Hin. by apply elem_of_singleton in Hin. }
  assert (Hgs : group_sizes c = {[g := t]}).
  { apply map_eq. intros g'. rewrite group_sizes_lookup.
    destruct (decide (g' = g)) as [->|Hne].
    - rewrite lookup_singleton_eq.
      replace (filter (λ kv : point * nat, kv.2 = g) c) with c.
      + rewrite Hsize. by destruct (decide (t = 0)).
      + symmetry. apply map_filter_id. intros p g' Hp. simpl. by eapply Hall.
    - rewrite lookup_singleton_ne by done.
      replace (filter (λ kv : point * nat, kv.2 = g') c)
        with (∅ : gmap point nat); [done|].
      symmetry. apply map_empty_filter. intros p g'' Hp Hg. simpl in Hg.
      apply Hall in Hp. congruence. }
  rewrite Hgs. unfold top3_product. rewrite map_to_list_singleton.
  simpl. lia.
Qed.

(** X11.  Whenever [p1] reports a last connection, the product it returns
    with it is [total_coords]: all points are in one group then, so the
    sorted list of group sizes has the single entry [total_coords]. *)
Theorem p1_reported_product {D} (distances : list (point * point * D))
    (iter : bound) (total_coords : nat) (e : point * point) :
  (p1 distances iter (Some total_coords)).2 = Some e →
  (p1 distances iter (Some total_coords)).1 = total_coords.
Proof.
  unfold p1.
  destruct (p1_loop distances 0 iter (Some total_coords) ∅ 1)
    as [c last] eqn:Hloop.
  cbn [fst snd]. intros ->.
  apply top3_product_single_group. by eapply p1_loop_reported.
Qed.

Lemma p1_reported_product_witness :
  (p1 chain_distances Infinity (Some 3)).2
  = Some ((1, 0, 0), (3, 0, 0))%Z
  ∧ (p1 chain_distances Infinity (Some 3)).1 = 3.
Proof.
  assert (H : (p1 chain_distances Infinity (Some 3)).2
              = Some ((1, 0, 0), (3, 0, 0))%Z) by (vm_compute; reflexivity).
  split; [exact H|]. exact (p1_reported_product _ _ _ _ H).
Defined.

End Day8More.

(** ** Day 10: presses and the outcomes of the search *)

Section Day10More.
Import Day10 Day10Spec Day10Cells.

Lemma press_loop_cells (button : list Z) :
  ∀ l,
    match press_loop l button with
    | Some l' =>
        length l' = length l
        ∧ Forall (λ idx, is_Some (py_index (length l) idx)) button
        ∧ ∀ j c, l !! j = Some c →
                 l' !! j = Some (Nat.iter (hits (length l) button j) flip c)
    | None => ∃ idx, idx ∈ button ∧ py_index (length l) idx = None
    end.
Proof.
  induction button as [|idx rest IH]; intros l.
  { cbn [press_loop]. split; [done|]. split; [constructor|done]. }
  cbn [press_loop].
  destruct (py_index (length l) idx) as [i|] eqn:Hi; cbn [mbind option_bind].
  2:{ exists idx. split; [by left|done]. }
  destruct (lookup_lt_is_Some_2 l i (py_index_lt _ _ _ Hi)) as [c0 Hc0].
  rewrite Hc0. cbn [mbind option_bind]. fold (flip c0).
  specialize (IH (<[i := flip c0]> l)). rewrite length_insert in IH.
  destruct (press_loop (<[i := flip c0]> l) rest) as [l'|].
  - destruct IH as (Hlen & Hrange & Hcells). split; [done|]. split.
    { constructor; [by rewrite Hi|done]. }
    intros j c Hj. unfold hits. rewrite filter_cons.
    destruct (decide (i = j)) as [->|Hne].
    + rewrite decide_True by done. cbn [length].
      rewrite Nat.iter_succ_r.
      apply Hcells. rewrite list_lookup_insert_eq by by eapply lookup_lt_Some.
      congruence.
    + rewrite decide_False by congruence.
      apply Hcells. by rewrite list_lookup_insert_ne.
  - destruct IH as (idx' & Hin & Hbad). exists idx'. split; [by right|done].
Qed.

(** X12.  [press_button] raises exactly when one of the button's indices
    is outside the list, whatever its position in the button; otherwise it
    returns a list of the same length in which every light has been
    toggled once for each entry of the button that addresses it (negative
    entries count from the end). *)
Theorem press_button_cells (curr_light : list ascii) (button : list Z) :
  match press_button curr_light button with
  | Some next_light =>
      length next_light = length curr_light
      ∧ Forall (λ idx, is_Some (py_index (length curr_light) idx)) button
      ∧ ∀ j c, curr_light !! j = Some c →
               next_light !! j
               = Some (Nat.iter (hits (length curr_light) button j) flip c)
  | None => ∃ idx, idx ∈ button ∧ py_index (length curr_light) idx = None
  end.
Proof. apply press_loop_cells. Qed.

Lemma press_button_Some (l l' : list ascii) (b : list Z) :
  press_button l b = Some l' →
  length l' = length l
  ∧ Forall (λ idx, is_Some (py_index (length l) idx)) b
  ∧ ∀ j c, l !! j = Some c →
           l' !! j = Some (Nat.iter (hits (length l) b j) flip c).
Proof.
  intros H. pose proof (press_loop_cells b l) as Hc.
  unfold press_button in H. by rewrite H in Hc.
Qed.

Lemma press_button_None (l : list ascii) (b : list Z) :
  press_button l b = None →
  ¬ Forall (λ idx, is_Some (py_index (length l) idx)) b.
Proof.
  intros H. pose proof (press_loop_cells b l) as Hc.
  unfold press_button in H. rewrite H in Hc.
  destruct Hc as (idx & Hin & Hbad). rewrite Forall_forall. intros Hall.
  specialize (Hall idx Hin). rewrite Hbad in Hall. by destruct Hall.
Qed.

(** Two presses commute, also when one of them raises. *)
Lemma press_swap (l : list ascii) (b1 b2 : list Z) :
  press_all l [b1; b2] = press_all l [b2; b1].
Proof.
  cbn [press_all].
  destruct (press_button l b1) as [l1|] eqn:H1,
           (press_button l b2) as [l2|] eqn:H2; cbn [mbind option_bind].
  - apply press_button_Some in H1 as (Hlen1 & Hr1 & Hc1).
    apply press_button_Some in H2 as (Hlen2 & Hr2 & Hc2).
    destruct (press_loop_defined b2 l1) as (l12 & H12 & _);
      [by rewrite Hlen1|].
    destruct (press_loop_defined b1 l2) as (l21 & H21 & _);
      [by rewrite Hlen2|].
    fold (press_button l1 b2) in H12. fold (press_button l2 b1) in H21.
    rewrite H12, H21. cbn [mbind option_bind].
    apply press_button_Some in H12 as (Hlen12 & _ & Hc12).
    apply press_button_Some in H21 as (Hlen21 & _ & Hc21).
    f_equal. apply list_eq. intros j.
    destruct (l !! j) as [c|] eqn:Hj.
    + rewrite (Hc12 j _ (Hc1 j c Hj)), (Hc21 j _ (Hc2 j c Hj)).
      rewrite Hlen1, Hlen2, <- !Nat.iter_add. f_equal. f_equal. lia.
    + apply lookup_ge_None in Hj.
      rewrite (lookup_ge_None_2 l12), (lookup_ge_None_2 l21); [done|lia|lia].
  - apply press_button_Some in H1 as (Hlen1 & _ & _).
    apply press_button_None in H2.
    destruct (press_button l1 b2) as [l12|] eqn:H12; [|done].
    apply press_button_Some in H12 as (_ & Hr & _).
    rewrite Hlen1 in Hr. done.
  - apply press_button_Some in H2 as (Hlen2 & _ & _).
    apply press_button_None in H1.
    destruct (press_button l2 b1) as [l21|] eqn:H21; [|done].
    apply press_button_Some in H21 as (_ & Hr & _).
    rewrite Hlen2 in Hr. done.
  - done.
Qed.

(** X13.  The outcome of a sequence of presses does not depend on the
    order of the presses: two sequences that are permutations of each
    other produce the same list, or both raise. *)
Theorem press_all_permutation (l : list ascii) (bs bs' : list (list Z)) :
  bs ≡ₚ bs' → press_all l bs = press_all l bs'.
Proof.
  intros Hperm. revert l.
  induction Hperm as [|b bs bs' _ IH|b1 b2 bs|bs1 bs2 bs3 _ IH1 _ IH2];
    intros l.
  - done.
  - cbn [press_all]. destruct (press_button l b); [apply IH|done].
  - change (b2 :: b1 :: bs) with ([b2; b1] ++ bs).
    change (b1 :: b2 :: bs) with ([b1; b2] ++ bs).
    by rewrite !press_all_app, press_swap.
  - by rewrite IH1.
Qed.

Lemma press_all_permutation_witness :
  [[0; 2]; [0; 1]]%Z ≡ₚ [[0; 1]; [0; 2]]%Z
  ∧ press_all (all_off example_light) [[0; 2]; [0; 1]]%Z
    = press_all (all_off example_light) [[0; 1]; [0; 2]]%Z.
Proof.
  assert (H : [[0; 2]; [0; 1]]%Z ≡ₚ [[0; 1]; [0; 2]]%Z) by apply perm_swap.
  split; [exact H|]. exact (press_all_permutation _ _ _ H).
Defined.

Lemma flip_flip (c : ascii) :
  c = "."%char ∨ c = "#"%char → flip (flip c) = c.
Proof. by intros [-> | ->]. Qed.

Lemma iter_flip_even (n : nat) (c : ascii) :
  c = "."%char ∨ c = "#"%char → Nat.iter (n + n) flip c = c.
Proof.
  intros Hc. induction n as [|n IH]; [done|].
  replace (S n + S n) with (S (S (n + n))) by lia.
  rewrite !Nat.iter_succ_r, flip_flip by done. exact IH.
Qed.

(** X14.  On a list of ["."] and ["#"], pressing the same button twice
    restores the list, provided the button names existing lights. *)
Theorem press_twice (l : list ascii) (b : list Z) :
  on_off l →
  Forall (λ idx, is_Some (py_index (length l) idx)) b →
  press_all l [b; b] = Some l.
Proof.
  intros Hl Hb. cbn [press_all].
  destruct (press_loop_defined b l Hb) as (l1 & H1 & Hlen1).
  fold (press_button l b) in H1. rewrite H1. cbn [mbind option_bind].
  destruct (press_loop_defined b l1) as (l2 & H2 & Hlen2);
    [by rewrite Hlen1|].
  fold (press_button l1 b) in H2. rewrite H2. cbn [mbind option_bind].
  apply press_button_Some in H1 as (_ & _ & Hc1).
  apply press_button_Some in H2 as (_ & _ & Hc2).
  f_equal. apply list_eq. intros j.
  destruct (l !! j) as [c|] eqn:Hj.
  - rewrite (Hc2 j _ (Hc1 j c Hj)), Hlen1, <- Nat.iter_add.
    f_equal. apply iter_flip_even.
    unfold on_off in Hl. rewrite Forall_forall in Hl. apply Hl.
    by eapply list_elem_of_lookup_2.
  - apply lookup_ge_None in Hj. apply lookup_ge_None_2. lia.
Qed.

Lemma press_twice_witness :
  press_all example_light [[1; 3]; [1; 3]]%Z = Some example_light.
Proof.
  apply press_twice.
  - unfold on_off, example_light.
    repeat (apply Forall_cons; split); try apply Forall_nil_2; auto.
  - repeat (apply Forall_cons; split); try apply Forall_nil_2;
      vm_compute; eexists; reflexivity.
Defined.

Lemma completes_S_2 (light : list ascii) (buttons : list (list Z))
    (l l' : list ascii) (b : list Z) (m : nat) :
  b ∈ buttons → press_button l b = Some l' →
  completes light buttons l' m → completes light buttons l (S m).
Proof.
  intros Hb Hl' (bs & Hbs & Hlen & Hpress). exists (b :: bs).
  split; [by constructor|]. split; [simpl; lia|].
  cbn [press_all]. by rewrite Hl'.
Qed.

Lemma completes_dec (light : list ascii) (buttons : list (list Z)) (m : nat) :
  ∀ l, completes light buttons l m ∨ ¬ completes light buttons l m.
Proof.
  induction m as [|m IH]; intros l.
  { destruct (decide (l = light)) as [->|Hne].
    - left. by exists [].
    - right. by intros ?%completes_0. }
  assert (Hsub : ∀ bs : list (list Z),
            (∃ b l', b ∈ bs ∧ press_button l b = Some l'
                     ∧ completes light buttons l' m)
            ∨ ¬ (∃ b l', b ∈ bs ∧ press_button l b = Some l'
                         ∧ completes light buttons l' m)).
  { induction bs as [|b bs [IHbs|IHbs]].
    - right. intros (b & _ & Hb & _). by apply elem_of_nil in Hb.
    - left. destruct IHbs as (b' & l' & Hb' & Hrest).
      exists b', l'. split; [by right|done].
    - destruct (press_button l b) as [l'|] eqn:Hl'.
      + destruct (IH l') as [Hc|Hc].
        * left. exists b, l'. split; [by left|done].
        * right. intros (b' & l'' & [->|Hb']%elem_of_cons & Hp & Hc').
          -- rewrite Hl' in Hp. injection Hp as <-. done.
          -- apply IHbs. by exists b', l''.
      + right. intros (b' & l'' & [->|Hb']%elem_of_cons & Hp & Hc').
        * congruence.
        * apply IHbs. by exists b', l''. }
  destruct (Hsub buttons) as [(b & l' & Hb & Hp & Hc)|Hnone].
  - left. by eapply completes_S_2.
  - right. intros (b & l' & Hrest)%completes_S. apply Hnone. by exists b, l'.
Qed.

Lemma least_element (P : nat → Prop) :
  (∀ n, P n ∨ ¬ P n) → ∀ n, P n → ∃ k, P k ∧ ∀ m, P m → k ≤ m.
Proof.
  intros Hdec.
  assert (Hscan : ∀ n, (∃ k, P k ∧ ∀ m, P m → k ≤ m)
                       ∨ ∀ m, m < n → ¬ P m).
  { induction n as [|n [IH|IH]].
    - right. intros m Hm. lia.
    - by left.
    - destruct (Hdec n) as [Hn|Hn].
      + left. exists n. split; [done|]. intros m Hm.
        destruct (decide (m < n)) as [Hlt|]; [|lia]. by destruct (IH m Hlt).
      + right. intros m Hm. destruct (decide (m = n)) as [->|]; [done|].
        apply IH. lia. }
  intros n Hn. destruct (Hscan (S n)) as [?|Hnone]; [done|].
  destruct (Hnone n); [lia|done].
Qed.

Lemma min_positive_exists (light : list ascii) (buttons : list (list Z))
    (n : nat) :
  1 ≤ n → completes light buttons (all_off light) n →
  ∃ k, min_positive light buttons k.
Proof.
  intros Hn Hc.
  destruct (least_element
              (λ m, 1 ≤ m ∧ completes light buttons (all_off light) m))
    with (n := n) as (k & [Hk Hck] & Hleast).
  - intros m. destruct (decide (1 ≤ m)) as [Hm|Hm]; [|right; tauto].
    destruct (completes_dec light buttons m (all_off light)); tauto.
  - done.
  - exists k. split; [done|]. split; [done|]. intros m Hm Hcm.
    by apply Hleast.
Qed.

(** More iterations do not change an outcome that was reached. *)
Lemma search_mono (light : list ascii) (buttons : list (list Z))
    (fuel extra : nat) :
  ∀ queue visited,
    search fuel light buttons queue visited ≠ OutOfFuel →
    search (fuel + extra) light buttons queue visited
    = search fuel light buttons queue visited.
Proof.
  induction fuel as [|fuel IH]; intros queue visited; [done|].
  cbn [Nat.add search]. destruct queue as [|[[curr b] p] queue']; [done|].
  case_bool_decide; [apply IH|].
  destruct (expand light curr p buttons queue'); [done|apply IH|done].
Qed.

(** A button that raises is met in the first expansion, unless the target
    is produced before. *)
Lemma expand_raises (light curr : list ascii) (p : nat)
    (bs : list (list Z)) :
  (∃ b, b ∈ bs ∧ press_button curr b = None) →
  ∀ queue,
    expand light curr p bs queue = Raised
    ∨ (expand light curr p bs queue = Hit (p + 1)
       ∧ ∃ b, b ∈ bs ∧ press_button curr b = Some light).
Proof.
  induction bs as [|b bs IH]; intros (b' & Hb' & Hbad) queue.
  { by apply elem_of_nil in Hb'. }
  cbn [expand]. destruct (press_button curr b) as [l'|] eqn:Hl'; [|by left].
  case_bool_decide as Heq.
  { right. split; [done|]. exists b. subst l'. split; [by left|done]. }
  apply elem_of_cons in Hb' as [->|Hb']; [congruence|].
  destruct (IH (ex_intro _ b' (conj Hb' Hbad)) (queue ++ [(l', b, p + 1)]))
    as [Hr|[Hh (b'' & Hb'' & Hp)]]; [by left|].
  right. split; [done|]. exists b''. split; [by right|done].
Qed.

Section SearchOutcomes.
Variable light : list ascii.
Variable buttons : list (list Z).
Hypothesis Hrange : buttons_in_range light buttons.
Hypothesis Hne : buttons ≠ [].

(** As long as some queued entry is unvisited the queue is never
    exhausted, and nothing is raised. *)
Lemma search_sound (fuel : nat) :
  ∀ queue visited,
    queue_inv light buttons queue visited →
    (∃ x : node, x ∈ queue ∧ (x.1.1, x.2, x.1.2) ∉ visited) →
    match search fuel light buttons queue visited with
    | Found n => 1 ≤ n ∧ completes light buttons (all_off light) n
    | OutOfFuel => True
    | Drained | IndexError => False
    end.
Proof.
  induction fuel as [|fuel IH]; intros queue visited Hinv (x & Hx & Hxv);
    [done|].
  destruct queue as [|h rest]; [by apply elem_of_nil in Hx|].
  pose proof (inv_nodes _ _ _ _ Hinv) as Hn.
  apply Forall_cons in Hn as [[Hlen (bs & Hbs & Hbslen & Hreach)] _].
  destruct (search_step light buttons Hrange h rest visited Hinv)
    as [(Hv & Hs)|[(Hv & Hhit & Hs)|(Hv & Hno & Hs)]]; rewrite Hs.
  - apply IH; [by eapply queue_inv_tail|].
    exists x. split; [|done]. by apply elem_of_cons in Hx as [->|Hx].
  - split; [lia|]. destruct Hhit as (b & Hb & Hpress).
    exists (bs ++ [b]). split; [|split].
    + apply Forall_app. split; [done|]. by apply Forall_singleton.
    + rewrite length_app. simpl. lia.
    + rewrite press_all_app, Hreach. cbn [mbind option_bind press_all].
      by rewrite Hpress.
  - apply IH; [by apply queue_inv_expand|].
    assert (Hb : ∃ b, b ∈ buttons).
    { destruct buttons as [|b ?]; [done|]. exists b. by left. }
    destruct Hb as [b Hb].
    destruct (press_button_defined light buttons h.1.1 b Hrange Hlen Hb)
      as (l' & Hl' & _).
    exists (l', b, h.2 + 1). split.
    + apply elem_of_app. right. apply elem_of_children. by exists b.
    + cbn [fst snd].
      intros [Hin|Hin%elem_of_singleton]%elem_of_union.
      * destruct (inv_head _ _ _ _ Hinv h rest eq_refl) as [_ Hvis].
        specialize (Hvis _ Hin). simpl in Hvis. lia.
      * injection Hin. lia.
Qed.

Lemma p1_step_sound (fuel : nat) :
  match p1_step fuel light buttons with
  | Found n => 1 ≤ n ∧ completes light buttons (all_off light) n
  | OutOfFuel => True
  | Drained | IndexError => False
  end.
Proof.
  unfold p1_step. fold (all_off light).
  apply search_sound; [by apply initial_queue_inv|].
  destruct buttons as [|b bs]; [done|].
  exists (all_off light, b, 0). split; [by left|]. apply not_elem_of_empty.
Qed.

End SearchOutcomes.

Lemma p1_step_outcome_sound (fuel : nat) (light : list ascii)
    (buttons : list (list Z)) :
  match p1_step fuel light buttons with
  | Found n => min_positive light buttons n
  | Drained => buttons = []
  | IndexError => ¬ buttons_in_range light buttons
  | OutOfFuel => True
  end.
Proof.
  destruct (decide (buttons = [])) as [->|Hne].
  { destruct fuel; done. }
  destruct (decide (buttons_in_range light buttons)) as [Hrange|Hbad].
  - pose proof (p1_step_sound light buttons Hrange Hne fuel) as Hs.
    destruct (p1_step fuel light buttons) as [n| | |] eqn:Hp; try done.
    destruct Hs as [Hn Hc].
    destruct (min_positive_exists light buttons n Hn Hc) as [k Hk].
    destruct (p1_step_min_positive light buttons k Hrange Hk) as [f0 Hf0].
    assert (Hmono : p1_step (fuel + f0) light buttons = Found n).
    { unfold p1_step in *. rewrite search_mono; [done|]. by rewrite Hp. }
    specialize (Hf0 fuel). rewrite (Nat.add_comm f0 fuel), Hmono in Hf0.
    by injection Hf0 as ->.
  - destruct fuel as [|fuel]; [done|].
    assert (Hb : ∃ b, b ∈ buttons ∧ press_button (all_off light) b = None).
    { unfold buttons_in_range in Hbad.
      apply not_Forall_Exists in Hbad; [|apply _].
      apply Exists_exists in Hbad as (b & Hb & Hnot). exists b.
      split; [done|].
      destruct (press_button (all_off light) b) as [l'|] eqn:Hl'; [|done].
      apply press_button_Some in Hl' as (_ & Hr & _).
      unfold all_off in Hr. rewrite length_replicate in Hr. done. }
    unfold p1_step. fold (all_off light).
    assert (Hq : ∃ b0 bs, (λ b, (all_off light, b, 0)) <$> buttons
                           = (all_off light, b0, 0)
                             :: ((λ b, (all_off light, b, 0)) <$> bs)).
    { destruct buttons as [|b0 bs]; [done|]. by exists b0, bs. }
    destruct Hq as (b0 & bs & ->). cbn [search].
    rewrite bool_decide_false by apply not_elem_of_empty.
    destruct (expand_raises light (all_off light) 0 buttons Hb
                ((λ b, (all_off light, b, 0)) <$> bs))
      as [->|[-> (b & Hin & Hpress)]]; [done|].
    split; [simpl; lia|]. split; [|intros; simpl; lia].
    exists [b]. split; [by apply Forall_singleton|]. split; [done|].
    cbn [press_all]. by rewrite Hpress.
Qed.

(** X15.  What each way of ending a step of [p1] tells, for every number
    of loop iterations: a value appended to [min_presses] is the least
    positive number of presses that produces the target; the queue runs
    empty only when the machine has no buttons; an [IndexError] is raised
    only when a button names a light that does not exist. *)
Theorem p1_step_outcomes (fuel : nat) (light : list ascii)
    (buttons : list (list Z)) :
  match p1_step fuel light buttons with
  | Found n => min_positive light buttons n
  | Drained => buttons = []
  | IndexError => ¬ buttons_in_range light buttons
  | OutOfFuel => True
  end.
Proof. apply p1_step_outcome_sound. Qed.

(** X16.  For a machine with at least one button, all of whose buttons
    name existing lights: when no positive number of presses produces the
    target, the [while] loop of [p1] never ends.  The visited keys contain
    the press count, so every expansion queues entries that are new, and
    the step runs out of every number of iterations. *)
Theorem p1_step_diverges (light : list ascii) (buttons : list (list Z)) :
  buttons ≠ [] →
  buttons_in_range light buttons →
  (∀ m, 1 ≤ m → ¬ completes light buttons (all_off light) m) →
  ∀ fuel, p1_step fuel light buttons = OutOfFuel.
Proof.
  intros Hne Hrange Hnone fuel.
  pose proof (p1_step_sound light buttons Hrange Hne fuel) as Hs.
  destruct (p1_step fuel light buttons) as [n| | |]; try done.
  destruct Hs as [Hn Hc]. by destruct (Hnone n Hn).
Qed.

Lemma second_light_stays_off (bs : list (list Z)) :
  ∀ l l',
    Forall (λ b, b ∈ [[0%Z]]) bs →
    l !! 1 = Some "."%char → length l = 2 →
    press_all l bs = Some l' → l' !! 1 = Some "."%char.
Proof.
  induction bs as [|b bs IH]; intros l l' Hbs Hl Hlen Hpress.
  { simpl in Hpress. congruence. }
  apply Forall_cons in Hbs as [Hb Hbs].
  apply list_elem_of_singleton in Hb as ->.
  cbn [press_all] in Hpress.
  destruct (press_button l [0%Z]) as [l1|] eqn:H1; [|discriminate].
  apply press_button_Some in H1 as (Hlen1 & _ & Hc1).
  apply (IH l1 l' Hbs); [|congruence|done].
  rewrite (Hc1 1 _ Hl), Hlen. reflexivity.
Qed.

Lemma p1_step_diverges_witness :
  p1_step 1000 ["."; "#"]%char [[0%Z]] = OutOfFuel.
Proof.
  apply p1_step_diverges.
  - discriminate.
  - repeat (apply Forall_cons; split); try apply Forall_nil_2;
      vm_compute; eexists; reflexivity.
  - intros m _ (bs & Hbs & _ & Hpress).
    apply second_light_stays_off in Hpress; [discriminate|done..].
Defined.

(** X17.  Whatever [p1] returns is the sum, over the steps, of the least
    positive number of presses of each machine; a machine without buttons
    adds nothing to the sum. *)
Theorem p1_sound (fuel : nat) (steps : list (list ascii * list (list Z)))
    (total : nat) :
  p1 fuel steps = Some total →
  ∃ ks,
    Forall2 (λ step k, (step.2 = [] ∧ k = 0)
                       ∨ min_positive step.1 step.2 k) steps ks
    ∧ total = foldr Nat.add 0 ks.
Proof.
  revert total. induction steps as [|[light buttons] rest IH]; intros total.
  { intros [= <-]. exists []. split; [constructor|done]. }
  cbn [p1]. pose proof (p1_step_outcome_sound fuel light buttons) as Hs.
  destruct (p1_step fuel light buttons) as [n| | |]; [| |done|done].
  - destruct (p1 fuel rest) as [s|]; [|done]. intros [= <-].
    destruct (IH s eq_refl) as (ks & Hks & ->).
    exists (n :: ks). split; [|done]. constructor; [by right|done].
  - intros Hrest. destruct (IH total Hrest) as (ks & Hks & ->).
    exists (0 :: ks). split; [|done]. constructor; [by left|done].
Qed.

Lemma p1_sound_witness :
  p1 40 [(example_light, example_buttons); (["."%char], [])] = Some 2
  ∧ ∃ ks,
      Forall2 (λ step k, (step.2 = [] ∧ k = 0)
                         ∨ min_positive step.1 step.2 k)
              [(example_light, example_buttons); (["."%char], [])] ks
      ∧ 2 = foldr Nat.add 0 ks.
Proof.
  assert (H : p1 40 [(example_light, example_buttons); (["."%char], [])]
              = Some 2) by (vm_compute; reflexivity).
  split; [exact H|]. exact (p1_sound _ _ _ H).
Defined.

End Day10More.

(** ** Day 2: the scans and the totals of the two scripts *)

Section Day2More.
Import Py Day2Spec.

(** An exact double is a general repetition, with the half as the unit. *)
Lemma exact_double_general (s : list ascii) :
  0 < length s → exact_double s → general_repetition s.
Proof.
  unfold exact_double, general_repetition. cbv zeta.
  intros Hpos [[k Hk] Hhalves].
  assert (Hhalf : length s / 2 = k).
  { rewrite Hk, Nat.mul_comm. apply Nat.div_mul. lia. }
  rewrite Hhalf in Hhalves.
  replace (length s - k) with k in Hhalves by lia.
  exists k. split; [exists 2; lia|]. split; [lia|].
  replace (length s / k) with 2.
  - unfold str_mul. simpl. rewrite app_nil_r.
    rewrite Hhalves at 2. by rewrite take_drop.
  - rewrite Hk. symmetry. apply Nat.div_mul. lia.
Qed.

Lemma part1_implies_part2 (n : Z) :
  (0 < n)%Z →
  (Day2Agent.is_invalid_part1 n = true → Day2Agent.is_invalid_part2 n = true)
  ∧ (Day02.is_double n = true → Day02.is_pattern n = true).
Proof.
  intros Hn.
  rewrite (is_invalid_part1_spec n Hn), (is_invalid_part2_spec n Hn),
    (is_double_spec n Hn), (is_pattern_spec n Hn).
  split; apply exact_double_general, str_pos_length, Hn.
Qed.

Lemma foldl_add_le {A} (F G : A → Z) (l : list A) :
  (∀ r, r ∈ l → (F r ≤ G r)%Z) →
  ∀ a b, (a ≤ b)%Z →
    (foldl (λ acc r, acc + F r) a l ≤ foldl (λ acc r, acc + G r) b l)%Z.
Proof.
  induction l as [|r l IH]; intros Hle a b Hab; [done|].
  cbn [foldl]. apply IH.
  - intros r' Hr'. apply Hle. by right.
  - specialize (Hle r ltac:(by left)). lia.
Qed.

Lemma foldl_add_ext {A} (F G : A → Z) (l : list A) :
  (∀ r, r ∈ l → F r = G r) →
  ∀ a, foldl (λ acc r, acc + F r)%Z a l = foldl (λ acc r, acc + G r)%Z a l.
Proof.
  induction l as [|r l IH]; intros Heq a; [done|].
  cbn [foldl]. rewrite (Heq r) by by left. apply IH.
  intros r' Hr'. apply Heq. by right.
Qed.

(** *** Numbers that are not positive *)

Lemma str_neg (p : positive) :
  str (Z.neg p) = "-"%char :: str (Z.pos p).
Proof. reflexivity. Qed.

Lemma digits_no_minus (s : list ascii) :
  Forall is_digit s → "-"%char ∉ s.
Proof.
  intros Hs Hin. rewrite Forall_forall in Hs. specialize (Hs _ Hin).
  unfold is_digit in Hs.
  repeat (apply elem_of_cons in Hs as [Hs|Hs]; [discriminate|]).
  by apply elem_of_nil in Hs.
Qed.

Lemma elem_of_drop_inv {A} (x : A) (m : nat) (l : list A) :
  x ∈ drop m l → x ∈ l.
Proof.
  intros Hin. rewrite <- (take_drop m l). apply elem_of_app. by right.
Qed.

Lemma elem_of_take_inv {A} (x : A) (m : nat) (l : list A) :
  x ∈ take m l → x ∈ l.
Proof.
  intros Hin. rewrite <- (take_drop m l). apply elem_of_app. by left.
Qed.

(** A string that starts with its only minus sign is not made of two
    equal halves. *)
Lemma minus_head_halves (ds : list ascii) (m : nat) :
  "-"%char ∉ ds → 1 ≤ m →
  take m ("-"%char :: ds) ≠ drop m ("-"%char :: ds).
Proof.
  intros Hno Hm Heq. destruct m as [|m]; [lia|]. simpl in Heq.
  apply Hno, (elem_of_drop_inv _ m). rewrite <- Heq. by left.
Qed.

(** Nor is it a repetition of one of its prefixes. *)
Lemma minus_head_repeat (ds : list ascii) (d k : nat) :
  "-"%char ∉ ds → 1 ≤ d → 2 ≤ k →
  str_mul (take d ("-"%char :: ds)) k ≠ "-"%char :: ds.
Proof.
  intros Hno Hd Hk Heq.
  destruct d as [|d]; [lia|]. destruct k as [|[|k]]; [lia|lia|].
  rewrite !str_mul_S in Heq. cbn [take] in Heq.
  simpl in Heq. injection Heq as Heq.
  apply Hno. rewrite <- Heq. apply elem_of_app. right. by left.
Qed.

Lemma part2_loop_minus (ds : list ascii) (candidates : list nat) :
  "-"%char ∉ ds → Forall (λ d, 1 ≤ d) candidates →
  Day2Agent.part2_loop ("-"%char :: ds) (length ("-"%char :: ds)) candidates
  = false.
Proof.
  intros Hno. induction candidates as [|d rest IH]; intros Hall; [done|].
  apply Forall_cons in Hall as [Hd Hall]. cbn [Day2Agent.part2_loop].
  destruct (negb (length ("-"%char :: ds) mod d =? 0)); [by apply IH|].
  cbv zeta.
  destruct (2 <=? length ("-"%char :: ds) / d) eqn:Hk; [|by apply IH].
  apply Nat.leb_le in Hk.
  rewrite bool_decide_false by by apply minus_head_repeat.
  by apply IH.
Qed.

Lemma backref_minus (ds : list ascii) (d fuel : nat) :
  "-"%char ∉ ds → 1 ≤ d →
  Day02.backref_plus_end fuel (take d ("-"%char :: ds))
    (drop d ("-"%char :: ds)) = false.
Proof.
  intros Hno Hd. destruct fuel as [|fuel]; [done|].
  cbn [Day02.backref_plus_end]. rewrite bool_decide_false; [done|].
  destruct d as [|d]; [lia|]. cbn [take drop]. intros Heq.
  apply Hno, (elem_of_drop_inv _ d), (elem_of_take_inv _ (length ("-"%char :: take d ds))).
  rewrite Heq. by left.
Qed.

Lemma negative_ids (p : positive) :
  Day02.is_double (Z.neg p) = false
  ∧ Day02.is_pattern (Z.neg p) = false
  ∧ Day2Agent.is_invalid_part1 (Z.neg p) = false
  ∧ Day2Agent.is_invalid_part2 (Z.neg p) = false.
Proof.
  assert (Hno : "-"%char ∉ str (Z.pos p)).
  { apply digits_no_minus, str_pos_digits. lia. }
  assert (Hlen : 0 < length (str (Z.pos p))) by (apply str_pos_length; lia).
  assert (Hstrip : lstrip "0" ("-"%char :: str (Z.pos p))
                   = "-"%char :: str (Z.pos p)).
  { apply lstrip_id. simpl. congruence. }
  assert (Hhalf : 1 ≤ length ("-"%char :: str (Z.pos p)) / 2).
  { cbn [length]. apply (Nat.div_le_lower_bound _ 2 1); lia. }
  split; [|split; [|split]].
  - unfold Day02.is_double. cbv zeta. rewrite str_neg, Hstrip.
    apply bool_decide_eq_false. by apply minus_head_halves.
  - unfold Day02.is_pattern, Day02.fullmatch_repeat. cbv zeta.
    rewrite str_neg, Hstrip. apply not_true_is_false.
    intros (d & Hd & Ht)%existsb_exists.
    apply in_seq in Hd. apply andb_true_iff in Ht as [_ Ht].
    rewrite backref_minus in Ht by (done || lia). discriminate.
  - unfold Day2Agent.is_invalid_part1. cbv zeta. rewrite str_neg.
    destruct (_ <? 2); [done|]. destruct (negb _); [done|].
    apply bool_decide_eq_false. by apply minus_head_halves.
  - unfold Day2Agent.is_invalid_part2. cbv zeta. rewrite str_neg.
    destruct (_ <? 2); [done|]. apply part2_loop_minus; [done|].
    apply Forall_forall. intros d Hd%elem_of_seq. lia.
Qed.

Lemma ids_not_positive (n : Z) :
  (n ≤ 0)%Z →
  Day2Agent.is_invalid_part1 n = false
  ∧ Day2Agent.is_invalid_part2 n = false
  ∧ Day02.is_pattern n = false
  ∧ (Day02.is_double n = true ↔ n = 0%Z).
Proof.
  intros Hn. destruct n as [|p|p]; [|lia|].
  - split; [by vm_compute|]. split; [by vm_compute|].
    split; [by vm_compute|]. split; [done|]. intros _. by vm_compute.
  - destruct (negative_ids p) as (H1 & H2 & H3 & H4).
    split; [done|]. split; [done|]. split; [done|].
    rewrite H1. split; [discriminate|lia].
Qed.

(** X18.  Outside the positive numbers the tests of the two scripts
    differ in one place: no negative number is marked by any of them, and
    [0] is marked by the Part 1 test of [day02/main.py] alone, whose
    stripped string is empty and so has two equal halves. *)
Theorem nonpositive_ids (n : Z) :
  (n ≤ 0)%Z →
  Day2Agent.is_invalid_part1 n = false
  ∧ Day2Agent.is_invalid_part2 n = false
  ∧ Day02.is_pattern n = false
  ∧ (Day02.is_double n = true ↔ n = 0%Z).
Proof. apply ids_not_positive. Qed.

Lemma nonpositive_ids_witness :
  Day2Agent.is_invalid_part1 (-1212) = false
  ∧ Day2Agent.is_invalid_part2 (-1212) = false
  ∧ Day02.is_pattern (-1212) = false
  ∧ (Day02.is_double (-1212) = true ↔ (-1212 = 0)%Z).
Proof. apply (nonpositive_ids (-1212)). lia. Defined.

Lemma tests_agree_nonzero (n : Z) :
  n ≠ 0%Z →
  Day02.is_double n = Day2Agent.is_invalid_part1 n
  ∧ Day02.is_pattern n = Day2Agent.is_invalid_part2 n.
Proof.
  intros Hn. destruct (decide (0 < n)%Z) as [Hpos|Hneg].
  - split; apply eq_true_iff_eq.
    + by rewrite (is_double_spec n Hpos), (is_invalid_part1_spec n Hpos).
    + by rewrite (is_pattern_spec n Hpos), (is_invalid_part2_spec n Hpos).
  - destruct (ids_not_positive n) as (H1 & H2 & H3 & H4); [lia|].
    rewrite H1, H2, H3. split; [|done].
    apply not_true_is_false. intros Ht. apply H4 in Ht. done.
Qed.

Lemma marked_positive (n : Z) :
  (Day2Agent.is_invalid_part1 n = true → 0 < n)%Z
  ∧ (Day2Agent.is_invalid_part2 n = true → 0 < n)%Z
  ∧ (Day02.is_pattern n = true → 0 < n)%Z
  ∧ (Day02.is_double n = true → 0 ≤ n)%Z.
Proof.
  destruct (decide (0 < n)%Z) as [Hpos|Hneg].
  { repeat split; intros; lia. }
  destruct (ids_not_positive n) as (H1 & H2 & H3 & H4); [lia|].
  rewrite H1, H2, H3. repeat split; try discriminate.
  intros Ht. apply H4 in Ht. lia.
Qed.

Lemma sum_filter_agree_nonzero (f g : Z → bool) (l : list Z) :
  (∀ x, x ≠ 0%Z → f x = g x) →
  sum (List.filter f l) = sum (List.filter g l).
Proof.
  intros Hfg. induction l as [|a l IH]; [done|]. cbn [List.filter].
  destruct (decide (a = 0%Z)) as [->|Hne].
  - destruct (f 0%Z), (g 0%Z); unfold sum in *; simpl; lia.
  - rewrite (Hfg a Hne). destruct (g a); unfold sum in *; simpl; lia.
Qed.

Lemma sum_filter_le_marked (f g : Z → bool) (l : list Z) :
  (∀ x, f x = true → x ≠ 0%Z → g x = true) →
  (∀ x, g x = true → (0 ≤ x)%Z) →
  (sum (List.filter f l) ≤ sum (List.filter g l))%Z.
Proof.
  intros Himp Hpos. induction l as [|a l IH]; [done|]. cbn [List.filter].
  destruct (f a) eqn:Hf, (g a) eqn:Hg; unfold sum in *; simpl.
  - lia.
  - destruct (decide (a = 0%Z)) as [->|Hne]; [lia|].
    rewrite (Himp a Hf Hne) in Hg. discriminate.
  - specialize (Hpos a Hg). lia.
  - lia.
Qed.

(** X19.  The two Day 2 scripts compute the same two totals on every list
    of integer ranges: the sums accumulated by the two loops of [main] in
    [day02/main.py] are the values of [calculate_invalid_sum] with
    [is_invalid_part1] and with [is_invalid_part2].  The one number on
    which the tests differ, [0], adds nothing to a sum. *)
Theorem day2_totals_agree (ranges : list (Z * Z)) :
  Day02.main ranges
  = (Day2Agent.calculate_invalid_sum ranges Day2Agent.is_invalid_part1,
     Day2Agent.calculate_invalid_sum ranges Day2Agent.is_invalid_part2).
Proof.
  unfold Day02.main, Day2Agent.calculate_invalid_sum. cbv zeta. f_equal.
  - apply foldl_add_ext. intros r _.
    unfold Day02.invalid_finder, Day2Agent.find_invalid_ids_in_range.
    apply sum_filter_agree_nonzero. intros x Hx.
    by destruct (tests_agree_nonzero x Hx).
  - apply foldl_add_ext. intros r _.
    unfold Day02.pattern_finder, Day2Agent.find_invalid_ids_in_range.
    apply sum_filter_agree_nonzero. intros x Hx.
    by destruct (tests_agree_nonzero x Hx).
Qed.

(** X20.  Every number other than [0] that a Part 1 test marks as invalid
    is also marked by the Part 2 test, so the Part 1 total never exceeds
    the Part 2 total, in either script and for every list of ranges. *)
Theorem part1_total_le_part2_total (ranges : list (Z * Z)) :
  (Day2Agent.calculate_invalid_sum ranges Day2Agent.is_invalid_part1
   ≤ Day2Agent.calculate_invalid_sum ranges Day2Agent.is_invalid_part2)%Z
  ∧ ((Day02.main ranges).1 ≤ (Day02.main ranges).2)%Z.
Proof.
  unfold Day02.main, Day2Agent.calculate_invalid_sum. cbv zeta.
  cbn [fst snd]. split.
  - apply foldl_add_le; [|lia]. intros r _.
    unfold Day2Agent.find_invalid_ids_in_range. apply sum_filter_le_marked.
    + intros x Hx _. destruct (marked_positive x) as (M1 & _).
      apply part1_implies_part2; [|done]. by apply M1.
    + intros x Hx. destruct (marked_positive x) as (_ & M2 & _).
      apply M2 in Hx. lia.
  - apply foldl_add_le; [|lia]. intros r _.
    unfold Day02.invalid_finder, Day02.pattern_finder.
    apply sum_filter_le_marked.
    + intros x Hx Hne. destruct (marked_positive x) as (_ & _ & _ & M4).
      apply part1_implies_part2; [|done]. apply M4 in Hx. lia.
    + intros x Hx. destruct (marked_positive x) as (_ & _ & M3 & _).
      apply M3 in Hx. lia.
Qed.

End Day2More.

(** ** Day 10: the voltage test *)

Section Day10VoltageFacts.
Import Day10Voltage.

(** X21.  [voltage_too_high] answers [True] exactly when some position
    that both lists have holds a larger value in the current list than in
    the target; positions beyond the end of the shorter list are never
    compared. *)
Theorem voltage_too_high_iff (curr_voltage target_voltage : list Z) :
  voltage_too_high curr_voltage target_voltage = true
  ↔ ∃ i cv tv,
      curr_voltage !! i = Some cv ∧ target_voltage !! i = Some tv
      ∧ (tv < cv)%Z.
Proof.
  revert target_voltage.
  induction curr_voltage as [|c cs IH]; intros [|t ts]; cbn [voltage_too_high].
  - split; [done|]. by intros (i & cv & tv & Hc & _).
  - split; [done|]. by intros (i & cv & tv & Hc & _).
  - split; [done|]. by intros (i & cv & tv & _ & Ht & _).
  - destruct (t <? c)%Z eqn:Hlt.
    + split; [|done]. intros _. exists 0, c, t.
      apply Z.ltb_lt in Hlt. done.
    + rewrite IH. apply Z.ltb_ge in Hlt. split.
      * intros (i & cv & tv & Hc & Ht & Hgt). by exists (S i), cv, tv.
      * intros ([|i] & cv & tv & Hc & Ht & Hgt).
        -- simpl in Hc, Ht. injection Hc as <-. injection Ht as <-. lia.
        -- by exists i, cv, tv.
Qed.

End Day10VoltageFacts.
